(** * Pixel avatar generator: a shallow embedding of the generation pipeline

    The development follows the TypeScript sources of the repository:
    - [lib/prng.ts]      the [XorShift32] generator and [emailToSeed];
    - [lib/palettes.ts]  the static palette registry and [getPalette];
    - [lib/buffer.ts]    the [PixelBuffer] canvas;
    - [lib/engine.ts]    the [AvatarEngine] (feature selection and drawing);
    - [lib/exporters.ts] the [toSVG] and [toPNG] encoders.

    Conventions.  A JavaScript number that holds an integer is a [Z]; the
    32-bit conversions that the bit operators apply are written out
    ([to_int32], [to_uint32]).  Probabilities are rationals: the literal
    [0.3] is the binary64 value nearest to 3/10, and it is that value which
    appears below.  A computation that can raise an exception returns an
    [option], [None] standing for the exception. *)

From Stdlib Require Import ZArith QArith Lia Bool Ascii String DecimalString.
From stdpp Require Import base option list strings.

Local Open Scope Z_scope.

(** ** Integer conversions of the bit operators *)

Module JS.

Definition two32 : Z := 4294967296.
Definition two31 : Z := 2147483648.

(** [ToUint32] and [ToInt32] on an integer-valued number. *)
Definition to_uint32 (z : Z) : Z := z mod two32.
Definition to_int32 (z : Z) : Z := (z + two31) mod two32 - two31.

(** [a << n], [a >>> n] and [a ^ b] for a shift count [0 <= n < 32]. *)
Definition shl (a n : Z) : Z := to_int32 (Z.shiftl (to_int32 a) n).
Definition shr_u (a n : Z) : Z := Z.shiftr (to_uint32 a) n.
Definition xor (a b : Z) : Z := Z.lxor (to_int32 a) (to_int32 b).

(** [a & b], used as [hash & hash] to truncate to 32 bits. *)
Definition and (a b : Z) : Z := Z.land (to_int32 a) (to_int32 b).

End JS.

(** ** lib/prng.ts: the XorShift32 generator *)

Module XorShift32.

(** The object has one field, [state]. *)
Definition t := Z.

(** [constructor(seed)]: [this.state = seed === 0 ? 1 : seed >>> 0]. *)
Definition make (seed : Z) : t :=
  if seed =? 0 then 1 else JS.shr_u seed 0.

(** [next()]: three xorshift steps on [this.state]; returns
    [this.state >>> 0] and leaves the new state in the object. *)
Definition next (s : t) : Z * t :=
  let s1 := JS.xor s (JS.shl s 13) in
  let s2 := JS.xor s1 (JS.shr_u s1 17) in
  let s3 := JS.xor s2 (JS.shl s2 5) in
  (JS.shr_u s3 0, s3).

(** [int(max)]: [this.next() % max]. *)
Definition int (max : Z) (s : t) : Z * t :=
  let '(n, s') := next s in (n mod max, s').

(** [pick(array)]: [array[this.int(array.length)]]; [d] is what a read
    past the end would give (the literal arrays of the engine are never
    empty, so it is never returned there). *)
Definition pick {A} (d : A) (array : list A) (s : t) : A * t :=
  let '(i, s') := int (Z.of_nat (length array)) s in
  (nth (Z.to_nat i) array d, s').

(** [chance(p)]: [this.next() / 0x100000000 < p].  The quotient of a
    32-bit integer by 2^32 is exact in binary64, so the comparison is
    the comparison of rationals. *)
Definition chance (p : Q) (s : t) : bool * t :=
  let '(n, s') := next s in
  (negb (Qle_bool p (n # 4294967296)), s').

(** [float()]. *)
Definition float (s : t) : Q * t :=
  let '(n, s') := next s in (n # 4294967296, s').

(** The state after [k] calls of [next]. *)
Fixpoint after (k : nat) (s : t) : t :=
  match k with
  | O => s
  | S k' => after k' (snd (next s))
  end.

End XorShift32.

(** ** lib/prng.ts: emailToSeed

    A string of the program is a [string] of Rocq: a sequence of code units
    below 256 (the Latin-1 range, which holds every address the request
    validation accepts).  [trim] and [toLowerCase] are the built-in methods
    restricted to that range. *)

Definition charCode (c : ascii) : Z := Z.of_N (N_of_ascii c).

(** White space of [String.prototype.trim] below 256: TAB, LF, VT, FF, CR,
    SPACE and NO-BREAK SPACE. *)
Definition is_whitespace (c : ascii) : bool :=
  let n := charCode c in
  ((9 <=? n) && (n <=? 13)) || (n =? 32) || (n =? 160).

Fixpoint trimStart (s : string) : string :=
  match s with
  | EmptyString => EmptyString
  | String c s' => if is_whitespace c then trimStart s' else s
  end.

Fixpoint trimEnd (s : string) : string :=
  match s with
  | EmptyString => EmptyString
  | String c s' =>
      match trimEnd s' with
      | EmptyString => if is_whitespace c then EmptyString else String c EmptyString
      | r => String c r
      end
  end.

Definition trim (s : string) : string := trimEnd (trimStart s).

(** Lower-case mapping below 256: A-Z, and the capital letters
    U+00C0-U+00DE except the multiplication sign U+00D7. *)
Definition is_upper (c : ascii) : bool :=
  let n := charCode c in
  ((65 <=? n) && (n <=? 90)) ||
  ((192 <=? n) && (n <=? 222) && negb (n =? 215)).

Definition toLowerChar (c : ascii) : ascii :=
  if is_upper c then ascii_of_N (N_of_ascii c + 32) else c.

Fixpoint toLowerCase (s : string) : string :=
  match s with
  | EmptyString => EmptyString
  | String c s' => String (toLowerChar c) (toLowerCase s')
  end.

(** One turn of the hashing loop:
    [hash = (hash << 5) - hash + char; hash = hash & hash]. *)
Definition hash_step (hash char : Z) : Z :=
  let hash := JS.shl hash 5 - hash + char in
  JS.and hash hash.

(** [for (let i = 0; i < normalized.length; i++)] over the code units. *)
Fixpoint hash_loop (normalized : string) (hash : Z) : Z :=
  match normalized with
  | EmptyString => hash
  | String c rest => hash_loop rest (hash_step hash (charCode c))
  end.

Definition emailToSeed (email salt : string) : Z :=
  let normalized := (toLowerCase (trim email) ++ salt)%string in
  Z.abs (hash_loop normalized 0).









(** ** lib/palettes.ts: the palette registry *)

Record Palette := mkPalette {
  name : string;
  colors : list string;
  skin : list string;
  hair : list string;
  eyes : list string;
  clothes : list string;
  accent : list string
}.

Module Palettes.

Local Open Scope string_scope.

Definition nes : Palette := {|
  name := "NES";
  colors := [ "#000000"; "#FFFFFF"; "#880000"; "#AAFFEE"; "#CC44CC";
              "#00CC55"; "#0000AA"; "#EEEE77"; "#DD8855"; "#664400";
              "#FF7777"; "#333333"; "#777777"; "#AAFF66"; "#0088FF";
              "#BBBBBB" ];
  skin := [ "#FFDBAC"; "#F1C27D"; "#E0AC69"; "#C68642"; "#8D5524"; "#654321" ];
  hair := [ "#000000"; "#654321"; "#8D5524"; "#D2691E"; "#DAA520"; "#FFFFFF" ];
  eyes := [ "#000000"; "#654321"; "#0000AA"; "#00CC55"; "#777777" ];
  clothes := [ "#880000"; "#0000AA"; "#00CC55"; "#CC44CC"; "#333333" ];
  accent := [ "#FFFFFF"; "#EEEE77"; "#AAFFEE"; "#FF7777" ]
|}.

Definition gameboy : Palette := {|
  name := "Game Boy";
  colors := [ "#0F380F"; "#306230"; "#8BAC0F"; "#9BBD0F" ];
  skin := [ "#9BBD0F"; "#8BAC0F" ];
  hair := [ "#0F380F"; "#306230" ];
  eyes := [ "#0F380F" ];
  clothes := [ "#306230"; "#0F380F" ];
  accent := [ "#9BBD0F"; "#8BAC0F" ]
|}.

Definition pastel : Palette := {|
  name := "Pastel";
  colors := [ "#FFB3BA"; "#FFDFBA"; "#FFFFBA"; "#BAFFC9"; "#BAE1FF";
              "#E1BAFF"; "#FFBAE1"; "#C9BAFF" ];
  skin := [ "#FFDFBA"; "#FFB3BA"; "#FFFFBA" ];
  hair := [ "#E1BAFF"; "#C9BAFF"; "#FFBAE1"; "#BAE1FF" ];
  eyes := [ "#BAE1FF"; "#BAFFC9"; "#E1BAFF" ];
  clothes := [ "#FFB3BA"; "#BAFFC9"; "#C9BAFF"; "#FFBAE1" ];
  accent := [ "#FFFFBA"; "#BAFFC9"; "#BAE1FF"; "#FFBAE1" ]
|}.

(** The registry object, own properties in source order. *)
Definition palettes : list (string * Palette) :=
  [ ("nes", nes); ("gameboy", gameboy); ("pastel", pastel) ].

(** [palettes[name]] also finds what a plain object inherits from
    [Object.prototype]; those values are truthy and have no palette field. *)
Definition object_prototype_keys : list string :=
  [ "constructor"; "hasOwnProperty"; "isPrototypeOf"; "propertyIsEnumerable";
    "toLocaleString"; "toString"; "valueOf"; "__proto__";
    "__defineGetter__"; "__defineSetter__"; "__lookupGetter__";
    "__lookupSetter__" ].

Fixpoint own_property (name : string) (o : list (string * Palette))
  : option Palette :=
  match o with
  | [] => None
  | (k, p) :: o' => if String.eqb k name then Some p else own_property name o'
  end.

(** [getPalette(name)]: [palettes[name] || palettes.nes].  [None] is an
    inherited member of [Object.prototype], returned in place of a palette:
    reading [.skin] or [.colors] of it gives [undefined]. *)
Definition getPalette (name : string) : option Palette :=
  match own_property name palettes with
  | Some p => Some p
  | None =>
      if existsb (String.eqb name) object_prototype_keys then None
      else Some nes
  end.

End Palettes.

(** The invariant of a palette: every entry of the five role lists is a
    member of the flat list. *)
Definition role_colors_listed (p : Palette) : bool :=
  forallb (fun c => existsb (String.eqb c) (colors p))
    (skin p ++ hair p ++ eyes p ++ clothes p ++ accent p).

(** [array.indexOf(x)] on an array of strings, [-1] when absent. *)
Fixpoint indexOf (array : list string) (x : string) : Z :=
  match array with
  | [] => -1
  | a :: rest =>
      if String.eqb a x then 0
      else let i := indexOf rest x in if i <? 0 then -1 else i + 1
  end.

(** [array[i]] for a number [i]; [None] is [undefined]. *)
Definition js_index {A} (array : list A) (i : Z) : option A :=
  if i <? 0 then None else array !! Z.to_nat i.

(** [colors.indexOf(role[i])]; [indexOf(undefined)] is [-1]. *)
Definition role_index (colors role : list string) (i : Z) : Z :=
  match js_index role i with
  | Some c => indexOf colors c
  | None => -1
  end.

(** ** Counted loops

    [for (let i = start; ...; i++) body] with [n] turns, threading the
    state the body mutates; an exception in the body ends the loop. *)

Fixpoint for_loop {S} (n : nat) (i : Z) (body : Z -> S -> option S) (s : S)
  : option S :=
  match n with
  | O => Some s
  | S n' =>
      match body i s with
      | Some s' => for_loop n' (i + 1) body s'
      | None => None
      end
  end.

(** ** lib/buffer.ts: the pixel buffer *)

Module PixelBuffer.

(** [ColorIndex]: a palette index, or -1 for transparent. *)
Definition ColorIndex := Z.
Definition transparent : ColorIndex := -1.

Definition Grid := list (list ColorIndex).

Record t := mk {
  width : nat;
  height : nat;
  buffer : Grid
}.

(** [constructor(width = 16, height = 16)]. *)
Definition make (width height : nat) : t :=
  {| width := width; height := height;
     buffer := replicate height (replicate width transparent) |}.

(** The class invariant: [height] rows of [width] cells. *)
Definition grid_wf {A} (w h : nat) (rows : list (list A)) : Prop :=
  length rows = h /\ Forall (fun row => length row = w) rows.

Definition wf (b : t) : Prop := grid_wf (width b) (height b) (buffer b).

(** Raw accesses [rows[y][x]] and [rows[y][x] = v].  [None] is an access
    off the allocated rows (a TypeError on a missing row, an [undefined]
    cell or a row that would grow); a buffer that satisfies [wf] has none
    within its bounds. *)
Definition read {A} (rows : list (list A)) (y x : Z) : option A :=
  match js_index rows y with
  | Some row => js_index row x
  | None => None
  end.

Definition write {A} (rows : list (list A)) (y x : Z) (v : A)
  : option (list (list A)) :=
  match js_index rows y with
  | Some row =>
      match js_index row x with
      | Some _ => Some (<[Z.to_nat y := <[Z.to_nat x := v]> row]> rows)
      | None => None
      end
  | None => None
  end.

Definition with_buffer (b : t) (rows : Grid) : t :=
  {| width := width b; height := height b; buffer := rows |}.

Definition in_bounds (b : t) (x y : Z) : bool :=
  (0 <=? x) && (x <? Z.of_nat (width b)) &&
  (0 <=? y) && (y <? Z.of_nat (height b)).

Definition setPixel (x y : Z) (colorIndex : ColorIndex) (b : t) : option t :=
  if in_bounds b x y then
    match write (buffer b) y x colorIndex with
    | Some rows => Some (with_buffer b rows)
    | None => None
    end
  else Some b.

Definition getPixel (x y : Z) (b : t) : option ColorIndex :=
  if in_bounds b x y then read (buffer b) y x
  else Some transparent.

(** The drawing methods below take integers.  The source computes on
    them in binary64, where counters, sums and squares are exact as long
    as they stay within 2^53; beyond it a counter stops advancing and a
    loop of the source does not end, which these definitions do not show.
    They are the methods of the source on arguments within that range,
    such as those of the engine, which are below 32.  A magnitude of at
    most 2^26 is enough for all of them: sums, differences and their
    doubles stay below 2^30, and a sum of two squares within 2^53. *)
Definition small_int (z : Z) : Prop := - 67108864 <= z <= 67108864.

Definition fillRect (x y width height : Z) (colorIndex : ColorIndex) (b : t)
  : option t :=
  for_loop (Z.to_nat height) 0 (fun dy =>
    for_loop (Z.to_nat width) 0 (fun dx =>
      setPixel (x + dx) (y + dy) colorIndex)) b.

(** The [while (true)] loop of [drawLine], with the loop variables [x],
    [y] and [err]; [fuel] bounds the number of turns and [None] is also
    the answer when it runs out. *)
Fixpoint drawLine_loop (fuel : nat) (dx dy sx sy x1 y1 : Z)
    (colorIndex : ColorIndex) (x y err : Z) (b : t) : option t :=
  match fuel with
  | O => None
  | S fuel' =>
      match setPixel x y colorIndex b with
      | None => None
      | Some b' =>
          if (x =? x1) && (y =? y1) then Some b'
          else
            let e2 := 2 * err in
            let '(err, x) :=
              if -dy <? e2 then (err - dy, x + sx) else (err, x) in
            let '(err, y) :=
              if e2 <? dx then (err + dx, y + sy) else (err, y) in
            drawLine_loop fuel' dx dy sx sy x1 y1 colorIndex x y err b'
      end
  end.

(** Every turn but the last moves [x] or [y] one step towards the end
    point, so [dx + dy + 1] turns are enough. *)
Definition drawLine (x0 y0 x1 y1 : Z) (colorIndex : ColorIndex) (b : t)
  : option t :=
  let dx := Z.abs (x1 - x0) in
  let dy := Z.abs (y1 - y0) in
  let sx := if x0 <? x1 then 1 else -1 in
  let sy := if y0 <? y1 then 1 else -1 in
  let err := dx - dy in
  drawLine_loop (Z.to_nat (dx + dy + 1)) dx dy sx sy x1 y1 colorIndex
    x0 y0 err b.

Definition fillCircle (centerX centerY radius : Z) (colorIndex : ColorIndex)
    (b : t) : option t :=
  for_loop (Z.to_nat (2 * radius + 1)) (- radius) (fun y =>
    for_loop (Z.to_nat (2 * radius + 1)) (- radius) (fun x b =>
      if x * x + y * y <=? radius * radius
      then setPixel (centerX + x) (centerY + y) colorIndex b
      else Some b)) b.

(** One row of [mirrorVertically]: [row[width - 1 - x] = row[x]] for
    [x < midX], on the grid. *)
Definition mirror_row (w : Z) (midX : nat) (y : Z) (rows : Grid)
  : option Grid :=
  for_loop midX 0 (fun x rows =>
    let mirrorX := w - 1 - x in
    match read rows y x with
    | Some v => write rows y mirrorX v
    | None => None
    end) rows.

Definition mirrorVertically (b : t) : option t :=
  let midX := Nat.div (width b) 2 in
  match for_loop (height b) 0 (mirror_row (Z.of_nat (width b)) midX)
          (buffer b) with
  | Some rows => Some (with_buffer b rows)
  | None => None
  end.

(** [getData()]: a copy of the rows. *)
Definition getData (b : t) : Grid := buffer b.

Definition clear (b : t) : option t :=
  match for_loop (height b) 0 (fun y =>
          for_loop (width b) 0 (fun x rows => write rows y x transparent))
          (buffer b) with
  | Some rows => Some (with_buffer b rows)
  | None => None
  end.

(** A drawing operation is safe when, on a well-formed buffer, it returns
    a well-formed buffer of the same dimensions. *)
Definition safe (op : t -> option t) : Prop :=
  forall b, wf b ->
  exists b', op b = Some b' /\ wf b' /\
             width b' = width b /\ height b' = height b.

End PixelBuffer.

(** ** lib/types.ts: the feature record *)

Inductive JawShape := JawRound | JawSquare | JawPointed.
Inductive EyeShape :=
  EyeNormal | EyeSmile | EyeWink | EyeClosed | EyeWide | EyeSurprised.
Inductive BrowShape := BrowThin | BrowThick | BrowAngry | BrowCurved.
Inductive NoseShape := NoseDot | NoseLine | NoseT.
Inductive MouthShape :=
  MouthNeutral | MouthSmile | MouthTeeth | MouthOpen | MouthWow | MouthFlat.
Inductive HairStyle :=
  HairShort | HairMedium | HairLong | HairBald | HairBun | HairAfro
| HairUndercut.
Inductive FacialHair := Stubble | Mustache | Goatee.
Inductive Glasses := GlassesRound | GlassesSquare.
Inductive Hat := Cap | Beanie.
Inductive ClothesStyle := Collar | Hoodie | Tshirt.

Inductive Mood := Neutral | Smile | Wink | Surprised | Angry.
Inductive Gender := Auto | Androgynous | Masc | Fem.

(** An absent optional field ([undefined]) is [None]. *)
Record Accessories := mkAccessories {
  glasses : option Glasses;
  earrings : bool;
  hat : option Hat
}.

Record AvatarFeatures := mkFeatures {
  skinTone : Z;
  jawShape : JawShape;
  eyeShape : EyeShape;
  browShape : BrowShape;
  noseShape : NoseShape;
  mouthShape : MouthShape;
  hairStyle : HairStyle;
  hairColor : Z;
  facialHair : option FacialHair;
  accessories : Accessories;
  clothesStyle : ClothesStyle;
  clothesColor : Z
}.

(** The probabilities of the source, as the binary64 values of the
    literals. *)
Module Prob.
Definition p0_1 : Q := 3602879701896397 # 36028797018963968.
Definition p0_15 : Q := 5404319552844595 # 36028797018963968.
Definition p0_2 : Q := 3602879701896397 # 18014398509481984.
Definition p0_25 : Q := 1 # 4.
Definition p0_3 : Q := 5404319552844595 # 18014398509481984.
Definition p0_4 : Q := 3602879701896397 # 9007199254740992.
Definition p0_5 : Q := 1 # 2.
Definition p0_6 : Q := 5404319552844595 # 9007199254740992.
Definition p0_7 : Q := 3152519739159347 # 4503599627370496.
End Prob.

(** ** lib/engine.ts: the avatar engine *)

Module AvatarEngine.

Import PixelBuffer.

(** The private fields of the object. *)
Record t := mk {
  prng : XorShift32.t;
  buffer : PixelBuffer.t;
  palette : Palette;
  features : AvatarFeatures
}.

(** [generateFeatures()]: the properties of the object literal are
    evaluated in the order they are written, each on the generator the
    previous one left. *)
Definition generateFeatures (pal : Palette) (g : XorShift32.t)
  : AvatarFeatures * XorShift32.t :=
  let '(skinTone, g) := XorShift32.int (Z.of_nat (length (skin pal))) g in
  let '(jawShape, g) :=
    XorShift32.pick JawRound [JawRound; JawSquare; JawPointed] g in
  let '(eyeShape, g) :=
    XorShift32.pick EyeNormal
      [EyeNormal; EyeSmile; EyeWink; EyeClosed; EyeWide; EyeSurprised] g in
  let '(browShape, g) :=
    XorShift32.pick BrowThin [BrowThin; BrowThick; BrowAngry; BrowCurved] g in
  let '(noseShape, g) :=
    XorShift32.pick NoseDot [NoseDot; NoseLine; NoseT] g in
  let '(mouthShape, g) :=
    XorShift32.pick MouthNeutral
      [MouthNeutral; MouthSmile; MouthTeeth; MouthOpen; MouthWow; MouthFlat]
      g in
  let '(hairStyle, g) :=
    XorShift32.pick HairShort
      [HairShort; HairMedium; HairLong; HairBald; HairBun; HairAfro;
       HairUndercut] g in
  let '(hairColor, g) := XorShift32.int (Z.of_nat (length (hair pal))) g in
  let '(facialHair, g) :=
    let '(c, g) := XorShift32.chance Prob.p0_3 g in
    if c then
      let '(k, g) := XorShift32.pick Stubble [Stubble; Mustache; Goatee] g in
      (Some k, g)
    else (None, g) in
  let '(glasses, g) :=
    let '(c, g) := XorShift32.chance Prob.p0_25 g in
    if c then
      let '(k, g) :=
        XorShift32.pick GlassesRound [GlassesRound; GlassesSquare] g in
      (Some k, g)
    else (None, g) in
  let '(earrings, g) := XorShift32.chance Prob.p0_15 g in
  let '(hat, g) :=
    let '(c, g) := XorShift32.chance Prob.p0_2 g in
    if c then
      let '(k, g) := XorShift32.pick Cap [Cap; Beanie] g in (Some k, g)
    else (None, g) in
  let '(clothesStyle, g) :=
    XorShift32.pick Collar [Collar; Hoodie; Tshirt] g in
  let '(clothesColor, g) :=
    XorShift32.int (Z.of_nat (length (clothes pal))) g in
  ({| skinTone := skinTone; jawShape := jawShape; eyeShape := eyeShape;
      browShape := browShape; noseShape := noseShape;
      mouthShape := mouthShape; hairStyle := hairStyle;
      hairColor := hairColor; facialHair := facialHair;
      accessories :=
        {| glasses := glasses; earrings := earrings; hat := hat |};
      clothesStyle := clothesStyle; clothesColor := clothesColor |}, g).

(** [constructor(seed, paletteName)].  With a name that [getPalette]
    resolves to an inherited member, [this.palette.skin.length] raises a
    TypeError. *)
Definition make (seed : Z) (paletteName : string) : option t :=
  let prng := XorShift32.make seed in
  let buffer := PixelBuffer.make 16 16 in
  match Palettes.getPalette paletteName with
  | None => None
  | Some pal =>
      let '(features, prng) := generateFeatures pal prng in
      Some {| prng := prng; buffer := buffer; palette := pal;
              features := features |}
  end.

(** Field updates. *)
Definition set_prng (g : XorShift32.t) (e : t) : t :=
  {| prng := g; buffer := buffer e; palette := palette e;
     features := features e |}.
Definition set_buffer (b : PixelBuffer.t) (e : t) : t :=
  {| prng := prng e; buffer := b; palette := palette e;
     features := features e |}.
Definition set_features (f : AvatarFeatures) (e : t) : t :=
  {| prng := prng e; buffer := buffer e; palette := palette e;
     features := f |}.

Definition set_eyeShape (v : EyeShape) (f : AvatarFeatures) :=
  {| skinTone := skinTone f; jawShape := jawShape f; eyeShape := v;
     browShape := browShape f; noseShape := noseShape f;
     mouthShape := mouthShape f; hairStyle := hairStyle f;
     hairColor := hairColor f; facialHair := facialHair f;
     accessories := accessories f; clothesStyle := clothesStyle f;
     clothesColor := clothesColor f |}.
Definition set_browShape (v : BrowShape) (f : AvatarFeatures) :=
  {| skinTone := skinTone f; jawShape := jawShape f; eyeShape := eyeShape f;
     browShape := v; noseShape := noseShape f;
     mouthShape := mouthShape f; hairStyle := hairStyle f;
     hairColor := hairColor f; facialHair := facialHair f;
     accessories := accessories f; clothesStyle := clothesStyle f;
     clothesColor := clothesColor f |}.
Definition set_mouthShape (v : MouthShape) (f : AvatarFeatures) :=
  {| skinTone := skinTone f; jawShape := jawShape f; eyeShape := eyeShape f;
     browShape := browShape f; noseShape := noseShape f;
     mouthShape := v; hairStyle := hairStyle f;
     hairColor := hairColor f; facialHair := facialHair f;
     accessories := accessories f; clothesStyle := clothesStyle f;
     clothesColor := clothesColor f |}.
Definition set_hairStyle (v : HairStyle) (f : AvatarFeatures) :=
  {| skinTone := skinTone f; jawShape := jawShape f; eyeShape := eyeShape f;
     browShape := browShape f; noseShape := noseShape f;
     mouthShape := mouthShape f; hairStyle := v;
     hairColor := hairColor f; facialHair := facialHair f;
     accessories := accessories f; clothesStyle := clothesStyle f;
     clothesColor := clothesColor f |}.
Definition set_facialHair (v : option FacialHair) (f : AvatarFeatures) :=
  {| skinTone := skinTone f; jawShape := jawShape f; eyeShape := eyeShape f;
     browShape := browShape f; noseShape := noseShape f;
     mouthShape := mouthShape f; hairStyle := hairStyle f;
     hairColor := hairColor f; facialHair := v;
     accessories := accessories f; clothesStyle := clothesStyle f;
     clothesColor := clothesColor f |}.
Definition set_earrings (v : bool) (f : AvatarFeatures) :=
  {| skinTone := skinTone f; jawShape := jawShape f; eyeShape := eyeShape f;
     browShape := browShape f; noseShape := noseShape f;
     mouthShape := mouthShape f; hairStyle := hairStyle f;
     hairColor := hairColor f; facialHair := facialHair f;
     accessories :=
       {| glasses := glasses (accessories f); earrings := v;
          hat := hat (accessories f) |};
     clothesStyle := clothesStyle f; clothesColor := clothesColor f |}.

(** A method of the engine: it mutates the object or raises. *)
Definition method := t -> option t.

(** [m1; m2]: one statement after the other. *)
Definition andThen (m1 m2 : method) : method :=
  fun e => match m1 e with Some e' => m2 e' | None => None end.

Notation "m1 >=> m2" := (andThen m1 m2) (at level 62, right associativity).

Definition skip : method := fun e => Some e.

(** A call [this.buffer.op(...)]. *)
Definition draw (op : PixelBuffer.t -> option PixelBuffer.t) : method :=
  fun e => match op (buffer e) with
           | Some b => Some (set_buffer b e)
           | None => None
           end.

(** A draw from [this.prng], then the rest with the value drawn. *)
Definition rand {A} (d : XorShift32.t -> A * XorShift32.t)
    (k : A -> method) : method :=
  fun e => let '(a, g) := d (prng e) in k a (set_prng g e).

(** An assignment to a field of [this.features]. *)
Definition assign (upd : AvatarFeatures -> AvatarFeatures) : method :=
  fun e => Some (set_features (upd (features e)) e).

(** The color indices the drawing methods look up. *)
Definition skinIndex (e : t) : ColorIndex :=
  role_index (colors (palette e)) (skin (palette e)) (skinTone (features e)).
Definition hairColorIndex (e : t) : ColorIndex :=
  role_index (colors (palette e)) (hair (palette e)) (hairColor (features e)).
Definition clothesColorIndex (e : t) : ColorIndex :=
  role_index (colors (palette e)) (clothes (palette e))
    (clothesColor (features e)).
Definition accentColor (e : t) : ColorIndex :=
  role_index (colors (palette e)) (accent (palette e)) 0.

Definition applyMood (mood : Mood) : method :=
  match mood with
  | Smile =>
      assign (set_mouthShape MouthSmile) >=>
      rand (XorShift32.pick EyeNormal [EyeNormal; EyeSmile])
        (fun v => assign (set_eyeShape v))
  | Wink =>
      assign (set_eyeShape EyeWink) >=>
      rand (XorShift32.pick MouthSmile [MouthSmile; MouthNeutral])
        (fun v => assign (set_mouthShape v))
  | Surprised =>
      assign (set_eyeShape EyeWide) >=>
      assign (set_mouthShape MouthOpen) >=>
      rand (XorShift32.pick BrowThin [BrowThin; BrowCurved])
        (fun v => assign (set_browShape v))
  | Angry =>
      assign (set_browShape BrowAngry) >=>
      rand (XorShift32.pick MouthFlat [MouthFlat; MouthNeutral])
        (fun v => assign (set_mouthShape v)) >=>
      rand (XorShift32.pick EyeNormal [EyeNormal; EyeClosed])
        (fun v => assign (set_eyeShape v))
  | Neutral => skip
  end.

Definition applyGender (gender : Gender) : method :=
  match gender with
  | Fem =>
      rand (XorShift32.chance Prob.p0_7) (fun c =>
        if c then
          rand (XorShift32.pick HairMedium [HairMedium; HairLong; HairBun])
            (fun v => assign (set_hairStyle v))
        else skip) >=>
      rand (XorShift32.chance Prob.p0_4)
        (fun c => assign (set_earrings c))
  | Masc =>
      rand (XorShift32.chance Prob.p0_6) (fun c =>
        if c then
          rand (XorShift32.pick HairShort [HairShort; HairUndercut; HairBald])
            (fun v => assign (set_hairStyle v))
        else skip) >=>
      rand (XorShift32.chance Prob.p0_5) (fun c =>
        if c then
          rand (XorShift32.pick Stubble [Stubble; Mustache; Goatee])
            (fun v => assign (set_facialHair (Some v)))
        else assign (set_facialHair None))
  | Auto | Androgynous => skip
  end.

Definition drawHead : method := fun e =>
  let skinIndex := skinIndex e in
  match jawShape (features e) with
  | JawRound => draw (fillCircle 8 7 5 skinIndex) e
  | JawSquare => draw (fillRect 4 3 8 8 skinIndex) e
  | JawPointed =>
      (draw (fillCircle 8 6 5 skinIndex) >=>
       draw (fillRect 6 10 4 1 skinIndex)) e
  end.

Definition drawNeck : method := fun e =>
  draw (fillRect 6 11 4 2 (skinIndex e)) e.

Definition drawShoulders : method := fun e =>
  let skinIndex := skinIndex e in
  (draw (fillRect 2 13 4 3 skinIndex) >=>
   draw (fillRect 10 13 4 3 skinIndex)) e.

Definition drawShirt : method := fun e =>
  let clothesColorIndex := clothesColorIndex e in
  let accentColor := accentColor e in
  match clothesStyle (features e) with
  | Collar =>
      (draw (fillRect 3 13 10 3 clothesColorIndex) >=>
       draw (drawLine 6 12 9 12 accentColor) >=>
       draw (setPixel 7 13 accentColor) >=>
       draw (setPixel 8 14 accentColor)) e
  | Hoodie =>
      (draw (fillRect 2 13 12 3 clothesColorIndex) >=>
       draw (setPixel 6 12 accentColor) >=>
       draw (setPixel 9 12 accentColor) >=>
       draw (drawLine 5 15 10 15 accentColor)) e
  | Tshirt =>
      (draw (fillRect 3 13 10 3 clothesColorIndex) >=>
       rand (XorShift32.chance Prob.p0_3) (fun c =>
         if c then
           draw (setPixel 8 14 accentColor) >=>
           draw (setPixel 7 15 accentColor) >=>
           draw (setPixel 9 15 accentColor)
         else skip)) e
  end.

Definition drawEyes : method := fun e =>
  let pal := palette e in
  rand (XorShift32.int (Z.of_nat (length (eyes pal)))) (fun i e =>
    let eyeColor := role_index (colors pal) (eyes pal) i in
    let leftEyeX := 5 in
    let rightEyeX := 10 in
    let eyeY := 6 in
    match eyeShape (features e) with
    | EyeNormal =>
        (draw (setPixel leftEyeX eyeY eyeColor) >=>
         draw (setPixel rightEyeX eyeY eyeColor)) e
    | EyeSmile =>
        (draw (setPixel leftEyeX (eyeY + 1) eyeColor) >=>
         draw (setPixel rightEyeX (eyeY + 1) eyeColor)) e
    | EyeWink =>
        (draw (setPixel leftEyeX eyeY eyeColor) >=>
         draw (drawLine (rightEyeX - 1) eyeY (rightEyeX + 1) eyeY eyeColor)) e
    | EyeClosed =>
        (draw (drawLine (leftEyeX - 1) eyeY (leftEyeX + 1) eyeY eyeColor) >=>
         draw (drawLine (rightEyeX - 1) eyeY (rightEyeX + 1) eyeY eyeColor)) e
    | EyeWide =>
        (draw (fillRect (leftEyeX - 1) eyeY 2 2 eyeColor) >=>
         draw (fillRect (rightEyeX - 1) eyeY 2 2 eyeColor)) e
    | EyeSurprised =>
        (draw (fillCircle leftEyeX eyeY 1 eyeColor) >=>
         draw (fillCircle rightEyeX eyeY 1 eyeColor)) e
    end) e.

Definition drawBrows : method := fun e =>
  let browColor := 0 in
  let leftBrowX := 5 in
  let rightBrowX := 10 in
  let browY := 4 in
  match browShape (features e) with
  | BrowThin =>
      (draw (setPixel leftBrowX browY browColor) >=>
       draw (setPixel rightBrowX browY browColor)) e
  | BrowThick =>
      (draw (fillRect (leftBrowX - 1) browY 2 1 browColor) >=>
       draw (fillRect (rightBrowX - 1) browY 2 1 browColor)) e
  | BrowAngry =>
      (draw (drawLine (leftBrowX - 1) (browY + 1) (leftBrowX + 1) (browY - 1)
               browColor) >=>
       draw (drawLine (rightBrowX - 1) (browY - 1) (rightBrowX + 1)
               (browY + 1) browColor)) e
  | BrowCurved =>
      (draw (setPixel (leftBrowX - 1) browY browColor) >=>
       draw (setPixel leftBrowX (browY - 1) browColor) >=>
       draw (setPixel (leftBrowX + 1) browY browColor) >=>
       draw (setPixel (rightBrowX - 1) browY browColor) >=>
       draw (setPixel rightBrowX (browY - 1) browColor) >=>
       draw (setPixel (rightBrowX + 1) browY browColor)) e
  end.

Definition drawNose : method := fun e =>
  let noseColor := 0 in
  let noseX := 8 in
  let noseY := 8 in
  match noseShape (features e) with
  | NoseDot => draw (setPixel noseX noseY noseColor) e
  | NoseLine => draw (drawLine noseX (noseY - 1) noseX (noseY + 1) noseColor) e
  | NoseT =>
      (draw (drawLine noseX (noseY - 1) noseX (noseY + 1) noseColor) >=>
       draw (drawLine (noseX - 1) (noseY + 1) (noseX + 1) (noseY + 1)
               noseColor)) e
  end.

Definition drawMouth : method := fun e =>
  let mouthColor := 0 in
  let mouthX := 8 in
  let mouthY := 11 in
  match mouthShape (features e) with
  | MouthNeutral =>
      draw (drawLine (mouthX - 1) mouthY (mouthX + 1) mouthY mouthColor) e
  | MouthSmile =>
      (draw (setPixel (mouthX - 1) mouthY mouthColor) >=>
       draw (setPixel mouthX (mouthY - 1) mouthColor) >=>
       draw (setPixel (mouthX + 1) mouthY mouthColor)) e
  | MouthTeeth =>
      (draw (drawLine (mouthX - 2) mouthY (mouthX + 2) mouthY mouthColor) >=>
       draw (setPixel mouthX (mouthY + 1) 1)) e
  | MouthOpen => draw (fillRect (mouthX - 1) mouthY 2 2 mouthColor) e
  | MouthWow => draw (fillCircle mouthX mouthY 1 mouthColor) e
  | MouthFlat =>
      draw (drawLine (mouthX - 2) mouthY (mouthX + 2) mouthY mouthColor) e
  end.

Definition drawHair : method := fun e =>
  let hairColorIndex := hairColorIndex e in
  let hasHat := hat (accessories (features e)) in
  let hairHeight := match hasHat with Some _ => 2 | None => 3 end in
  match hairStyle (features e) with
  | HairShort => draw (fillRect 4 1 8 hairHeight hairColorIndex) e
  | HairMedium =>
      (draw (fillRect 3 1 10 (hairHeight + 1) hairColorIndex) >=>
       draw (fillRect 2 4 2 2 hairColorIndex) >=>
       draw (fillRect 12 4 2 2 hairColorIndex)) e
  | HairLong =>
      (draw (fillRect 3 1 10 (hairHeight + 1) hairColorIndex) >=>
       draw (fillRect 1 4 3 4 hairColorIndex) >=>
       draw (fillRect 12 4 3 4 hairColorIndex)) e
  | HairBald => Some e
  | HairBun =>
      (draw (fillRect 4 1 8 2 hairColorIndex) >=>
       draw (fillCircle 8 0 1 hairColorIndex)) e
  | HairAfro => draw (fillCircle 8 3 5 hairColorIndex) e
  | HairUndercut =>
      (draw (fillRect 5 1 6 3 hairColorIndex) >=>
       draw (fillRect 3 4 2 1 hairColorIndex) >=>
       draw (fillRect 11 4 2 1 hairColorIndex)) e
  end.

Definition drawFacialHair : method := fun e =>
  match facialHair (features e) with
  | None => Some e
  | Some kind =>
      let hairColorIndex := hairColorIndex e in
      match kind with
      | Stubble =>
          for_loop 8 0 (fun _ =>
            rand (XorShift32.chance Prob.p0_3) (fun c =>
              if c then
                rand (XorShift32.int 8) (fun i =>
                  let x := 4 + i in
                  rand (XorShift32.int 2) (fun j =>
                    let y := 12 + j in
                    draw (setPixel x y hairColorIndex)))
              else skip)) e
      | Mustache => draw (fillRect 6 9 4 1 hairColorIndex) e
      | Goatee => draw (fillRect 7 12 2 2 hairColorIndex) e
      end
  end.

Definition drawAccessories : method := fun e =>
  let accessoryColor := 0 in
  let acc := accessories (features e) in
  ((match glasses acc with
    | Some kind =>
        let glassesY := 6 in
        match kind with
        | GlassesRound =>
            draw (fillCircle 5 glassesY 2 accessoryColor) >=>
            draw (fillCircle 10 glassesY 2 accessoryColor) >=>
            draw (setPixel 5 glassesY (-1)) >=>
            draw (setPixel 10 glassesY (-1))
        | GlassesSquare =>
            draw (fillRect 3 (glassesY - 1) 4 3 accessoryColor) >=>
            draw (fillRect 9 (glassesY - 1) 4 3 accessoryColor) >=>
            draw (fillRect 4 glassesY 2 1 (-1)) >=>
            draw (fillRect 10 glassesY 2 1 (-1))
        end >=>
        draw (drawLine 7 glassesY 8 glassesY accessoryColor)
    | None => skip
    end) >=>
   (if earrings acc then
      draw (setPixel 3 7 accessoryColor) >=>
      draw (setPixel 12 7 accessoryColor)
    else skip) >=>
   (match hat acc with
    | Some kind =>
        let hatColor := clothesColorIndex e in
        match kind with
        | Cap =>
            draw (fillRect 3 0 10 3 hatColor) >=>
            draw (fillRect 1 2 4 1 hatColor)
        | Beanie => draw (fillRect 4 0 8 4 hatColor)
        end
    | None => skip
    end)) e.

(** [addAsymmetry()]; [&&] does not evaluate its right operand, and so
    draws nothing, when the left one is false. *)
Definition addAsymmetry : method :=
  (fun e =>
     if earrings (accessories (features e)) then
       rand (XorShift32.chance Prob.p0_3) (fun c =>
         if c then draw (setPixel 12 7 (-1)) else skip) e
     else Some e) >=>
  rand (XorShift32.chance Prob.p0_1) (fun c =>
    if c then
      rand (XorShift32.int 8) (fun i =>
        let x := 4 + i in
        rand (XorShift32.int 4) (fun j =>
          let y := 7 + j in
          draw (setPixel x y 0)))
    else skip) >=>
  (fun e =>
     match hairStyle (features e) with
     | HairBald => Some e
     | _ =>
         rand (XorShift32.chance Prob.p0_2) (fun c =>
           if c then
             fun e =>
               let hairColorIndex := hairColorIndex e in
               rand (XorShift32.int 2) (fun i =>
                 let x := 2 + i in
                 rand (XorShift32.int 3) (fun j =>
                   let y := 3 + j in
                   draw (setPixel x y hairColorIndex))) e
           else skip) e
     end).

(** [generate(mood, gender)]; the buffer returned is the [buffer] field
    of the object after the call. *)
Definition generate (mood : Mood) (gender : Gender) : method :=
  applyMood mood >=>
  applyGender gender >=>
  draw clear >=>
  drawShoulders >=>
  drawShirt >=>
  drawNeck >=>
  drawHead >=>
  drawHair >=>
  drawBrows >=>
  drawEyes >=>
  drawNose >=>
  drawMouth >=>
  drawFacialHair >=>
  drawAccessories >=>
  draw mirrorVertically >=>
  addAsymmetry.

(** [new AvatarEngine(seed, paletteName).generate(mood, gender)]: the
    buffer a fresh engine returns from its first call of [generate]. *)
Definition avatar (seed : Z) (paletteName : string) (mood : Mood)
    (gender : Gender) : option PixelBuffer.t :=
  match make seed paletteName with
  | None => None
  | Some e =>
      match generate mood gender e with
      | None => None
      | Some e' => Some (buffer e')
      end
  end.

(** An engine is well formed when its buffer is; a method is safe when,
    on a well-formed engine, it returns and leaves a well-formed engine. *)
Definition wf (e : t) : Prop := PixelBuffer.wf (buffer e).

Definition method_safe (m : method) : Prop :=
  forall e, wf e -> exists e', m e = Some e' /\ wf e'.

End AvatarEngine.

(** ** The order of the draws of feature selection, as the specification
    words it

    A draw is either an index below a bound ([int], which [pick] uses on
    an array of that length) or a presence test with a probability
    ([chance]).  [selection_script] lists the draws in the order of the
    specification; the kind of facial hair, of glasses and of hat is drawn
    only when the presence test before it succeeded.  [feature_codes]
    reads the outcome of each draw off a feature record: the index drawn,
    or 1 and 0 for a presence test. *)

Inductive Draw :=
| DrawInt (max : Z)
| DrawChance (p : Q).

Definition perform (d : Draw) (g : XorShift32.t) : Z * XorShift32.t :=
  match d with
  | DrawInt max => XorShift32.int max g
  | DrawChance p =>
      let '(c, g') := XorShift32.chance p g in ((if c then 1 else 0), g')
  end.

Fixpoint perform_all (ds : list Draw) (g : XorShift32.t)
  : list Z * XorShift32.t :=
  match ds with
  | [] => ([], g)
  | d :: ds' =>
      let '(v, g1) := perform d g in
      let '(vs, g2) := perform_all ds' g1 in
      (v :: vs, g2)
  end.

Definition jaw_code (v : JawShape) : Z :=
  match v with JawRound => 0 | JawSquare => 1 | JawPointed => 2 end.
Definition eye_code (v : EyeShape) : Z :=
  match v with
  | EyeNormal => 0 | EyeSmile => 1 | EyeWink => 2 | EyeClosed => 3
  | EyeWide => 4 | EyeSurprised => 5
  end.
Definition brow_code (v : BrowShape) : Z :=
  match v with
  | BrowThin => 0 | BrowThick => 1 | BrowAngry => 2 | BrowCurved => 3
  end.
Definition nose_code (v : NoseShape) : Z :=
  match v with NoseDot => 0 | NoseLine => 1 | NoseT => 2 end.
Definition mouth_code (v : MouthShape) : Z :=
  match v with
  | MouthNeutral => 0 | MouthSmile => 1 | MouthTeeth => 2 | MouthOpen => 3
  | MouthWow => 4 | MouthFlat => 5
  end.
Definition hair_code (v : HairStyle) : Z :=
  match v with
  | HairShort => 0 | HairMedium => 1 | HairLong => 2 | HairBald => 3
  | HairBun => 4 | HairAfro => 5 | HairUndercut => 6
  end.
Definition facial_code (v : FacialHair) : Z :=
  match v with Stubble => 0 | Mustache => 1 | Goatee => 2 end.
Definition glasses_code (v : Glasses) : Z :=
  match v with GlassesRound => 0 | GlassesSquare => 1 end.
Definition hat_code (v : Hat) : Z :=
  match v with Cap => 0 | Beanie => 1 end.
Definition clothes_code (v : ClothesStyle) : Z :=
  match v with Collar => 0 | Hoodie => 1 | Tshirt => 2 end.

(** A presence test and, when it succeeded, the draw of the kind. *)
Definition optional_draws {A} (p : Q) (ways : Z) (o : option A) : list Draw :=
  DrawChance p :: match o with Some _ => [DrawInt ways] | None => [] end.

Definition optional_codes {A} (code : A -> Z) (o : option A) : list Z :=
  match o with Some k => [1; code k] | None => [0] end.

Definition selection_script (pal : Palette) (f : AvatarFeatures) : list Draw :=
  [ DrawInt (Z.of_nat (length (skin pal)));   (* skin-tone index *)
    DrawInt 3;                                (* jaw shape *)
    DrawInt 6;                                (* eye shape *)
    DrawInt 4;                                (* brow shape *)
    DrawInt 3;                                (* nose shape *)
    DrawInt 6;                                (* mouth shape *)
    DrawInt 7;                                (* hair style *)
    DrawInt (Z.of_nat (length (hair pal))) ]  (* hair-color index *)
  ++ optional_draws (3 # 10) 3 (facialHair f)
  ++ optional_draws (25 # 100) 2 (glasses (accessories f))
  ++ [ DrawChance (15 # 100) ]                (* earrings *)
  ++ optional_draws (20 # 100) 2 (hat (accessories f))
  ++ [ DrawInt 3;                             (* clothes style *)
       DrawInt (Z.of_nat (length (clothes pal))) ].

Definition feature_codes (f : AvatarFeatures) : list Z :=
  [ skinTone f; jaw_code (jawShape f); eye_code (eyeShape f);
    brow_code (browShape f); nose_code (noseShape f);
    mouth_code (mouthShape f); hair_code (hairStyle f); hairColor f ]
  ++ optional_codes facial_code (facialHair f)
  ++ optional_codes glasses_code (glasses (accessories f))
  ++ [ if earrings (accessories f) then 1 else 0 ]
  ++ optional_codes hat_code (hat (accessories f))
  ++ [ clothes_code (clothesStyle f); clothesColor f ].

(** ** lib/exporters.ts: the SVG encoder *)

Module Exporters.

Import PixelBuffer.

Local Open Scope string_scope.

(** The double quote and the line feed of the template literals. *)
Definition dq : string := String (ascii_of_nat 34) EmptyString.
Definition nl : string := String (ascii_of_nat 10) EmptyString.
Definition quoted (s : string) : string := dq ++ s ++ dq.

Definition show_Z (z : Z) : string := NilZero.string_of_int (Z.to_int z).

(** The digits after the decimal point of [r / d], at most [n] of them. *)
Fixpoint fraction_digits (n : nat) (r d : Z) : string :=
  match n with
  | O => ""
  | S n' =>
      if (r =? 0)%Z then ""
      else show_Z (10 * r / d) ++ fraction_digits n' (10 * r mod d) d
  end.

(** A number in a template literal.  Sizes are integers and the quantities
    printed are their multiples by a cell count over the buffer width; for
    the 16-wide buffer of the engine they are multiples of 1/16, which
    binary64 holds exactly and prints in full. *)
Definition show_number (q : Q) : string :=
  let n := Qnum q in
  let d := Z.pos (Qden q) in
  let a := Z.abs n in
  (if (n <? 0)%Z then "-" else "") ++ show_Z (a / d) ++
  (if (a mod d =? 0)%Z then "" else "." ++ fraction_digits 20 (a mod d) d).

Record Rect := mkRect {
  rect_x : Q;
  rect_y : Q;
  rect_width : Q;
  rect_height : Q;
  rect_color : option string
}.

(** [undefined] in a template literal prints as its name. *)
Definition show_color (c : option string) : string :=
  match c with Some s => s | None => "undefined" end.

Section RunScan.

Variables (data : Grid) (processed : list (list bool)).
Variables (x y : Z) (colorIndex : ColorIndex).

(** [while (x + width < buffer.width && data[y][x + width] === colorIndex
    && !processed[y][x + width]) width++], with [k] the distance from
    [x + width] to [buffer.width]. *)
Fixpoint width_loop (k : nat) (width : Z) : option Z :=
  match k with
  | O => Some width
  | S k' =>
      match read data y (x + width) with
      | None => None
      | Some d =>
          if (d =? colorIndex)%Z then
            match read processed y (x + width) with
            | None => None
            | Some p => if p then Some width else width_loop k' (width + 1)
            end
          else Some width
      end
  end.

(** The inner [for] of the vertical extension, with its [break]: does row
    [y + height] continue the run over [n] cells from [x + dx] on? *)
Fixpoint row_extends (height : Z) (n : nat) (dx : Z) : option bool :=
  match n with
  | O => Some true
  | S n' =>
      match read data (y + height) (x + dx) with
      | None => None
      | Some d =>
          if (d =? colorIndex)%Z then
            match read processed (y + height) (x + dx) with
            | None => None
            | Some p =>
                if p then Some false else row_extends height n' (dx + 1)
            end
          else Some false
      end
  end.

(** [while (y + height < buffer.height && canExtendVertically)], with [k]
    the distance from [y + height] to [buffer.height]. *)
Fixpoint height_loop (width : Z) (k : nat) (height : Z) : option Z :=
  match k with
  | O => Some height
  | S k' =>
      match row_extends height (Z.to_nat width) 0 with
      | None => None
      | Some true => height_loop width k' (height + 1)
      | Some false => Some height
      end
  end.

End RunScan.

(** The body of the scan at cell [(x, y)]; the state is [processed] and
    [rects]. *)
Definition scan_cell (b : PixelBuffer.t) (palette : option Palette)
    (pixelSize : Q) (data : Grid) (y x : Z)
    (st : list (list bool) * list Rect)
  : option (list (list bool) * list Rect) :=
  let '(processed, rects) := st in
  match read processed y x, read data y x with
  | Some p, Some d =>
      if p || (d =? -1)%Z then Some st
      else
        let colorIndex := d in
        match palette with
        | None => None
        | Some pal =>
            let color := js_index (colors pal) colorIndex in
            match width_loop data processed x y colorIndex
                    (Nat.sub (PixelBuffer.width b) (Z.to_nat (x + 1))) 1 with
            | None => None
            | Some width =>
                match height_loop data processed x y colorIndex width
                        (Nat.sub (PixelBuffer.height b) (Z.to_nat (y + 1)))
                        1 with
                | None => None
                | Some height =>
                    match for_loop (Z.to_nat height) 0 (fun dy =>
                            for_loop (Z.to_nat width) 0 (fun dx pr =>
                              write pr (y + dy) (x + dx) true)) processed with
                    | None => None
                    | Some processed' =>
                        Some (processed',
                              (rects ++
                               [ {| rect_x := inject_Z x * pixelSize;
                                    rect_y := inject_Z y * pixelSize;
                                    rect_width := inject_Z width * pixelSize;
                                    rect_height := inject_Z height * pixelSize;
                                    rect_color := color |} ])%list)
                    end
                end
            end
        end
  | _, _ => None
  end.

Definition show_rect (r : Rect) : string :=
  "<rect x=" ++ quoted (show_number (rect_x r)) ++
  " y=" ++ quoted (show_number (rect_y r)) ++
  " width=" ++ quoted (show_number (rect_width r)) ++
  " height=" ++ quoted (show_number (rect_height r)) ++
  " fill=" ++ quoted (show_color (rect_color r)) ++ "/>".

Definition svg_open (size : Z) : string :=
  "<svg width=" ++ quoted (show_Z size) ++
  " height=" ++ quoted (show_Z size) ++
  " viewBox=" ++ quoted ("0 0 " ++ show_Z size ++ " " ++ show_Z size) ++
  " xmlns=" ++ quoted "http://www.w3.org/2000/svg" ++
  " shapeRendering=" ++ quoted "crispEdges" ++ ">".

Definition svg_pattern (size : Z) (pixelSize : Q) : string :=
  let ps := quoted (show_number pixelSize) in
  let ps2 := quoted (show_number (pixelSize * 2)) in
  "<defs><pattern id=" ++ quoted "bg" ++
  " patternUnits=" ++ quoted "userSpaceOnUse" ++
  " width=" ++ ps2 ++ " height=" ++ ps2 ++ ">" ++ nl ++
  "        <rect width=" ++ ps ++ " height=" ++ ps ++
  " fill=" ++ quoted "#f0f0f0" ++ "/>" ++ nl ++
  "        <rect x=" ++ ps ++ " y=" ++ ps ++ " width=" ++ ps ++
  " height=" ++ ps ++ " fill=" ++ quoted "#f0f0f0" ++ "/>" ++ nl ++
  "        <rect x=" ++ ps ++ " width=" ++ ps ++ " height=" ++ ps ++
  " fill=" ++ quoted "#e0e0e0" ++ "/>" ++ nl ++
  "        <rect y=" ++ ps ++ " width=" ++ ps ++ " height=" ++ ps ++
  " fill=" ++ quoted "#e0e0e0" ++ "/>" ++ nl ++
  "      </pattern></defs>" ++
  "<rect width=" ++ quoted (show_Z size) ++
  " height=" ++ quoted (show_Z size) ++
  " fill=" ++ quoted "url(#bg)" ++ "/>".

Definition svg_background (size : Z) (pixelSize : Q) (bg : string) : string :=
  if String.eqb bg "transparent" then ""
  else if String.eqb bg "pattern" then svg_pattern size pixelSize
  else "<rect width=" ++ quoted (show_Z size) ++
       " height=" ++ quoted (show_Z size) ++
       " fill=" ++ quoted bg ++ "/>".

Fixpoint concat_strings (l : list string) : string :=
  match l with
  | [] => ""
  | s :: l' => s ++ concat_strings l'
  end.

(** [toSVG(buffer, size, bg, paletteName)], for an integer [size] and a
    buffer of positive width.  [None] is the TypeError of
    [palette.colors[colorIndex]] when the palette name resolves to an
    inherited member and some cell is drawn. *)
Definition toSVG (buffer : PixelBuffer.t) (size : Z) (bg paletteName : string)
  : option string :=
  let palette := Palettes.getPalette paletteName in
  let pixelSize := (inject_Z size / inject_Z (Z.of_nat (width buffer)))%Q in
  let data := getData buffer in
  let svg := svg_open size ++ svg_background size pixelSize bg in
  let processed := replicate (height buffer) (replicate (width buffer) false) in
  match for_loop (height buffer) 0 (fun y =>
          for_loop (width buffer) 0 (fun x =>
            scan_cell buffer palette pixelSize data y x))
          (processed, []) with
  | None => None
  | Some (_, rects) =>
      Some (svg ++ concat_strings (map show_rect rects) ++ "</svg>")
  end.

(** ** lib/exporters.ts: the PNG encoder *)

(** [Number.parseInt(s, 16)]: leading white space, a sign, a [0x] prefix,
    then the longest run of hexadecimal digits; [None] is [NaN]. *)
Definition hex_digit (c : ascii) : option Z :=
  let n := charCode c in
  if ((48 <=? n) && (n <=? 57))%Z then Some (n - 48)%Z
  else if ((97 <=? n) && (n <=? 102))%Z then Some (n - 87)%Z
  else if ((65 <=? n) && (n <=? 70))%Z then Some (n - 55)%Z
  else None.

Fixpoint hex_run (s : string) (acc : option Z) : option Z :=
  match s with
  | EmptyString => acc
  | String c s' =>
      match hex_digit c with
      | Some d =>
          hex_run s' (Some (16 * match acc with Some a => a | None => 0 end
                            + d)%Z)
      | None => acc
      end
  end.

Definition strip_0x (s : string) : string :=
  match s with
  | String "0" (String "x" s') => s'
  | String "0" (String "X" s') => s'
  | _ => s
  end.

Definition parseInt16 (s : string) : option Z :=
  match trimStart s with
  | String "-" s' =>
      match hex_run (strip_0x s') None with
      | Some v => Some (- v)%Z
      | None => None
      end
  | String "+" s' => hex_run (strip_0x s') None
  | s' => hex_run (strip_0x s') None
  end.

(** [s.slice(i, j)] for [0 <= i <= j]. *)
Definition slice (s : string) (i j : nat) : string :=
  String.substring i (Nat.sub (Nat.min j (String.length s)) i) s.

(** [s.split("").map((c) => c + c).join("")]. *)
Fixpoint double_chars (s : string) : string :=
  match s with
  | EmptyString => EmptyString
  | String c s' => String c (String c (double_chars s'))
  end.

Definition hexToRgba (hex : string) : Z * Z * Z * Z :=
  if String.eqb hex "" then (0, 0, 0, 255)%Z
  else
    let cleanHex := trim hex in
    let cleanHex :=
      match cleanHex with
      | String "#" rest => rest
      | _ => cleanHex
      end in
    let cleanHex :=
      if Nat.eqb (String.length cleanHex) 3 then double_chars cleanHex
      else cleanHex in
    if negb (Nat.eqb (String.length cleanHex) 6) then (0, 0, 0, 255)%Z
    else
      match parseInt16 (slice cleanHex 0 2), parseInt16 (slice cleanHex 2 4),
            parseInt16 (slice cleanHex 4 6) with
      | Some r, Some g, Some b => (r, g, b, 255%Z)
      | _, _, _ => (0, 0, 0, 255)%Z
      end.

Local Close Scope string_scope.

(** Bytes are numbers in [0, 255]. *)
Definition Bytes := list Z.

(** [array[i] = v] on a [Uint8Array] or a [Buffer]: the value is reduced
    modulo 256 and a write outside the array is ignored. *)
Definition store (array : Bytes) (i v : Z) : Bytes :=
  if i <? 0 then array else <[Z.to_nat i := v mod 256]> array.

(** [array[i] || 0]. *)
Definition load_or_0 (array : Bytes) (i : Z) : Z :=
  match js_index array i with Some v => v | None => 0 end.

Definition png_signature : Bytes := [137; 80; 78; 71; 13; 10; 26; 10].

Definition png_iend : Bytes := [0; 0; 0; 0; 73; 69; 78; 68; 174; 66; 96; 130].

(** The literal returned by the [catch] of [generatePNG]. *)
Definition minimal_png : Bytes :=
  [ 137; 80; 78; 71; 13; 10; 26; 10;
    0; 0; 0; 13;
    73; 72; 68; 82;
    0; 0; 0; 1;
    0; 0; 0; 1;
    8; 6; 0; 0; 0;
    31; 21; 196; 137;
    0; 0; 0; 10;
    73; 68; 65; 84;
    120; 156; 98; 0; 0; 0; 2; 0; 1;
    226; 33; 188; 51;
    0; 0; 0; 0;
    73; 69; 78; 68;
    174; 66; 96; 130 ].

(** [crc32(data)]: the table is rebuilt on every call. *)
Fixpoint crc_entry (j : nat) (c : Z) : Z :=
  match j with
  | O => c
  | S j' =>
      crc_entry j'
        (if JS.and c 1 =? 0 then JS.shr_u c 1
         else JS.xor 3988292384 (JS.shr_u c 1))
  end.

Definition crcTable : list Z :=
  map (fun i => JS.to_uint32 (crc_entry 8 (Z.of_nat i))) (seq 0 256).

Definition crc_step (table : list Z) (crc byte : Z) : Z :=
  JS.xor (nth (Z.to_nat (JS.and (JS.xor crc byte) 255)) table 0)
         (JS.shr_u crc 8).

Definition crc32 (data : Bytes) : Z :=
  let table := crcTable in
  let crc := fold_left (crc_step table) data 4294967295 in
  JS.shr_u (JS.xor crc 4294967295) 0.

(** Big- and little-endian fields. *)
Definition u32be (v : Z) : Bytes :=
  [ Z.shiftr v 24 mod 256; Z.shiftr v 16 mod 256; Z.shiftr v 8 mod 256;
    v mod 256 ].
Definition u16le (v : Z) : Bytes := [ v mod 256; Z.shiftr v 8 mod 256 ].

(** [buf.writeUInt32BE(v, offset)] and its siblings raise a RangeError
    when the value or the offset is out of range. *)
Definition write_bytes (bs : Bytes) (offset : Z) (buf : Bytes) : option Bytes :=
  if (0 <=? offset) && (offset + Z.of_nat (length bs) <=? Z.of_nat (length buf))
  then Some (list_inserts (Z.to_nat offset) bs buf)
  else None.

Definition writeUInt32BE (v offset : Z) (buf : Bytes) : option Bytes :=
  if (0 <=? v) && (v <=? 4294967295) then write_bytes (u32be v) offset buf
  else None.

Definition writeUInt16LE (v offset : Z) (buf : Bytes) : option Bytes :=
  if (0 <=? v) && (v <=? 65535) then write_bytes (u16le v) offset buf
  else None.

Definition writeUInt8 (v offset : Z) (buf : Bytes) : option Bytes :=
  if (0 <=? v) && (v <=? 255) then write_bytes [v] offset buf else None.

(** [buf.write(s, offset)] for an ASCII string that fits. *)
Definition write_ascii (s : string) (offset : Z) (buf : Bytes) : Bytes :=
  list_inserts (Z.to_nat offset) (map charCode (list_ascii_of_string s)) buf.

(** [buf.subarray(i, j)] and [src.copy(dst, at, i, j)]. *)
Definition subarray (buf : Bytes) (i j : Z) : Bytes :=
  take (Z.to_nat (j - i)) (drop (Z.to_nat i) buf).
Definition copy_into (src dst : Bytes) (at_ i j : Z) : Bytes :=
  list_inserts (Z.to_nat at_) (subarray src i j) dst.

Section Host.

(** The largest length the host allocates for a [Buffer] or a typed array
    ([buffer.constants.MAX_LENGTH]); a larger request raises. *)
Variable kMaxLength : Z.

Definition alloc (n : Z) : option Bytes :=
  if (0 <=? n) && (n <=? kMaxLength) then Some (replicate (Z.to_nat n) 0)
  else None.

(** [Buffer.concat(list)]. *)
Definition concat_buffers (l : list Bytes) : option Bytes :=
  let all := concat l in
  if Z.of_nat (length all) <=? kMaxLength then Some all else None.

(** One stored block of [deflate], for the data from [i] on. *)
Definition deflate_block (data : Bytes) (i : Z) : option Bytes :=
  let len := Z.of_nat (length data) in
  let blockSize := Z.min 65535 (len - i) in
  let isLast := len <=? i + blockSize in
  match alloc (blockSize + 5) with
  | None => None
  | Some block =>
      let block := store block 0 (if isLast then 1 else 0) in
      match writeUInt16LE blockSize 1 block with
      | None => None
      | Some block =>
          match writeUInt16LE (Z.land (Z.lnot blockSize) 65535) 3 block with
          | None => None
          | Some block => Some (copy_into data block 5 i (i + blockSize))
          end
      end
  end.

(** [for (let i = 0; i < data.length; i += maxBlockSize)]; every turn
    consumes at least one byte, so [length data] turns are enough. *)
Fixpoint deflate_loop (fuel : nat) (data : Bytes) (i : Z)
  : option (list Bytes) :=
  match fuel with
  | O => Some []
  | S fuel' =>
      if i <? Z.of_nat (length data) then
        match deflate_block data i with
        | None => None
        | Some block =>
            match deflate_loop fuel' data (i + 65535) with
            | None => None
            | Some blocks => Some (block :: blocks)
            end
        end
      else Some []
  end.

Definition deflate (data : Bytes) : option Bytes :=
  match deflate_loop (length data) data 0 with
  | None => None
  | Some blocks => concat_buffers blocks
  end.

(** The scanlines: a filter byte, then the RGBA bytes of the row. *)
Definition scanline_pixel (data : Bytes) (width y x : Z) (st : Z * Bytes)
  : option (Z * Bytes) :=
  let '(pos, imageData) := st in
  let srcIndex := (y * width + x) * 4 in
  let imageData := store imageData pos (load_or_0 data srcIndex) in
  let imageData := store imageData (pos + 1) (load_or_0 data (srcIndex + 1)) in
  let imageData := store imageData (pos + 2) (load_or_0 data (srcIndex + 2)) in
  let imageData := store imageData (pos + 3) (load_or_0 data (srcIndex + 3)) in
  Some (pos + 4, imageData).

Definition scanlines (data : Bytes) (width height : Z) (imageData : Bytes)
  : option (Z * Bytes) :=
  for_loop (Z.to_nat height) 0 (fun y st =>
    let '(pos, imageData) := st in
    let imageData := store imageData pos 0 in
    for_loop (Z.to_nat width) 0 (scanline_pixel data width y)
      (pos + 1, imageData)) (0, imageData).

(** The [try] block of [generatePNG]; [None] when something in it
    raises. *)
Definition generatePNG_try (data : Bytes) (width height : Z) : option Bytes :=
  let signature := png_signature in
  ihdr ← alloc 25;
  ihdr ← writeUInt32BE 13 0 ihdr;
  let ihdr := write_ascii "IHDR" 4 ihdr in
  ihdr ← writeUInt32BE width 8 ihdr;
  ihdr ← writeUInt32BE height 12 ihdr;
  ihdr ← writeUInt8 8 16 ihdr;
  ihdr ← writeUInt8 6 17 ihdr;
  ihdr ← writeUInt8 0 18 ihdr;
  ihdr ← writeUInt8 0 19 ihdr;
  ihdr ← writeUInt8 0 20 ihdr;
  let ihdrCrc := crc32 (subarray ihdr 4 21) in
  ihdr ← writeUInt32BE ihdrCrc 21 ihdr;
  imageData ← alloc ((width * 4 + 1) * height);
  filled ← scanlines data width height imageData;
  let imageData := snd filled in
  compressed ← deflate imageData;
  let clen := Z.of_nat (length compressed) in
  idat ← alloc (clen + 12);
  idat ← writeUInt32BE clen 0 idat;
  let idat := write_ascii "IDAT" 4 idat in
  let idat := copy_into compressed idat 8 0 clen in
  let ilen := Z.of_nat (length idat) in
  let idatCrc := crc32 (subarray idat 4 (ilen - 4)) in
  idat ← writeUInt32BE idatCrc (ilen - 4) idat;
  let iend := png_iend in
  concat_buffers [signature; ihdr; idat; iend].

(** [generatePNG(data, width, height)]: the [try] block, or the literal
    of the [catch]. *)
Definition generatePNG (data : Bytes) (width height : Z) : Bytes :=
  match generatePNG_try data width height with
  | Some png => png
  | None => minimal_png
  end.

(** The RGBA quadruple written at [index]. *)
Definition store_rgba (bitmapData : Bytes) (index : Z) (c : Z * Z * Z * Z)
  : Bytes :=
  let '(r, g, b, a) := c in
  store (store (store (store bitmapData index r) (index + 1) g)
           (index + 2) b) (index + 3) a.

Definition fill_pattern (actualSize pixelSize : Z) (bitmapData : Bytes)
  : option Bytes :=
  for_loop (Z.to_nat actualSize) 0 (fun y =>
    for_loop (Z.to_nat actualSize) 0 (fun x bitmapData =>
      let index := (y * actualSize + x) * 4 in
      let checker := x / pixelSize + y / pixelSize in
      let isLight := checker mod 2 =? 0 in
      let gray := if isLight then 240 else 220 in
      Some (store_rgba bitmapData index (gray, gray, gray, 255))))
    bitmapData.

(** [for (let i = 0; i < bitmapData.length; i += 4)]. *)
Definition fill_color (bgColor : Z * Z * Z * Z) (bitmapData : Bytes)
  : option Bytes :=
  for_loop (Nat.div (length bitmapData + 3) 4) 0 (fun k bitmapData =>
    Some (store_rgba bitmapData (4 * k) bgColor)) bitmapData.

(** One cell of the avatar, scaled by [pixelSize]. *)
Definition blit_cell (pal : Palette) (data : Grid) (pixelSize actualSize : Z)
    (y x : Z) (bitmapData : Bytes) : option Bytes :=
  match read data y x with
  | None => None
  | Some colorIndex =>
      if (colorIndex =? -1) || (Z.of_nat (length (colors pal)) <=? colorIndex)
      then Some bitmapData
      else
        match js_index (colors pal) colorIndex with
        | None => Some bitmapData
        | Some hexColor =>
            if String.eqb hexColor "" then Some bitmapData
            else
              let color := hexToRgba hexColor in
              for_loop (Z.to_nat pixelSize) 0 (fun dy =>
                for_loop (Z.to_nat pixelSize) 0 (fun dx bitmapData =>
                  let finalX := x * pixelSize + dx in
                  let finalY := y * pixelSize + dy in
                  if (0 <=? finalX) && (finalX <? actualSize) &&
                     (0 <=? finalY) && (finalY <? actualSize)
                  then
                    let index := (finalY * actualSize + finalX) * 4 in
                    Some (store_rgba bitmapData index color)
                  else Some bitmapData)) bitmapData
        end
  end.

(** The [try] block of [toPNG] up to the bitmap; [None] when it raises
    (an inherited member in place of the palette, an allocation the host
    refuses). *)
Definition toPNG_bitmap (buffer : PixelBuffer.t) (size : Z)
    (bg paletteName : string) : option (Bytes * Z) :=
  palette ← Palettes.getPalette paletteName;
  let data := getData buffer in
  let pixelSize := Z.max 1 (size / Z.of_nat (width buffer)) in
  let actualSize := pixelSize * Z.of_nat (width buffer) in
  bitmapData ← alloc (actualSize * actualSize * 4);
  bitmapData ←
    (if String.eqb bg "transparent" then Some bitmapData
     else if String.eqb bg "pattern"
          then fill_pattern actualSize pixelSize bitmapData
          else fill_color (hexToRgba bg) bitmapData);
  bitmapData ←
    for_loop (height buffer) 0 (fun y =>
      for_loop (width buffer) 0 (fun x =>
        blit_cell palette data pixelSize actualSize y x)) bitmapData;
  Some (bitmapData, actualSize).

(** [toPNG(buffer, size, bg, paletteName)], for an integer [size] and a
    buffer of positive width. *)
Definition toPNG (buffer : PixelBuffer.t) (size : Z) (bg paletteName : string)
  : Bytes :=
  match toPNG_bitmap buffer size bg paletteName with
  | Some (bitmapData, actualSize) =>
      generatePNG bitmapData actualSize actualSize
  | None => generatePNG [0; 0; 0; 0] 1 1
  end.

End Host.

(** A byte sequence framed as a PNG stream: the 8-byte signature first,
    the 12-byte IEND chunk last. *)
Definition framed (png : Bytes) : Prop :=
  exists body, png = png_signature ++ body ++ png_iend.

End Exporters.


(** ** The objects of a running process

    [new AvatarEngine(seed, paletteName)] allocates an engine with a
    generator and a buffer of its own, and [generate] works on the engine
    it is called on and returns [this.buffer]: the buffer of that engine
    and no copy of it.  A process is the list of the engines allocated so
    far; an engine, and the buffer it returns, is named by its position
    in that list. *)

Module Process.

Definition t := list AvatarEngine.t.
Definition Ref := nat.

(** [new AvatarEngine(seed, paletteName)]. *)
Definition construct (seed : Z) (paletteName : string) (p : t)
  : option (Ref * t) :=
  match AvatarEngine.make seed paletteName with
  | Some e => Some (length p, p ++ [e])
  | None => None
  end.

(** [engine.generate(mood, gender)]: the engine is updated where it is,
    and the reference returned is that of its own buffer. *)
Definition generate (engine : Ref) (mood : Mood) (gender : Gender) (p : t)
  : option (Ref * t) :=
  match p !! engine with
  | Some e =>
      match AvatarEngine.generate mood gender e with
      | Some e' => Some (engine, <[engine := e']> p)
      | None => None
      end
  | None => None
  end.

(** The buffer behind a reference. *)
Definition buffer (r : Ref) (p : t) : option PixelBuffer.t :=
  match p !! r with
  | Some e => Some (AvatarEngine.buffer e)
  | None => None
  end.

(** The two statements of a request:
    [const engine = new AvatarEngine(seed, palette);
     buffer = engine.generate(mood, gender)]. *)
Definition run (seed : Z) (paletteName : string) (mood : Mood)
    (gender : Gender) (p : t) : option (Ref * t) :=
  match construct seed paletteName p with
  | Some (engine, p1) => generate engine mood gender p1
  | None => None
  end.

(** The encoders read the buffer they are given ([getData] copies its
    rows) and write to no object of the process. *)
Definition toSVG (r : Ref) (size : Z) (bg paletteName : string) (p : t)
  : option string :=
  match buffer r p with
  | Some b => Exporters.toSVG b size bg paletteName
  | None => None
  end.

Definition toPNG (kMaxLength : Z) (r : Ref) (size : Z)
    (bg paletteName : string) (p : t) : option Exporters.Bytes :=
  match buffer r p with
  | Some b => Some (Exporters.toPNG kMaxLength b size bg paletteName)
  | None => None
  end.

End Process.
(** What a drawing operation paints: on a well-formed buffer it returns a
    well-formed buffer of the same dimensions in which the cells of the
    region [R] that lie within the bounds hold [c] and every other cell
    holds what it held. *)
Definition paints (op : PixelBuffer.t -> option PixelBuffer.t)
    (c : PixelBuffer.ColorIndex) (R : Z -> Z -> bool) : Prop :=
  forall b, PixelBuffer.wf b ->
  exists b',
    op b = Some b' /\ PixelBuffer.wf b' /\
    PixelBuffer.width b' = PixelBuffer.width b /\
    PixelBuffer.height b' = PixelBuffer.height b /\
    forall px py,
      PixelBuffer.getPixel px py b' =
      if PixelBuffer.in_bounds b px py && R px py then Some c
      else PixelBuffer.getPixel px py b.


(** ** lib/validation.ts *)

Module Validation.

Local Open Scope string_scope.

(** The character class [[A-Fa-f0-9]]. *)
Definition is_hex_char (c : ascii) : bool :=
  let n := charCode c in
  ((65 <=? n) && (n <=? 70))%Z || ((97 <=? n) && (n <=? 102))%Z ||
  ((48 <=? n) && (n <=? 57))%Z.

Fixpoint all_hex (s : string) : bool :=
  match s with
  | EmptyString => true
  | String c s' => is_hex_char c && all_hex s'
  end.

(** [/^#([A-Fa-f0-9]{6}|[A-Fa-f0-9]{3})$/.test(bg)]: without the [m] flag
    the anchors are the two ends of the string. *)
Definition hexRegex_test (bg : string) : bool :=
  match bg with
  | String "#" digits =>
      (Nat.eqb (String.length digits) 6 || Nat.eqb (String.length digits) 3)
      && all_hex digits
  | _ => false
  end.

Definition validateBackground (bg : string) : string :=
  if String.eqb bg "transparent" || String.eqb bg "pattern" then bg
  else if hexRegex_test bg then bg
  else "transparent".

(** A number of the program: a finite value, an infinity or NaN. *)
Inductive Number := Finite (q : Q) | PosInfinity | NegInfinity | NaN.

(** [Math.floor]: the integer below a finite number; an infinity and NaN
    are returned as they are. *)
Definition floor (q : Q) : Z := (Qnum q / Z.pos (Qden q))%Z.

Definition Math_floor (x : Number) : Number :=
  match x with
  | Finite q => Finite (inject_Z (floor q))
  | _ => x
  end.

(** [Math.min] and [Math.max] of two numbers: NaN as soon as one of them
    is NaN. *)
Definition Math_min (a b : Number) : Number :=
  match a, b with
  | NaN, _ | _, NaN => NaN
  | NegInfinity, _ | _, NegInfinity => NegInfinity
  | PosInfinity, x | x, PosInfinity => x
  | Finite p, Finite q => if Qle_bool p q then a else b
  end.

Definition Math_max (a b : Number) : Number :=
  match a, b with
  | NaN, _ | _, NaN => NaN
  | PosInfinity, _ | _, PosInfinity => PosInfinity
  | NegInfinity, x | x, NegInfinity => x
  | Finite p, Finite q => if Qle_bool p q then b else a
  end.

(** [clampSize(size)]: [Math.max(64, Math.min(1024, Math.floor(size)))]. *)
Definition clampSize (size : Number) : Number :=
  Math_max (Finite (inject_Z 64))
    (Math_min (Finite (inject_Z 1024)) (Math_floor size)).

(** [normalizeEmail(email)]: [email.trim().toLowerCase()]. *)
Definition normalizeEmail (email : string) : string :=
  toLowerCase (trim email).

End Validation.

(** The hash of [emailToSeed] without the intermediate truncations:
    Horner's rule in base 31 over the code units, from [h]. *)
Fixpoint horner31 (s : string) (h : Z) : Z :=
  match s with
  | EmptyString => h
  | String c rest => horner31 rest (31 * h + charCode c)
  end.


(** ** The rectangles of the SVG encoder, counted in cells *)

(** A run of cells of one colour index: its corner and its size. *)
Record Block := mkBlock {
  block_x : Z;
  block_y : Z;
  block_width : Z;
  block_height : Z;
  block_color : PixelBuffer.ColorIndex
}.

Definition in_block (k : Block) (px py : Z) : bool :=
  (block_x k <=? px) && (px <? block_x k + block_width k) &&
  (block_y k <=? py) && (py <? block_y k + block_height k).

(** The object that [toSVG] pushes on [rects] for a block. *)
Definition block_rect (pal : Palette) (pixelSize : Q) (k : Block)
  : Exporters.Rect :=
  {| Exporters.rect_x := inject_Z (block_x k) * pixelSize;
     Exporters.rect_y := inject_Z (block_y k) * pixelSize;
     Exporters.rect_width := inject_Z (block_width k) * pixelSize;
     Exporters.rect_height := inject_Z (block_height k) * pixelSize;
     Exporters.rect_color := js_index (colors pal) (block_color k) |}.

(** No block holds the cell; exactly one block holds it. *)
Definition uncovered (blocks : list Block) (px py : Z) : Prop :=
  forall j k, blocks !! j = Some k -> in_block k px py = false.

Definition covered_once (blocks : list Block) (px py : Z) : Prop :=
  exists i k,
    blocks !! i = Some k /\ in_block k px py = true /\
    forall j k', blocks !! j = Some k' -> in_block k' px py = true -> j = i.

(** Every block is non-empty, lies within the buffer and holds cells of
    its own colour index only, which is not the transparent one. *)
Definition uniform_blocks (b : PixelBuffer.t) (blocks : list Block) : Prop :=
  forall k, In k blocks ->
    1 <= block_width k /\ 1 <= block_height k /\
    block_color k <> PixelBuffer.transparent /\
    forall px py, in_block k px py = true ->
      PixelBuffer.in_bounds b px py = true /\
      PixelBuffer.getPixel px py b = Some (block_color k).

(** The blocks tile the drawn cells: each cell that is not transparent
    lies in exactly one block, each transparent cell in none. *)
Definition tiles (b : PixelBuffer.t) (blocks : list Block) : Prop :=
  uniform_blocks b blocks /\
  forall px py c,
    PixelBuffer.in_bounds b px py = true ->
    PixelBuffer.getPixel px py b = Some c ->
    if (c =? PixelBuffer.transparent)%Z then uncovered blocks px py
    else covered_once blocks px py.

(** The state of the scan of [toSVG] when the cells of [done] have been
    visited: [processed] marks the cells the blocks hold, and every
    visited cell is transparent or marked. *)
Definition scan_state (b : PixelBuffer.t) (pal : Palette) (pixelSize : Q)
    (done : Z -> Z -> Prop) (st : list (list bool) * list Exporters.Rect)
  : Prop :=
  PixelBuffer.grid_wf (PixelBuffer.width b) (PixelBuffer.height b) (fst st) /\
  exists blocks,
    snd st = map (block_rect pal pixelSize) blocks /\
    uniform_blocks b blocks /\
    (forall px py,
       0 <= py < Z.of_nat (PixelBuffer.height b) ->
       0 <= px < Z.of_nat (PixelBuffer.width b) ->
       (PixelBuffer.read (fst st) py px = Some true /\
        covered_once blocks px py) \/
       (PixelBuffer.read (fst st) py px = Some false /\
        uncovered blocks px py)) /\
    (forall px py,
       0 <= py < Z.of_nat (PixelBuffer.height b) ->
       0 <= px < Z.of_nat (PixelBuffer.width b) ->
       done px py ->
       PixelBuffer.read (PixelBuffer.buffer b) py px =
         Some PixelBuffer.transparent \/
       PixelBuffer.read (fst st) py px = Some true).


(** ** Streams of stored blocks (RFC 1951, 3.2.4) *)

(** A stored block: the header byte with BFINAL in bit 0 and BTYPE 00,
    LEN and its complement NLEN in little-endian order, then the bytes. *)
Definition stored_block (isLast : bool) (chunk : Exporters.Bytes)
  : Exporters.Bytes :=
  let len := Z.of_nat (length chunk) in
  [ if isLast then 1 else 0; len mod 256; len / 256;
    (65535 - len) mod 256; (65535 - len) / 256 ] ++ chunk.

(** A reader of streams of stored blocks: it checks BTYPE and NLEN, takes
    LEN bytes, and goes on until the block marked final; [None] when the
    stream is not one.  [fuel] bounds the number of blocks. *)
Fixpoint inflate_stored (fuel : nat) (stream : Exporters.Bytes)
  : option Exporters.Bytes :=
  match fuel with
  | O => None
  | S fuel' =>
      match stream with
      | header :: l0 :: l1 :: n0 :: n1 :: rest =>
          let len := l0 + 256 * l1 in
          if (Z.land header 6 =? 0) && (l0 + n0 =? 255) &&
             (l1 + n1 =? 255) && (len <=? Z.of_nat (length rest))
          then
            let chunk := take (Z.to_nat len) rest in
            if Z.land header 1 =? 1 then Some chunk
            else
              match inflate_stored fuel' (drop (Z.to_nat len) rest) with
              | Some data => Some (chunk ++ data)
              | None => None
              end
          else None
      | _ => None
      end
  end.

(** A chunk of a PNG stream: the length of the body, the four letters of
    the type, the body, and the CRC of type and body. *)
Definition png_chunk (type : string) (body : Exporters.Bytes)
  : Exporters.Bytes :=
  let tagged := map charCode (list_ascii_of_string type) ++ body in
  Exporters.u32be (Z.of_nat (length body)) ++ tagged ++
  Exporters.u32be (Exporters.crc32 tagged).


(** ** The bitmap of the PNG encoder, pixel by pixel *)

(** The RGBA quadruple of the pixel [(X, Y)] of a square bitmap. *)
Definition bitmap_pixel (bitmapData : Exporters.Bytes) (side X Y : Z)
  : Z * Z * Z * Z :=
  let index := (Y * side + X) * 4 in
  (Exporters.load_or_0 bitmapData index,
   Exporters.load_or_0 bitmapData (index + 1),
   Exporters.load_or_0 bitmapData (index + 2),
   Exporters.load_or_0 bitmapData (index + 3)).

(** What a [Uint8Array] keeps of a quadruple of numbers. *)
Definition as_bytes (c : Z * Z * Z * Z) : Z * Z * Z * Z :=
  let '(r, g, b, a) := c in (r mod 256, g mod 256, b mod 256, a mod 256).

(** An operation on a bitmap of side [side] that gives the pixels where
    [f] is defined the colour [f] gives, and leaves the others. *)
Definition repaints (side : Z)
    (op : Exporters.Bytes -> option Exporters.Bytes)
    (f : Z -> Z -> option (Z * Z * Z * Z)) : Prop :=
  forall bm,
    Z.of_nat (length bm) = side * side * 4 ->
    exists bm',
      op bm = Some bm' /\ length bm' = length bm /\
      forall X Y, 0 <= X < side -> 0 <= Y < side ->
        bitmap_pixel bm' side X Y =
        match f X Y with
        | Some c => as_bytes c
        | None => bitmap_pixel bm side X Y
        end.

(** The colour [toPNG] draws a cell with: none for the transparent index,
    for an index beyond the flat list, and for an entry that is missing
    or empty. *)
Definition cell_color (pal : Palette) (colorIndex : PixelBuffer.ColorIndex)
  : option (Z * Z * Z * Z) :=
  if (colorIndex =? -1) || (Z.of_nat (length (colors pal)) <=? colorIndex)
  then None
  else
    match js_index (colors pal) colorIndex with
    | None => None
    | Some hexColor =>
        if String.eqb hexColor "" then None
        else Some (Exporters.hexToRgba hexColor)
    end.

(** The colour of the cell [(x, y)] of a buffer, if it is drawn. *)
Definition drawn_color (pal : Palette) (b : PixelBuffer.t) (x y : Z)
  : option (Z * Z * Z * Z) :=
  match PixelBuffer.read (PixelBuffer.getData b) y x with
  | Some colorIndex => cell_color pal colorIndex
  | None => None
  end.

(** The background [toPNG] fills the bitmap with, pixel by pixel. *)
Definition background_pixel (bg : string) (pixelSize X Y : Z)
  : Z * Z * Z * Z :=
  if String.eqb bg "transparent" then (0, 0, 0, 0)
  else if String.eqb bg "pattern" then
    let gray := if (X / pixelSize + Y / pixelSize) mod 2 =? 0
                then 240 else 220 in
    (gray, gray, gray, 255)
  else as_bytes (Exporters.hexToRgba bg).

(** The scanlines of an image [width] pixels wide: the filter byte of
    the row [Y], and the RGBA quadruple of its pixel [X]. *)
Definition filter_byte (imageData : Exporters.Bytes) (width Y : Z) : Z :=
  Exporters.load_or_0 imageData (Y * (width * 4 + 1)).

Definition image_pixel (imageData : Exporters.Bytes) (width X Y : Z)
  : Z * Z * Z * Z :=
  let index := Y * (width * 4 + 1) + 1 + X * 4 in
  (Exporters.load_or_0 imageData index,
   Exporters.load_or_0 imageData (index + 1),
   Exporters.load_or_0 imageData (index + 2),
   Exporters.load_or_0 imageData (index + 3)).

(** What the scanlines hold at offset [o] of the row [Y]: the filter
    byte, then the bytes of the row. *)
Definition scanline_byte (data : Exporters.Bytes) (width Y o : Z) : Z :=
  if o =? 0 then 0
  else Exporters.load_or_0 data (Y * width * 4 + (o - 1)) mod 256.

(** The image buffer when the scanlines are written up to [pos]. *)
Definition scan_filled (data : Exporters.Bytes) (width height pos : Z)
    (img : Exporters.Bytes) : Prop :=
  Z.of_nat (length img) = (width * 4 + 1) * height /\
  (forall j, pos <= j -> Exporters.load_or_0 img j = 0) /\
  (forall Y o, 0 <= Y -> 0 <= o < width * 4 + 1 ->
     Y * (width * 4 + 1) + o < pos ->
     Exporters.load_or_0 img (Y * (width * 4 + 1) + o) =
     scanline_byte data width Y o).


(** ** The cells of a generated avatar *)

(** Every cell holds the transparent index or an index below [n]. *)
Definition cells_below (n : Z) (b : PixelBuffer.t) : Prop :=
  forall px py c, PixelBuffer.getPixel px py b = Some c -> -1 <= c < n.

(** An engine on the palette [pal] whose 16 by 16 buffer holds indices of
    the flat list of [pal] only. *)
Definition engine_inv (pal : Palette) (e : AvatarEngine.t) : Prop :=
  AvatarEngine.palette e = pal /\
  PixelBuffer.wf (AvatarEngine.buffer e) /\
  PixelBuffer.width (AvatarEngine.buffer e) = 16%nat /\
  PixelBuffer.height (AvatarEngine.buffer e) = 16%nat /\
  cells_below (Z.of_nat (length (colors pal))) (AvatarEngine.buffer e).

Definition keeps_inv (pal : Palette) (m : AvatarEngine.method) : Prop :=
  forall e, engine_inv pal e -> exists e', m e = Some e' /\ engine_inv pal e'.

Definition keeps_cells (n : Z) (op : PixelBuffer.t -> option PixelBuffer.t)
  : Prop :=
  forall b,
    PixelBuffer.wf b -> cells_below n b ->
    exists b',
      op b = Some b' /\ PixelBuffer.wf b' /\
      PixelBuffer.width b' = PixelBuffer.width b /\
      PixelBuffer.height b' = PixelBuffer.height b /\
      cells_below n b'.

(** A method that returns, keeps the buffer well formed and its size,
    and leaves every cell outside the region [R] as it was. *)
Definition frames (R : Z -> Z -> bool) (m : AvatarEngine.method) : Prop :=
  forall e,
    AvatarEngine.wf e ->
    exists e',
      m e = Some e' /\ AvatarEngine.wf e' /\
      PixelBuffer.width (AvatarEngine.buffer e') =
        PixelBuffer.width (AvatarEngine.buffer e) /\
      PixelBuffer.height (AvatarEngine.buffer e') =
        PixelBuffer.height (AvatarEngine.buffer e) /\
      forall px py, R px py = false ->
        PixelBuffer.getPixel px py (AvatarEngine.buffer e') =
        PixelBuffer.getPixel px py (AvatarEngine.buffer e).

(** The cells [addAsymmetry] can write: the right earring, the area of
    the beauty mark, the area of the stray lock. *)
Definition asymmetry_area (px py : Z) : bool :=
  ((px =? 12) && (py =? 7)) ||
  ((4 <=? px) && (px <=? 11) && (7 <=? py) && (py <=? 10)) ||
  ((2 <=? px) && (px <=? 3) && (3 <=? py) && (py <=? 5)).

(** ** Facts about the 32-bit conversions *)

Section Conversions.

Lemma to_uint32_range z : 0 <= JS.to_uint32 z < JS.two32.
Proof. unfold JS.to_uint32, JS.two32. apply Z.mod_pos_bound. lia. Qed.

Lemma to_int32_range z : - JS.two31 <= JS.to_int32 z < JS.two31.
Proof.
  unfold JS.to_int32, JS.two31, JS.two32.
  pose proof (Z.mod_pos_bound (z + 2147483648) 4294967296). lia.
Qed.

Lemma to_uint32_bits z i :
  0 <= i < 32 -> Z.testbit (JS.to_uint32 z) i = Z.testbit z i.
Proof.
  intros Hi. unfold JS.to_uint32, JS.two32.
  change 4294967296 with (2 ^ 32). apply Z.mod_pow2_bits_low. lia.
Qed.

Lemma to_uint32_bits_high z i :
  32 <= i -> Z.testbit (JS.to_uint32 z) i = false.
Proof.
  intros Hi. unfold JS.to_uint32, JS.two32.
  change 4294967296 with (2 ^ 32). apply Z.mod_pow2_bits_high. lia.
Qed.

Lemma to_int32_uint32 z : JS.to_uint32 (JS.to_int32 z) = JS.to_uint32 z.
Proof.
  unfold JS.to_uint32, JS.to_int32, JS.two31, JS.two32.
  rewrite Zminus_mod_idemp_l.
  f_equal. lia.
Qed.

Lemma to_int32_bits z i :
  0 <= i < 32 -> Z.testbit (JS.to_int32 z) i = Z.testbit z i.
Proof.
  intros Hi.
  rewrite <- (to_uint32_bits (JS.to_int32 z)), to_int32_uint32 by lia.
  now apply to_uint32_bits.
Qed.

(** A number is a multiple of 2^32 exactly when its low 32 bits vanish. *)
Lemma to_uint32_zero_bits z :
  JS.to_uint32 z = 0 <->
  (forall i, 0 <= i < 32 -> Z.testbit z i = false).
Proof.
  split.
  - intros H i Hi. rewrite <- to_uint32_bits, H by lia. apply Z.bits_0.
  - intros H. apply Z.bits_inj'. intros i Hi. rewrite Z.bits_0.
    destruct (Z_lt_ge_dec i 32).
    + rewrite to_uint32_bits by lia. apply H. lia.
    + apply to_uint32_bits_high. lia.
Qed.

Lemma shl_bits a n i :
  0 <= n -> 0 <= i < 32 ->
  Z.testbit (JS.shl a n) i =
  if i <? n then false else Z.testbit a (i - n).
Proof.
  intros Hn Hi. unfold JS.shl.
  rewrite to_int32_bits, Z.shiftl_spec by lia.
  destruct (i <? n) eqn:E.
  - apply Z.testbit_neg_r. lia.
  - apply to_int32_bits. lia.
Qed.

Lemma shr_u_bits a n i :
  0 <= n -> 0 <= i < 32 ->
  Z.testbit (JS.shr_u a n) i =
  if i + n <? 32 then Z.testbit a (i + n) else false.
Proof.
  intros Hn Hi. unfold JS.shr_u.
  rewrite Z.shiftr_spec by lia.
  destruct (i + n <? 32) eqn:E.
  - apply to_uint32_bits. lia.
  - apply to_uint32_bits_high. lia.
Qed.

Lemma xor_bits a b i :
  0 <= i < 32 ->
  Z.testbit (JS.xor a b) i = xorb (Z.testbit a i) (Z.testbit b i).
Proof.
  intros Hi. unfold JS.xor.
  now rewrite Z.lxor_spec, !to_int32_bits.
Qed.

End Conversions.

(** ** The generator: range of the draws and the zero state *)

Section Generator.

Import XorShift32.

Lemma next_value_state s : fst (next s) = JS.to_uint32 (snd (next s)).
Proof. unfold next, JS.shr_u. cbn [fst snd]. apply Z.shiftr_0_r. Qed.

Lemma next_range s : 0 <= fst (next s) <= 4294967295.
Proof.
  rewrite next_value_state.
  pose proof (to_uint32_range (snd (next s))) as H.
  unfold JS.two32 in H. lia.
Qed.

(** Each xorshift step is injective at zero on the low 32 bits: if the
    result of [x ^ (x << k)] has no low bit set, neither has [x]. *)
Lemma xor_shl_zero x k :
  0 < k ->
  JS.to_uint32 (JS.xor x (JS.shl x k)) = 0 -> JS.to_uint32 x = 0.
Proof.
  intros Hk H. rewrite to_uint32_zero_bits in H.
  apply to_uint32_zero_bits.
  intros i. pattern i. apply (well_founded_induction (Z.lt_wf 0)).
  clear i. intros i IH Hi.
  specialize (H i Hi).
  rewrite xor_bits, shl_bits in H by lia.
  destruct (i <? k) eqn:E.
  - now rewrite xorb_false_r in H.
  - apply Z.ltb_ge in E.
    rewrite (IH (i - k)) in H by lia.
    now rewrite xorb_false_r in H.
Qed.

Lemma xor_shr_u_zero x k :
  0 < k ->
  JS.to_uint32 (JS.xor x (JS.shr_u x k)) = 0 -> JS.to_uint32 x = 0.
Proof.
  intros Hk H. rewrite to_uint32_zero_bits in H.
  apply to_uint32_zero_bits.
  assert (G : forall d, 0 <= d -> forall i,
            31 - d <= i < 32 -> 0 <= i -> Z.testbit x i = false).
  { intros d Hd. pattern d. apply natlike_ind; [| |exact Hd].
    - intros i Hi Hi0. specialize (H i ltac:(lia)).
      rewrite xor_bits, shr_u_bits in H by lia.
      replace (i + k <? 32) with false in H
        by (symmetry; apply Z.ltb_ge; lia).
      now rewrite xorb_false_r in H.
    - intros e He IHe i Hi Hi0. specialize (H i ltac:(lia)).
      rewrite xor_bits, shr_u_bits in H by lia.
      destruct (i + k <? 32) eqn:E.
      + apply Z.ltb_lt in E.
        rewrite (IHe (i + k)) in H by lia.
        now rewrite xorb_false_r in H.
      + now rewrite xorb_false_r in H. }
  intros i Hi. apply (G 31); lia.
Qed.

(** [next] maps a state with a nonzero 32-bit value to such a state. *)
Lemma next_nonzero s :
  JS.to_uint32 s <> 0 -> JS.to_uint32 (snd (next s)) <> 0.
Proof.
  intros Hs H. apply Hs. unfold next in H. cbn [snd] in H.
  apply xor_shl_zero in H; [|lia].
  apply xor_shr_u_zero in H; [|lia].
  apply xor_shl_zero in H; [|lia]. exact H.
Qed.

Lemma after_nonzero k : forall s,
  JS.to_uint32 s <> 0 -> JS.to_uint32 (after k s) <> 0.
Proof.
  induction k as [|k IH]; intros s Hs; cbn [after]; [exact Hs|].
  apply IH, next_nonzero, Hs.
Qed.

Lemma to_uint32_nonzero s : JS.to_uint32 s <> 0 -> s <> 0.
Proof. intros H ->. now apply H. Qed.

(** On a 32-bit unsigned seed the constructor's guard does its job. *)
Lemma make_nonzero_uint32 seed :
  0 <= seed < JS.two32 -> JS.to_uint32 (make seed) <> 0.
Proof.
  intros Hs. unfold make. destruct (seed =? 0) eqn:E.
  - discriminate.
  - apply Z.eqb_neq in E. unfold JS.shr_u. rewrite Z.shiftr_0_r.
    unfold JS.to_uint32. rewrite Z.mod_mod by (unfold JS.two32; lia).
    rewrite Z.mod_small by exact Hs. exact E.
Qed.

Lemma seeded_state_nonzero seed k :
  0 <= seed < JS.two32 -> after k (make seed) <> 0.
Proof.
  intros Hs. apply to_uint32_nonzero, after_nonzero, make_nonzero_uint32, Hs.
Qed.

(** The zero state is a fixed point: every later draw is 0. *)
Lemma next_zero : next 0 = (0, 0).
Proof. reflexivity. Qed.

Lemma after_zero k : after k 0 = 0.
Proof. induction k as [|k IH]; [reflexivity|]. cbn [after]. exact IH. Qed.

(** [chance] compares the draw, as a fraction of 2^32, with [p]. *)
Lemma chance_spec p s :
  fst (chance p s) = true <-> (fst (next s) # 4294967296 < p)%Q.
Proof.
  unfold chance. destruct (next s) as [n s'] eqn:E. cbn [fst].
  rewrite negb_true_iff, <- not_true_iff_false, Qle_bool_iff.
  split; [apply Qnot_le_lt | apply Qlt_not_le].
Qed.

Lemma chance_state p s : snd (chance p s) = snd (next s).
Proof. unfold chance. now destruct (next s). Qed.

(** C4. For every generator state, [chance(0)] returns false and
    [chance(1)] returns true; [chance(p)] returns true exactly when
    [next() / 2^32 < p], and [next()] lies in [0, 2^32 - 1]. *)
Theorem chance_boundaries (s : XorShift32.t) :
  fst (chance 0 s) = false /\
  fst (chance 1 s) = true /\
  (forall p : Q,
     fst (chance p s) = true <-> (fst (next s) # 4294967296 < p)%Q) /\
  0 <= fst (next s) <= 4294967295.
Proof.
  pose proof (next_range s) as Hr.
  split; [|split; [|split]].
  - apply not_true_iff_false. rewrite chance_spec.
    unfold Qlt. cbn [Qnum Qden]. lia.
  - apply chance_spec. unfold Qlt. cbn [Qnum Qden]. lia.
  - intros p. apply chance_spec.
  - exact Hr.
Qed.

(** C5. The state of a generator made from a 32-bit unsigned seed is
    never zero: the seed 0 is replaced by 1 and any other seed is kept as
    it is, [next] maps a state whose 32-bit value is not zero to such a
    state, and so the state is not zero after the construction and after
    any number of draws. *)
Theorem state_never_zero (seed : Z) :
  0 <= seed < 4294967296 ->
  make 0 = 1 /\
  (seed <> 0 -> make seed = seed) /\
  (forall s, JS.to_uint32 s <> 0 -> JS.to_uint32 (snd (next s)) <> 0) /\
  (forall k,
     after k (make seed) <> 0 /\ JS.to_uint32 (after k (make seed)) <> 0).
Proof.
  intros Hs. split; [reflexivity|]. split; [|split].
  - intros Hne. unfold make.
    destruct (Z.eqb_spec seed 0) as [E|_]; [contradiction|].
    unfold JS.shr_u, JS.to_uint32, JS.two32. rewrite Z.shiftr_0_r.
    apply Z.mod_small. exact Hs.
  - exact next_nonzero.
  - intros k.
    assert (H : JS.to_uint32 (after k (make seed)) <> 0)
      by (apply after_nonzero, make_nonzero_uint32; exact Hs).
    split; [apply to_uint32_nonzero|]; exact H.
Qed.

Lemma state_never_zero_witness :
  (make 0 = 1 /\
   (0 <> 0 -> make 0 = 0) /\
   (forall s, JS.to_uint32 s <> 0 -> JS.to_uint32 (snd (next s)) <> 0) /\
   (forall k,
      after k (make 0) <> 0 /\ JS.to_uint32 (after k (make 0)) <> 0)) /\
  (make 0 = 1 /\
   (4294967295 <> 0 -> make 4294967295 = 4294967295) /\
   (forall s, JS.to_uint32 s <> 0 -> JS.to_uint32 (snd (next s)) <> 0) /\
   (forall k,
      after k (make 4294967295) <> 0 /\
      JS.to_uint32 (after k (make 4294967295)) <> 0)).
Proof.
  split; [apply (state_never_zero 0) | apply (state_never_zero 4294967295)];
    lia.
Defined.

(** The range of the seed matters: the guard of the constructor tests
    [seed === 0] before the conversion [seed >>> 0], so a multiple of
    2^32 that is not 0 would pass it and be stored as the state 0.  No
    caller gives such a seed: [emailToSeed] is at most 2^31. *)
Remark make_two32_zero_state :
  make 4294967296 = 0 /\
  (forall k, after k (make 4294967296) = 0) /\
  next (make 4294967296) = (0, 0).
Proof.
  repeat split. intros k. change (make 4294967296) with 0. apply after_zero.
Qed.

End Generator.

(** ** emailToSeed: normalisation of the address *)

Section Normalisation.

Local Open Scope string_scope.

Lemma charCode_range c : 0 <= charCode c < 256.
Proof.
  unfold charCode. pose proof (N_ascii_bounded c). lia.
Qed.

Lemma charCode_inj c c' : charCode c = charCode c' -> c = c'.
Proof.
  unfold charCode. intros H. apply N2Z.inj in H.
  rewrite <- (ascii_N_embedding c), <- (ascii_N_embedding c'). now rewrite H.
Qed.

Lemma charCode_ascii_of_N n : (n < 256)%N -> charCode (ascii_of_N n) = Z.of_N n.
Proof. intros H. unfold charCode. now rewrite N_ascii_embedding. Qed.

Ltac bool_arith :=
  repeat match goal with
  | H : _ && _ = true |- _ => apply andb_true_iff in H; destruct H
  | H : _ || _ = true |- _ => apply orb_true_iff in H; destruct H
  | H : negb _ = true |- _ => apply negb_true_iff in H
  | H : (_ <=? _) = true |- _ => apply Z.leb_le in H
  | H : (_ =? _) = true |- _ => apply Z.eqb_eq in H
  | H : (_ =? _) = false |- _ => apply Z.eqb_neq in H
  | H : _ && _ = false |- _ => apply andb_false_iff in H; destruct H
  | H : _ || _ = false |- _ => apply orb_false_iff in H; destruct H
  | H : negb _ = false |- _ => apply negb_false_iff in H
  | H : (_ <=? _) = false |- _ => apply Z.leb_gt in H
  end.

Lemma toLowerChar_code c :
  charCode (toLowerChar c) =
  if is_upper c then charCode c + 32 else charCode c.
Proof.
  unfold toLowerChar. destruct (is_upper c) eqn:E; [|reflexivity].
  pose proof (charCode_range c) as Hr.
  rewrite charCode_ascii_of_N.
  - unfold charCode. lia.
  - unfold is_upper in E. unfold charCode in *. bool_arith; lia.
Qed.
















(** The hash stays within 32 bits, so the seed lies in [0, 2^31]. *)
Lemma hash_step_range h c : - JS.two31 <= hash_step h c < JS.two31.
Proof.
  unfold hash_step, JS.and. rewrite Z.land_diag. apply to_int32_range.
Qed.

Lemma hash_loop_range s h :
  - JS.two31 <= h < JS.two31 -> - JS.two31 <= hash_loop s h < JS.two31.
Proof.
  revert h. induction s as [|c s IH]; intros h Hh; [exact Hh|].
  cbn [hash_loop]. apply IH, hash_step_range.
Qed.

Lemma emailToSeed_range email salt :
  0 <= emailToSeed email salt <= JS.two31.
Proof.
  unfold emailToSeed.
  pose proof (hash_loop_range
                (toLowerCase (trim email) ++ salt) 0) as H.
  unfold JS.two31 in *. lia.
Qed.

End Normalisation.

(** ** The palette registry *)

Section Registry.

Import Palettes.
Local Open Scope string_scope.

Lemma gameboy_role_colors : role_colors_listed gameboy = true.
Proof. reflexivity. Qed.

Lemma pastel_role_colors : role_colors_listed pastel = true.
Proof. reflexivity. Qed.

(** No skin tone of the NES palette can be looked up, whatever the index. *)
Lemma nes_skin_index i : role_index (colors nes) (skin nes) i = -1.
Proof.
  unfold role_index, js_index. destruct (i <? 0)%Z; [reflexivity|].
  destruct (Z.to_nat i) as [|[|[|[|[|[|n]]]]]]; reflexivity.
Qed.

(** C2, at the palette where the registry departs from it.  The palette
    registered as [nes] lists skin, hair and eye colors that are not in
    its flat list: the first skin tone is one, the lookup of its position
    gives [-1], and so does the lookup of every skin tone; the two other
    palettes keep their role colors in the flat list. *)
Theorem nes_role_colors_unlisted :
  own_property "nes" palettes = Some nes /\
  role_colors_listed nes = false /\
  In "#FFDBAC" (skin nes) /\ ~ In "#FFDBAC" (colors nes) /\
  indexOf (colors nes) "#FFDBAC" = -1 /\
  (forall i, role_index (colors nes) (skin nes) i = -1) /\
  role_colors_listed gameboy = true /\
  role_colors_listed pastel = true.
Proof.
  split; [reflexivity|]. split; [reflexivity|].
  split; [left; reflexivity|].
  split.
  { cbn. intros H.
    repeat (destruct H as [H | H]; [discriminate H|]). exact H. }
  split; [reflexivity|].
  split; [exact nes_skin_index|].
  split; reflexivity.
Qed.

(** Unlisted colors among the hair and eye colors of [nes]. *)
Lemma nes_hair_eyes_unlisted :
  role_index (colors nes) (hair nes) 1 = -1 /\
  role_index (colors nes) (eyes nes) 1 = -1.
Proof. split; reflexivity. Qed.

(** [getPalette] on the registered names, on any other own-less name, and
    on a name that a plain object inherits. *)
Lemma getPalette_examples :
  getPalette "nes" = Some nes /\ getPalette "gameboy" = Some gameboy /\
  getPalette "pastel" = Some pastel /\ getPalette "c64" = Some nes /\
  getPalette "toString" = None.
Proof. repeat split. Qed.

Lemma getPalette_registered name p :
  getPalette name = Some p -> p = nes \/ p = gameboy \/ p = pastel.
Proof.
  unfold getPalette, palettes. cbn [own_property].
  repeat match goal with
         | |- context [String.eqb ?a ?b] => destruct (String.eqb a b)
         end; intros H; try (injection H as <-; tauto).
  destruct (existsb _ _); [discriminate|]. injection H as <-; tauto.
Qed.

End Registry.

(** ** Loops *)

Section Loops.

Context {St : Type}.

(** The last turn of a counted loop. *)
Lemma for_loop_last n : forall i (body : Z -> St -> option St) s,
  for_loop (S n) i body s =
  match for_loop n i body s with
  | Some s' => body (i + Z.of_nat n) s'
  | None => None
  end.
Proof.
  induction n as [|n IH]; intros i body s.
  - cbn [for_loop]. replace (i + Z.of_nat 0) with i by lia.
    now destruct (body i s).
  - change (for_loop (S (S n)) i body s) with
      (match body i s with
       | Some s' => for_loop (S n) (i + 1) body s'
       | None => None
       end).
    destruct (body i s) as [s'|] eqn:E.
    + rewrite IH. cbn [for_loop]. rewrite E.
      replace (i + 1 + Z.of_nat n) with (i + Z.of_nat (S n)) by lia.
      reflexivity.
    + cbn [for_loop]. now rewrite E.
Qed.

(** An invariant kept by every turn holds when the loop ends, and the
    loop does end. *)
Lemma for_loop_invariant (P : nat -> St -> Prop) n i body s :
  P O s ->
  (forall k s, (k < n)%nat -> P k s ->
     exists s', body (i + Z.of_nat k) s = Some s' /\ P (S k) s') ->
  exists s', for_loop n i body s = Some s' /\ P n s'.
Proof.
  intros H0 Hstep. induction n as [|n IH].
  - exists s. split; [reflexivity | exact H0].
  - destruct IH as [s1 [E1 P1]].
    { intros k s' Hk. apply Hstep. lia. }
    rewrite for_loop_last, E1. apply Hstep; [lia | exact P1].
Qed.

End Loops.

(** ** The pixel buffer: accesses within a well-formed grid *)

Lemma js_index_in_range {A} (l : list A) i :
  0 <= i < Z.of_nat (length l) -> is_Some (js_index l i).
Proof.
  intros Hi. unfold js_index.
  destruct (i <? 0) eqn:E; [apply Z.ltb_lt in E; lia|].
  apply lookup_lt_is_Some. lia.
Qed.

Lemma js_index_lookup {A} (l : list A) i :
  0 <= i -> js_index l i = l !! Z.to_nat i.
Proof.
  intros Hi. unfold js_index.
  destruct (i <? 0) eqn:E; [apply Z.ltb_lt in E; lia | reflexivity].
Qed.

Section Grid.

Import PixelBuffer.

Context {A : Type}.
Implicit Types (rows : list (list A)) (row : list A).

Lemma grid_wf_row w h rows (y : nat) :
  grid_wf w h rows -> (y < h)%nat ->
  exists row, rows !! y = Some row /\ length row = w.
Proof.
  intros [Hh Hw] Hy.
  destruct (lookup_lt_is_Some_2 rows y) as [row Hrow]; [lia|].
  exists row. split; [exact Hrow|].
  rewrite Forall_forall in Hw. apply Hw.
  apply list_elem_of_lookup. eauto.
Qed.

Lemma grid_wf_insert w h rows (y : nat) row :
  grid_wf w h rows -> length row = w -> grid_wf w h (<[y := row]> rows).
Proof.
  intros [Hh Hw] Hrow. split.
  - now rewrite length_insert.
  - apply Forall_insert; assumption.
Qed.

Lemma grid_wf_replicate w h (a : A) :
  grid_wf w h (replicate h (replicate w a)).
Proof.
  split.
  - apply length_replicate.
  - apply Forall_replicate. apply length_replicate.
Qed.

(** Inside the bounds a read finds a cell and a write succeeds. *)
Lemma read_in_bounds w h rows y x :
  grid_wf w h rows ->
  0 <= y < Z.of_nat h -> 0 <= x < Z.of_nat w ->
  exists row, rows !! Z.to_nat y = Some row /\ length row = w /\
              read rows y x = row !! Z.to_nat x /\
              is_Some (row !! Z.to_nat x).
Proof.
  intros Hwf Hy Hx.
  destruct (grid_wf_row w h rows (Z.to_nat y) Hwf) as [row [Hrow Hlen]];
    [lia|].
  exists row. split; [exact Hrow|]. split; [exact Hlen|]. split.
  - unfold read. rewrite js_index_lookup by lia. rewrite Hrow.
    apply js_index_lookup. lia.
  - apply lookup_lt_is_Some. lia.
Qed.

Lemma write_in_bounds w h rows y x v :
  grid_wf w h rows ->
  0 <= y < Z.of_nat h -> 0 <= x < Z.of_nat w ->
  exists row, rows !! Z.to_nat y = Some row /\ length row = w /\
    write rows y x v =
    Some (<[Z.to_nat y := <[Z.to_nat x := v]> row]> rows) /\
    grid_wf w h (<[Z.to_nat y := <[Z.to_nat x := v]> row]> rows).
Proof.
  intros Hwf Hy Hx.
  destruct (read_in_bounds w h rows y x Hwf Hy Hx)
    as [row [Hrow [Hlen [_ [c Hc]]]]].
  exists row. split; [exact Hrow|]. split; [exact Hlen|]. split.
  - unfold write. rewrite js_index_lookup by lia. rewrite Hrow.
    rewrite js_index_lookup by lia. now rewrite Hc.
  - apply grid_wf_insert; [exact Hwf|]. now rewrite length_insert.
Qed.

(** What a read finds after a write. *)
Lemma read_after_write w h rows y x v rows' y' x' :
  grid_wf w h rows ->
  0 <= y < Z.of_nat h -> 0 <= x < Z.of_nat w ->
  0 <= y' < Z.of_nat h -> 0 <= x' < Z.of_nat w ->
  write rows y x v = Some rows' ->
  read rows' y' x' =
  if decide (y' = y /\ x' = x) then Some v else read rows y' x'.
Proof.
  intros Hwf Hy Hx Hy' Hx' Hw.
  destruct (write_in_bounds w h rows y x v Hwf Hy Hx)
    as [row [Hrow [Hlen [E Hwf']]]].
  rewrite E in Hw. injection Hw as <-.
  unfold read. rewrite !(js_index_lookup _ y') by lia.
  destruct (decide (Z.to_nat y' = Z.to_nat y)) as [Ey | Ey].
  - rewrite Ey, list_lookup_insert_eq
      by (apply lookup_lt_is_Some; eauto).
    rewrite js_index_lookup by lia.
    destruct (decide (Z.to_nat x' = Z.to_nat x)) as [Ex | Ex].
    + rewrite Ex, list_lookup_insert_eq by lia.
      destruct (decide (y' = y /\ x' = x)) as [_ | N];
        [reflexivity | exfalso; apply N; lia].
    + rewrite list_lookup_insert_ne by congruence.
      rewrite Hrow, js_index_lookup by lia.
      destruct (decide (y' = y /\ x' = x)) as [[_ ->] | _];
        [congruence | reflexivity].
  - rewrite list_lookup_insert_ne by congruence.
    destruct (decide (y' = y /\ x' = x)) as [[-> _] | _];
      [congruence | reflexivity].
Qed.

(** Two well-formed grids with the same cells are the same grid. *)
Lemma grid_ext w h rows1 rows2 :
  grid_wf w h rows1 -> grid_wf w h rows2 ->
  (forall y x, 0 <= y < Z.of_nat h -> 0 <= x < Z.of_nat w ->
     read rows1 y x = read rows2 y x) ->
  rows1 = rows2.
Proof.
  intros H1 H2 Hread.
  apply (list_eq_same_length _ _ h); [apply H2 | apply H1 |].
  intros y r1 r2 Hy Hr1 Hr2.
  destruct (grid_wf_row w h rows1 y H1 Hy) as [r1' [E1 L1]].
  destruct (grid_wf_row w h rows2 y H2 Hy) as [r2' [E2 L2]].
  assert (r1' = r1) by congruence. assert (r2' = r2) by congruence.
  subst r1' r2'.
  apply (list_eq_same_length _ _ w); [exact L2 | exact L1 |].
  intros x c1 c2 Hx Hc1 Hc2.
  specialize (Hread (Z.of_nat y) (Z.of_nat x) ltac:(lia) ltac:(lia)).
  unfold read in Hread.
  rewrite !(js_index_lookup _ (Z.of_nat y)) in Hread by lia.
  rewrite !Nat2Z.id, E1, E2 in Hread.
  rewrite !js_index_lookup in Hread by lia.
  rewrite !Nat2Z.id in Hread. congruence.
Qed.

End Grid.

(** ** The pixel buffer: the drawing operations *)

Section Drawing.

Import PixelBuffer.

Lemma in_bounds_true b x y :
  in_bounds b x y = true <->
  0 <= x < Z.of_nat (width b) /\ 0 <= y < Z.of_nat (height b).
Proof.
  unfold in_bounds. rewrite !andb_true_iff, !Z.leb_le, !Z.ltb_lt. lia.
Qed.

Lemma make_wf w h : wf (make w h).
Proof. apply grid_wf_replicate. Qed.

Lemma setPixel_safe x y c : safe (setPixel x y c).
Proof.
  intros b Hwf. unfold setPixel.
  destruct (in_bounds b x y) eqn:E.
  - apply in_bounds_true in E as [Hx Hy].
    destruct (write_in_bounds _ _ _ y x c Hwf Hy Hx)
      as [row [_ [_ [Hw Hwf']]]].
    rewrite Hw. eexists. split; [reflexivity|].
    split; [exact Hwf' | split; reflexivity].
  - exists b. split; [reflexivity|]. split; [exact Hwf | split; reflexivity].
Qed.

Lemma getPixel_in_bounds b x y :
  wf b -> is_Some (getPixel x y b).
Proof.
  intros Hwf. unfold getPixel. destruct (in_bounds b x y) eqn:E.
  - apply in_bounds_true in E as [Hx Hy].
    destruct (read_in_bounds _ _ _ y x Hwf Hy Hx) as [row [_ [_ [-> H]]]].
    exact H.
  - eexists. reflexivity.
Qed.

(** C7. For every buffer and all integer coordinates, [setPixel] and
    [getPixel] raise nothing; outside the [width] x [height] bounds
    [setPixel] returns the buffer as it was, every cell unchanged, and
    [getPixel] returns the transparent value [-1]. *)
Theorem pixel_access_out_of_bounds (b : PixelBuffer.t) (x y : Z)
    (colorIndex : ColorIndex) :
  wf b ->
  is_Some (setPixel x y colorIndex b) /\
  is_Some (getPixel x y b) /\
  (in_bounds b x y = false ->
   setPixel x y colorIndex b = Some b /\ getPixel x y b = Some (-1)).
Proof.
  intros Hwf. split; [|split].
  - destruct (setPixel_safe x y colorIndex b Hwf) as [b' [E _]]. eauto.
  - now apply getPixel_in_bounds.
  - intros E. unfold setPixel, getPixel. now rewrite E.
Qed.

Lemma pixel_access_out_of_bounds_witness :
  wf (make 16 16) /\
  setPixel 20 (-1) 3 (make 16 16) = Some (make 16 16) /\
  getPixel 20 (-1) (make 16 16) = Some (-1).
Proof.
  split; [apply make_wf|].
  apply (pixel_access_out_of_bounds (make 16 16) 20 (-1) 3 (make_wf 16 16)).
  reflexivity.
Defined.

(** The guards alone decide the out-of-bounds case: no hypothesis on the
    rows is needed there. *)
Lemma setPixel_outside b x y c :
  in_bounds b x y = false -> setPixel x y c b = Some b.
Proof. intros E. unfold setPixel. now rewrite E. Qed.

Lemma safe_for_loop n i (body : Z -> PixelBuffer.t -> option PixelBuffer.t) :
  (forall j, safe (body j)) -> safe (for_loop n i body).
Proof.
  intros Hbody b Hwf.
  destruct (for_loop_invariant
              (fun _ b' => wf b' /\ width b' = width b /\
                           height b' = height b) n i body b)
    as [b' [E H]].
  - split; [exact Hwf | split; reflexivity].
  - intros k s _ [Hs [Hw Hh]].
    destruct (Hbody (i + Z.of_nat k) s Hs) as [s' [E [Hs' [Hw' Hh']]]].
    exists s'. split; [exact E|]. split; [exact Hs' | split; congruence].
  - exists b'. tauto.
Qed.

Lemma fillRect_safe x y w h c : safe (fillRect x y w h c).
Proof.
  unfold fillRect. apply safe_for_loop. intros dy.
  apply safe_for_loop. intros dx. apply setPixel_safe.
Qed.

Lemma fillCircle_safe cx cy r c : safe (fillCircle cx cy r c).
Proof.
  unfold fillCircle. apply safe_for_loop. intros y.
  apply safe_for_loop. intros x b Hwf.
  destruct (x * x + y * y <=? r * r).
  - now apply setPixel_safe.
  - exists b. split; [reflexivity|]. split; [exact Hwf | split; reflexivity].
Qed.

(** Whether [drawLine] ends within its fuel depends on the coordinates
    alone, not on the buffer or on the color. *)
Lemma drawLine_loop_safe fuel dx dy sx sy x1 y1 c c0 :
  forall x y err b0,
    wf b0 ->
    is_Some (drawLine_loop fuel dx dy sx sy x1 y1 c0 x y err b0) ->
    safe (drawLine_loop fuel dx dy sx sy x1 y1 c x y err).
Proof.
  induction fuel as [|fuel IH]; intros x y err b0 Hwf0 [r Hr] b Hwf.
  - discriminate Hr.
  - cbn [drawLine_loop] in *.
    destruct (setPixel_safe x y c0 b0 Hwf0) as [b0' [E0 [Hwf0' _]]].
    destruct (setPixel_safe x y c b Hwf) as [b' [E [Hwf' [Hw Hh]]]].
    rewrite E0 in Hr. rewrite E.
    destruct ((x =? x1) && (y =? y1)).
    + exists b'. tauto.
    + destruct (- dy <? 2 * err); destruct (2 * err <? dx);
        (edestruct IH as [b'' [E' [Hwf'' [Hw' Hh']]]];
         [exact Hwf0' | eexists; exact Hr | exact Hwf' |];
         exists b''; split; [exact E'|]; split; [exact Hwf''|];
         split; congruence).
Qed.

Lemma drawLine_safe x0 y0 x1 y1 c :
  is_Some (drawLine x0 y0 x1 y1 0 (make 16 16)) ->
  safe (drawLine x0 y0 x1 y1 c).
Proof.
  intros H. unfold drawLine in *.
  eapply drawLine_loop_safe; [apply (make_wf 16 16) | exact H].
Qed.

Lemma clear_safe : safe clear.
Proof.
  intros b Hwf. unfold clear.
  destruct (for_loop_invariant
              (fun _ rows => grid_wf (width b) (height b) rows)
              (height b) 0
              (fun y => for_loop (width b) 0
                          (fun x rows => write rows y x transparent))
              (buffer b)) as [rows [E H]].
  - exact Hwf.
  - intros k rows Hk Hrows.
    apply (for_loop_invariant
             (fun _ rows => grid_wf (width b) (height b) rows)).
    + exact Hrows.
    + intros j rows' Hj Hrows'.
      destruct (write_in_bounds _ _ rows' (0 + Z.of_nat k) (0 + Z.of_nat j)
                  transparent Hrows') as [row [_ [_ [Hw Hwf']]]]; try lia.
      eauto.
  - rewrite E. eexists. split; [reflexivity|].
    split; [exact H | split; reflexivity].
Qed.

End Drawing.

(** ** The pixel buffer: mirrorVertically *)

Section Mirror.

Import PixelBuffer.

(** The cells of a grid after the reflection of its row [y]. *)
Lemma mirror_row_cells (w h mid : nat) (y : Z) (rows : Grid) :
  grid_wf w h rows -> 0 <= y < Z.of_nat h -> (2 * mid <= w)%nat ->
  exists rows',
    mirror_row (Z.of_nat w) mid y rows = Some rows' /\
    grid_wf w h rows' /\
    forall y' x', 0 <= y' < Z.of_nat h -> 0 <= x' < Z.of_nat w ->
      read rows' y' x' =
      if decide (y' = y /\ Z.of_nat w - Z.of_nat mid <= x')
      then read rows y (Z.of_nat w - 1 - x')
      else read rows y' x'.
Proof.
  intros Hwf Hy Hmid. unfold mirror_row.
  destruct (for_loop_invariant
           (fun k cur =>
              grid_wf w h cur /\
              forall y' x', 0 <= y' < Z.of_nat h -> 0 <= x' < Z.of_nat w ->
                read cur y' x' =
                if decide (y' = y /\ Z.of_nat w - Z.of_nat k <= x')
                then read rows y (Z.of_nat w - 1 - x')
                else read rows y' x')
           mid 0
           (fun x cur =>
              match read cur y x with
              | Some v => write cur y (Z.of_nat w - 1 - x) v
              | None => None
              end) rows) as [rows' [E [Hwf' Hcells']]].
  - split; [exact Hwf|]. intros y' x' Hy' Hx'.
    destruct (decide _) as [[_ H]|_]; [lia | reflexivity].
  - intros k cur Hk [Hcur Hcells]. rewrite Z.add_0_l.
    rewrite (Hcells y (Z.of_nat k)) by lia.
    destruct (decide _) as [[_ H]|_]; [lia|].
    destruct (read_in_bounds w h rows y (Z.of_nat k) Hwf)
      as [row [_ [_ [Hread [v Hv]]]]]; [lia | lia |].
    rewrite Hread, Hv.
    destruct (write_in_bounds w h cur y (Z.of_nat w - 1 - Z.of_nat k) v Hcur)
      as [row' [_ [_ [Hw Hwf']]]]; [lia | lia |].
    eexists. split; [exact Hw|]. split; [exact Hwf'|].
    intros y' x' Hy' Hx'.
    rewrite (read_after_write w h cur y (Z.of_nat w - 1 - Z.of_nat k) v
               _ y' x' Hcur) by (first [lia | exact Hw]).
    rewrite (Hcells y' x') by lia.
    repeat destruct (decide _); try reflexivity; try lia.
    destruct a as [-> ->].
    replace (Z.of_nat w - 1 - (Z.of_nat w - 1 - Z.of_nat k))
      with (Z.of_nat k) by lia.
    now rewrite Hread, Hv.
  - exists rows'. split; [exact E|]. split; [exact Hwf'|]. exact Hcells'.
Qed.

(** The cells of a buffer after [mirrorVertically]: the columns from
    [width - midX] on hold the reflection of the old columns below [midX],
    every other cell is as it was. *)
Lemma mirrorVertically_cells b :
  wf b ->
  exists b',
    mirrorVertically b = Some b' /\ wf b' /\
    width b' = width b /\ height b' = height b /\
    forall y x, 0 <= y < Z.of_nat (height b) ->
                0 <= x < Z.of_nat (width b) ->
      read (buffer b') y x =
      if decide (Z.of_nat (width b) - Z.of_nat (width b / 2) <= x)
      then read (buffer b) y (Z.of_nat (width b) - 1 - x)
      else read (buffer b) y x.
Proof.
  intros Hwf. unfold mirrorVertically.
  set (w := width b). set (h := height b). set (mid := (w / 2)%nat).
  assert (Hmid : (2 * mid <= w)%nat).
  { subst mid. pose proof (Nat.Div0.mul_div_le w 2). lia. }
  destruct (for_loop_invariant (St := Grid)
              (fun n cur =>
                 grid_wf w h cur /\
                 forall y x, 0 <= y < Z.of_nat h -> 0 <= x < Z.of_nat w ->
                   read cur y x =
                   if decide (y < Z.of_nat n /\
                              Z.of_nat w - Z.of_nat mid <= x)
                   then read (buffer b) y (Z.of_nat w - 1 - x)
                   else read (buffer b) y x)
              h 0 (mirror_row (Z.of_nat w) mid) (buffer b))
    as [rows [E [Hrows Hcells]]].
  - split; [exact Hwf|]. intros y x Hy Hx.
    destruct (decide _) as [[H _]|_]; [lia | reflexivity].
  - intros n cur Hn [Hcur Hcells]. rewrite Z.add_0_l.
    destruct (mirror_row_cells w h mid (Z.of_nat n) cur Hcur)
      as [rows' [E [Hwf' Hcells']]]; [lia | exact Hmid |].
    exists rows'. split; [exact E|]. split; [exact Hwf'|].
    intros y x Hy Hx. rewrite Hcells' by lia.
    destruct (decide (y = Z.of_nat n /\ _)) as [[-> Hge]|Hne].
    + rewrite Hcells by lia.
      destruct (decide (Z.of_nat n < Z.of_nat n /\ _)) as [[H _]|_];
        [lia|].
      destruct (decide _) as [_|N]; [reflexivity | lia].
    + rewrite Hcells by lia.
      repeat destruct (decide _); try reflexivity; lia.
  - rewrite E. eexists. split; [reflexivity|]. split; [exact Hrows|].
    split; [reflexivity|]. split; [reflexivity|].
    intros y x Hy Hx. cbn [buffer with_buffer]. rewrite Hcells by assumption.
    repeat destruct (decide _); try reflexivity; lia.
Qed.

Lemma getPixel_read b x y :
  0 <= x < Z.of_nat (width b) -> 0 <= y < Z.of_nat (height b) ->
  getPixel x y b = read (buffer b) y x.
Proof.
  intros Hx Hy. unfold getPixel.
  now rewrite (proj2 (in_bounds_true b x y)) by lia.
Qed.

(** C8. After [mirrorVertically()], in every row [y] and for each
    [x < floor(w / 2)], the cell at [(w - 1 - x, y)] holds what the cell
    at [(x, y)] held and the cell at [(x, y)] is unchanged; the right half
    is overwritten whatever it held before, its new content being the old
    left half alone. *)
Theorem mirrorVertically_reflects (b : PixelBuffer.t) :
  wf b ->
  exists b',
    mirrorVertically b = Some b' /\
    forall x y,
      0 <= y < Z.of_nat (height b) ->
      0 <= x < Z.of_nat (width b) / 2 ->
      getPixel (Z.of_nat (width b) - 1 - x) y b' = getPixel x y b /\
      getPixel x y b' = getPixel x y b.
Proof.
  intros Hwf.
  destruct (mirrorVertically_cells b Hwf) as [b' [E [Hwf' [Hw [Hh Hcells]]]]].
  exists b'. split; [exact E|]. intros x y Hy Hx.
  assert (Hdiv : Z.of_nat (width b / 2) = Z.of_nat (width b) / 2)
    by (rewrite Nat2Z.inj_div; reflexivity).
  assert (Hle : 2 * (Z.of_nat (width b) / 2) <= Z.of_nat (width b))
    by (apply Z.mul_div_le; lia).
  rewrite !getPixel_read by (rewrite ?Hw, ?Hh; lia).
  rewrite !Hcells by lia. rewrite Hdiv.
  split; repeat destruct (decide _); try lia; try reflexivity.
  f_equal. lia.
Qed.

Lemma mirrorVertically_reflects_witness :
  getPixel 13 5 (make 16 16) = Some (-1) /\
  exists b b',
    setPixel 2 5 1 (make 16 16) = Some b /\
    mirrorVertically b = Some b' /\
    getPixel 13 5 b' = Some 1 /\ getPixel 2 5 b' = Some 1.
Proof.
  split; [reflexivity|].
  destruct (setPixel_safe 2 5 1 (make 16 16) (make_wf 16 16))
    as [b [Eb [Hwf [Hw Hh]]]].
  destruct (mirrorVertically_reflects b Hwf) as [b' [E Hcells]].
  exists b, b'. split; [exact Eb|]. split; [exact E|].
  injection Eb as <-.
  exact (Hcells 2 5 ltac:(change (0 <= 5 < 16); lia)
                    ltac:(change (0 <= 2 < 8); lia)).
Defined.

(** C10. [mirrorVertically] is idempotent: a second call returns the grid
    that the first has made. *)
Theorem mirrorVertically_idempotent (b : PixelBuffer.t) :
  wf b ->
  exists b',
    mirrorVertically b = Some b' /\ mirrorVertically b' = Some b'.
Proof.
  intros Hwf.
  destruct (mirrorVertically_cells b Hwf) as [b1 [E1 [Hwf1 [Hw1 [Hh1 C1]]]]].
  destruct (mirrorVertically_cells b1 Hwf1)
    as [b2 [E2 [Hwf2 [Hw2 [Hh2 C2]]]]].
  exists b1. split; [exact E1|]. rewrite E2. f_equal.
  assert (Hbuf : buffer b2 = buffer b1).
  { apply (grid_ext (width b) (height b)).
    - unfold wf in Hwf2. now rewrite Hw2, Hh2, Hw1, Hh1 in Hwf2.
    - unfold wf in Hwf1. now rewrite Hw1, Hh1 in Hwf1.
    - intros y x Hy Hx.
      assert (Hle : (2 * (width b / 2) <= width b)%nat)
        by (pose proof (Nat.Div0.mul_div_le (width b) 2); lia).
      rewrite C2 by (rewrite ?Hw1, ?Hh1; lia). rewrite Hw1.
      destruct (decide _) as [Hge|Hlt]; [|reflexivity].
      rewrite !C1 by lia.
      destruct (decide _) as [H|_]; [lia|].
      destruct (decide _) as [_|N]; [reflexivity | lia]. }
  destruct b1 as [w1 h1 r1], b2 as [w2 h2 r2]. cbn in *. congruence.
Qed.

Lemma mirrorVertically_safe : safe mirrorVertically.
Proof.
  intros b Hwf.
  destruct (mirrorVertically_cells b Hwf) as [b' [E [Hwf' [Hw [Hh _]]]]].
  exists b'. tauto.
Qed.

Lemma mirrorVertically_idempotent_witness :
  wf {| width := 5; height := 2;
        buffer := [[1; 2; 3; 4; 5]; [0; -1; 7; -1; -1]] |} /\
  exists b',
    mirrorVertically
      {| width := 5; height := 2;
         buffer := [[1; 2; 3; 4; 5]; [0; -1; 7; -1; -1]] |} = Some b' /\
    mirrorVertically b' = Some b'.
Proof.
  assert (Hwf : wf {| width := 5; height := 2;
                      buffer := [[1; 2; 3; 4; 5]; [0; -1; 7; -1; -1]] |})
    by (split; [reflexivity | repeat constructor]).
  split; [exact Hwf|].
  apply (mirrorVertically_idempotent
           {| width := 5; height := 2;
              buffer := [[1; 2; 3; 4; 5]; [0; -1; 7; -1; -1]] |} Hwf).
Defined.

End Mirror.

(** ** Feature selection: the order of the draws *)

Section Selection.

Import XorShift32.

(** On a 32-bit draw, the binary64 probability and the decimal fraction it
    is written as accept the same values. *)
Lemma chance_binary64 (p q : Q) g :
  (forall n, 0 <= n <= 4294967295 ->
     Qle_bool p (n # 4294967296) = Qle_bool q (n # 4294967296)) ->
  chance p g = chance q g.
Proof.
  intros H. unfold chance. pose proof (next_range g) as Hr.
  destruct (next g) as [n g']. cbn [fst] in Hr. now rewrite H.
Qed.

Ltac same_threshold :=
  intros n Hn; unfold Qle_bool; cbn [Qnum Qden];
  match goal with
  | |- (?a <=? ?b) = (?c <=? ?d) =>
      destruct (Z.leb_spec a b); destruct (Z.leb_spec c d);
      try reflexivity; exfalso; lia
  end.

Lemma chance_0_3 g : chance Prob.p0_3 g = chance (3 # 10) g.
Proof. apply chance_binary64. unfold Prob.p0_3. same_threshold. Qed.

Lemma chance_0_25 g : chance Prob.p0_25 g = chance (25 # 100) g.
Proof. apply chance_binary64. unfold Prob.p0_25. same_threshold. Qed.

Lemma chance_0_15 g : chance Prob.p0_15 g = chance (15 # 100) g.
Proof. apply chance_binary64. unfold Prob.p0_15. same_threshold. Qed.

Lemma chance_0_2 g : chance Prob.p0_2 g = chance (20 # 100) g.
Proof. apply chance_binary64. unfold Prob.p0_2. same_threshold. Qed.

(** [pick] on a literal array returns the element whose code is the index
    drawn. *)
Lemma pick_code {A} (code : A -> Z) (d : A) (array : list A) g :
  array <> [] ->
  (forall i, (i < length array)%nat -> code (nth i array d) = Z.of_nat i) ->
  code (fst (pick d array g)) = fst (int (Z.of_nat (length array)) g) /\
  snd (pick d array g) = snd (int (Z.of_nat (length array)) g).
Proof.
  intros Hne Hcode. unfold pick.
  destruct (int (Z.of_nat (length array)) g) as [i g'] eqn:E.
  cbn [fst snd]. split; [|reflexivity].
  assert (Hi : 0 <= i < Z.of_nat (length array)).
  { unfold int in E. destruct (next g) as [n g1]. injection E as <- _.
    apply Z.mod_pos_bound. destruct array; [congruence | cbn; lia]. }
  rewrite Hcode by lia. lia.
Qed.

Lemma pick_as_int {A} (code : A -> Z) (d : A) (array : list A) g k g' :
  (forall i, (i < length array)%nat -> code (nth i array d) = Z.of_nat i) ->
  array <> [] ->
  pick d array g = (k, g') ->
  int (Z.of_nat (length array)) g = (code k, g').
Proof.
  intros Hcode Hne E.
  pose proof (pick_code code d array g Hne Hcode) as [H1 H2].
  rewrite E in H1, H2. cbn [fst snd] in H1, H2.
  destruct (int (Z.of_nat (length array)) g) as [i g1].
  cbn [fst snd] in H1, H2. congruence.
Qed.

(** The code of the i-th element of a literal array is i. *)
Ltac enum_codes :=
  let i := fresh "i" in let H := fresh "H" in
  intros i H; cbn [length] in H;
  repeat (destruct i as [|i]; [reflexivity|]); lia.

Ltac reduce_draws :=
  cbv beta iota;
  cbn [fst snd app perform_all perform optional_draws optional_codes
       facialHair accessories glasses hat earrings skinTone jawShape
       eyeShape browShape noseShape mouthShape hairStyle hairColor
       clothesStyle clothesColor].

(** The next draw of [generateFeatures], named and kept as an equation. *)
Ltac select_int E :=
  match type of E with
  | context [int ?m ?g] =>
      is_var g;
      let v := fresh "v" in let g' := fresh "g" in
      let D := fresh "D" in
      destruct (int m g) as [v g'] eqn:D; cbv beta iota in E
  end.

Ltac select_pick E code :=
  match type of E with
  | context [pick ?d ?array ?g] =>
      is_var g;
      let k := fresh "k" in let g' := fresh "g" in
      let D := fresh "D" in
      destruct (pick d array g) as [k g'] eqn:D; cbv beta iota in E;
      apply (pick_as_int code) in D; [| enum_codes | discriminate];
      cbn [length] in D;
      match type of D with
      | context [Z.of_nat ?n] =>
          let z := eval cbv in (Z.of_nat n) in
          change (Z.of_nat n) with z in D
      end
  end.

Ltac select_chance E :=
  match type of E with
  | context [chance ?p ?g] =>
      is_var g;
      let g' := fresh "g" in
      let D := fresh "D" in
      destruct (chance p g) as [[|] g'] eqn:D; cbv beta iota in E
  end.

(** The script replayed on the equations kept. *)
Ltac replay :=
  repeat (reduce_draws;
          rewrite <- ?chance_0_3, <- ?chance_0_25, <- ?chance_0_15,
                  <- ?chance_0_2;
          match goal with
          | D : int ?m ?g = _ |- context [int ?m ?g] => rewrite D
          | D : chance ?p ?g = _ |- context [chance ?p ?g] => rewrite D
          end);
  reduce_draws.

Local Opaque XorShift32.next XorShift32.int XorShift32.chance XorShift32.pick.

(** C3. For every palette and generator state, feature selection draws
    from the generator in the fixed order of the specification: skin-tone
    index, jaw (3-way), eyes (6-way), brows (4-way), nose (3-way), mouth
    (6-way), hair style (7-way), hair-color index, facial-hair presence
    (30%) then its kind (3-way) only if present, glasses presence (25%)
    then kind (2-way) only if present, earrings presence (15%), hat
    presence (20%) then kind (2-way) only if present, clothes style
    (3-way), clothes-color index.  Performing these draws in this order on
    the same generator gives, draw by draw, the features selected, and
    leaves the generator in the state feature selection leaves it in. *)
Theorem generateFeatures_order (pal : Palette) (g : XorShift32.t) :
  perform_all
    (selection_script pal (fst (AvatarEngine.generateFeatures pal g))) g =
  (feature_codes (fst (AvatarEngine.generateFeatures pal g)),
   snd (AvatarEngine.generateFeatures pal g)).
Proof.
  destruct (AvatarEngine.generateFeatures pal g) as [f gf] eqn:E.
  cbn [fst snd].
  unfold AvatarEngine.generateFeatures in E.
  select_int E.
  select_pick E jaw_code. select_pick E eye_code. select_pick E brow_code.
  select_pick E nose_code. select_pick E mouth_code. select_pick E hair_code.
  select_int E.
  select_chance E; [select_pick E facial_code|];
    (select_chance E; [select_pick E glasses_code|]);
    select_chance E;
    (select_chance E; [select_pick E hat_code|]);
    select_pick E clothes_code; select_int E.
  all: injection E as <- <-.
  all: unfold selection_script, feature_codes.
  all: replay.
  all: reflexivity.
Qed.

Local Transparent XorShift32.next XorShift32.int XorShift32.chance
  XorShift32.pick.

(** The selection for the seed of [test@example.com] and the NES palette:
    fifteen draws, facial hair present and nothing else optional. *)
Example generateFeatures_trace :
  perform_all
    (selection_script Palettes.nes
       (fst (AvatarEngine.generateFeatures Palettes.nes
               (make 1405876145))))
    (make 1405876145) =
  ([1; 2; 4; 0; 1; 5; 4; 3; 1; 0; 0; 0; 0; 2; 2],
   snd (AvatarEngine.generateFeatures Palettes.nes (make 1405876145))).
Proof. vm_compute. reflexivity. Qed.

End Selection.

(** ** The PNG encoder: framing of the output *)

Section Framing.

Import Exporters.

Variable kMaxLength : Z.

Lemma framed_prefix_suffix png :
  framed png ->
  take 8 png = [137; 80; 78; 71; 13; 10; 26; 10] /\
  drop (length png - 12) png = [0; 0; 0; 0; 73; 69; 78; 68; 174; 66; 96; 130].
Proof.
  intros [body ->]. split; [reflexivity|].
  rewrite app_assoc, drop_app_length'; [reflexivity|].
  rewrite !length_app. cbn [length png_iend]. lia.
Qed.

Lemma minimal_png_framed : framed minimal_png.
Proof.
  exists (take 46 (drop 8 minimal_png)). reflexivity.
Qed.

Lemma generatePNG_try_framed data width height png :
  generatePNG_try kMaxLength data width height = Some png -> framed png.
Proof.
  unfold generatePNG_try. intros H. cbv zeta in H.
  repeat (apply bind_Some in H; destruct H as [? [_ H]]).
  unfold concat_buffers in H.
  destruct (_ <=? _) in H; [|discriminate].
  injection H as <-.
  match goal with
  | |- framed (_ :: _ :: _ :: _ :: _ :: _ :: _ :: _ :: ?ihdr ++ ?idat ++ _) =>
      exists (ihdr ++ idat)
  end.
  rewrite <- app_assoc. reflexivity.
Qed.

Lemma generatePNG_framed data width height :
  framed (generatePNG kMaxLength data width height).
Proof.
  unfold generatePNG.
  destruct (generatePNG_try kMaxLength data width height) as [png|] eqn:E.
  - exact (generatePNG_try_framed _ _ _ _ E).
  - exact minimal_png_framed.
Qed.

(** C9. For every buffer, requested size, background and palette name the
    bytes that [toPNG] returns begin with the PNG signature
    89 50 4E 47 0D 0A 1A 0A and end with the IEND chunk
    00 00 00 00 49 45 4E 44 AE 42 60 82; this holds on the fallback path
    too, where a failure of the generation makes [toPNG] encode the 1x1
    transparent placeholder. *)
Theorem toPNG_framing (buffer : PixelBuffer.t) (size : Z)
    (bg paletteName : string) :
  let png := toPNG kMaxLength buffer size bg paletteName in
  take 8 png = [137; 80; 78; 71; 13; 10; 26; 10] /\
  drop (length png - 12) png =
    [0; 0; 0; 0; 73; 69; 78; 68; 174; 66; 96; 130] /\
  (toPNG_bitmap kMaxLength buffer size bg paletteName = None ->
   png = generatePNG kMaxLength [0; 0; 0; 0] 1 1).
Proof.
  cbv zeta.
  assert (H : framed (toPNG kMaxLength buffer size bg paletteName)).
  { unfold toPNG.
    destruct (toPNG_bitmap kMaxLength buffer size bg paletteName)
      as [[bitmapData actualSize]|]; apply generatePNG_framed. }
  destruct (framed_prefix_suffix _ H) as [H1 H2].
  split; [exact H1|]. split; [exact H2|].
  intros E. unfold toPNG. now rewrite E.
Qed.

End Framing.

(** The fallback path is taken, for instance, with a palette name that
    resolves to an inherited member; the placeholder is then encoded by
    the [try] block of [generatePNG] (here with a host limit of 2^32 - 1
    bytes). *)
Example toPNG_fallback :
  Exporters.toPNG_bitmap 4294967295 (PixelBuffer.make 16 16) 256
    "transparent" "toString" = None /\
  Exporters.toPNG 4294967295 (PixelBuffer.make 16 16) 256
    "transparent" "toString" =
  [ 137; 80; 78; 71; 13; 10; 26; 10;
    0; 0; 0; 13; 73; 72; 68; 82; 0; 0; 0; 1; 0; 0; 0; 1; 8; 6; 0; 0; 0;
    31; 21; 196; 137;
    0; 0; 0; 10; 73; 68; 65; 84; 1; 5; 0; 250; 255; 0; 0; 0; 0; 0;
    161; 94; 63; 88;
    0; 0; 0; 0; 73; 69; 78; 68; 174; 66; 96; 130 ].
Proof. split; vm_compute; reflexivity. Qed.

(** ** The engine: every method returns *)

Section EngineSafety.

Import PixelBuffer AvatarEngine.

Lemma andThen_safe m1 m2 :
  method_safe m1 -> method_safe m2 -> method_safe (m1 >=> m2).
Proof.
  intros H1 H2 e Hwf. unfold andThen.
  destruct (H1 e Hwf) as [e1 [-> Hwf1]]. exact (H2 e1 Hwf1).
Qed.

Lemma skip_safe : method_safe skip.
Proof. intros e Hwf. exists e. split; [reflexivity | exact Hwf]. Qed.

Lemma assign_safe upd : method_safe (assign upd).
Proof. intros e Hwf. eexists. split; [reflexivity | exact Hwf]. Qed.

Lemma rand_safe {A} (d : XorShift32.t -> A * XorShift32.t) (k : A -> method) :
  (forall a, method_safe (k a)) -> method_safe (rand d k).
Proof.
  intros Hk e Hwf. unfold rand. destruct (d (prng e)) as [a g].
  apply Hk. exact Hwf.
Qed.

Lemma draw_safe op : PixelBuffer.safe op -> method_safe (draw op).
Proof.
  intros Hop e Hwf. unfold draw.
  destruct (Hop (buffer e) Hwf) as [b [-> [Hb _]]].
  eexists. split; [reflexivity | exact Hb].
Qed.

Lemma for_loop_method_safe n i (body : Z -> method) :
  (forall j, method_safe (body j)) -> method_safe (for_loop n i body).
Proof.
  intros Hbody e Hwf.
  apply (for_loop_invariant (fun _ e' => AvatarEngine.wf e')).
  - exact Hwf.
  - intros k e' _ He'. exact (Hbody _ e' He').
Qed.

Lemma method_safe_apply (m : method) e :
  method_safe m -> AvatarEngine.wf e ->
  exists e', m e = Some e' /\ AvatarEngine.wf e'.
Proof. intros H Hwf. exact (H e Hwf). Qed.

Lemma some_safe e :
  AvatarEngine.wf e -> exists e', Some e = Some e' /\ AvatarEngine.wf e'.
Proof. intros Hwf. exists e. split; [reflexivity | exact Hwf]. Qed.

(** A line of the engine ends: its end points are constants. *)
Ltac line_ends := vm_compute; eexists; reflexivity.

Ltac safe_op :=
  first [ apply setPixel_safe | apply fillRect_safe | apply fillCircle_safe
        | apply clear_safe | apply mirrorVertically_safe
        | apply drawLine_safe; line_ends ].

Ltac safe_method :=
  repeat match goal with
    | |- method_safe (_ >=> _) => apply andThen_safe
    | |- method_safe skip => apply skip_safe
    | |- method_safe (assign _) => apply assign_safe
    | |- method_safe (rand _ _) => apply rand_safe; intros ?
    | |- method_safe (draw _) => apply draw_safe; safe_op
    | |- method_safe (for_loop _ _ _) =>
        apply for_loop_method_safe; intros ?
    | |- method_safe (match ?x with _ => _ end) => destruct x
    | |- method_safe (fun _ => _) =>
        let e := fresh "e" in let Hwf := fresh "Hwf" in
        intros e Hwf; cbv beta zeta;
        repeat match goal with
               | |- context [match ?x with _ => _ end] => destruct x
               end;
        first [ apply some_safe; exact Hwf
              | apply method_safe_apply; [|exact Hwf] ]
    end.

Lemma applyMood_safe mood : method_safe (applyMood mood).
Proof. destruct mood; cbn [applyMood]; safe_method. Qed.

Lemma applyGender_safe gender : method_safe (applyGender gender).
Proof. destruct gender; cbn [applyGender]; safe_method. Qed.

Lemma drawHead_safe : method_safe drawHead.
Proof. unfold drawHead. safe_method. Qed.

Lemma drawNeck_safe : method_safe drawNeck.
Proof. unfold drawNeck. safe_method. Qed.

Lemma drawShoulders_safe : method_safe drawShoulders.
Proof. unfold drawShoulders. safe_method. Qed.

Lemma drawShirt_safe : method_safe drawShirt.
Proof. unfold drawShirt. safe_method. Qed.

Lemma drawEyes_safe : method_safe drawEyes.
Proof. unfold drawEyes. safe_method. Qed.

Lemma drawBrows_safe : method_safe drawBrows.
Proof. unfold drawBrows. safe_method. Qed.

Lemma drawNose_safe : method_safe drawNose.
Proof. unfold drawNose. safe_method. Qed.

Lemma drawMouth_safe : method_safe drawMouth.
Proof. unfold drawMouth. safe_method. Qed.

Lemma drawHair_safe : method_safe drawHair.
Proof. unfold drawHair. safe_method. Qed.

Lemma drawFacialHair_safe : method_safe drawFacialHair.
Proof. unfold drawFacialHair. safe_method. Qed.

Lemma drawAccessories_safe : method_safe drawAccessories.
Proof. unfold drawAccessories. safe_method. Qed.

Lemma addAsymmetry_safe : method_safe addAsymmetry.
Proof. unfold addAsymmetry. safe_method. Qed.

Lemma generate_safe mood gender : method_safe (generate mood gender).
Proof.
  unfold generate.
  repeat match goal with
    | |- method_safe (_ >=> _) => apply andThen_safe
    | |- method_safe (draw _) => apply draw_safe; safe_op
    end;
  first
    [ apply applyMood_safe | apply applyGender_safe
    | apply drawShoulders_safe | apply drawShirt_safe | apply drawNeck_safe
    | apply drawHead_safe | apply drawHair_safe | apply drawBrows_safe
    | apply drawEyes_safe | apply drawNose_safe | apply drawMouth_safe
    | apply drawFacialHair_safe | apply drawAccessories_safe
    | apply addAsymmetry_safe ].
Qed.

(** The constructor makes a well-formed engine with one of the registered
    palettes, unless the palette name resolves to an inherited member. *)
Lemma make_Some seed paletteName :
  match Palettes.getPalette paletteName with
  | Some pal =>
      exists e, AvatarEngine.make seed paletteName = Some e /\
                AvatarEngine.wf e /\ palette e = pal
  | None => AvatarEngine.make seed paletteName = None
  end.
Proof.
  unfold AvatarEngine.make.
  destruct (Palettes.getPalette paletteName) as [pal|]; [|reflexivity].
  destruct (generateFeatures pal (XorShift32.make seed)) as [f g].
  eexists. split; [reflexivity|]. split; [|reflexivity].
  apply (make_wf 16 16).
Qed.

(** A fresh engine returns a buffer from its first [generate]. *)
Lemma avatar_total seed paletteName mood gender :
  is_Some (Palettes.getPalette paletteName) ->
  exists b, avatar seed paletteName mood gender = Some b /\ PixelBuffer.wf b.
Proof.
  intros [pal Hpal]. unfold avatar.
  pose proof (make_Some seed paletteName) as H. rewrite Hpal in H.
  destruct H as [e [-> [Hwf _]]].
  destruct (generate_safe mood gender e Hwf) as [e' [-> Hwf']].
  exists (AvatarEngine.buffer e'). split; [reflexivity | exact Hwf'].
Qed.

Lemma avatar_inherited seed paletteName mood gender :
  Palettes.getPalette paletteName = None ->
  avatar seed paletteName mood gender = None.
Proof.
  intros Hpal. unfold avatar.
  pose proof (make_Some seed paletteName) as H. rewrite Hpal in H.
  now rewrite H.
Qed.

End EngineSafety.

(** ** A second call on the same engine *)

Section TwoRuns.

Import AvatarEngine Exporters.

(** [generate] advances the generator and rewrites the features of the
    engine it is called on: a second call on the same engine draws another
    picture.  What a request returns is a fresh engine's first call. *)
Example generate_again_differs :
  match AvatarEngine.make 1405876145 "pastel" with
  | Some e =>
      match generate Neutral Auto e with
      | Some e1 =>
          match generate Neutral Auto e1 with
          | Some e2 =>
              Some (bool_decide (PixelBuffer.getData (buffer e1) =
                                 PixelBuffer.getData (buffer e2)))
          | None => None
          end
      | None => None
      end
  | None => None
  end = Some false.
Proof. vm_compute. reflexivity. Qed.

(** The same in a process: the second call returns the reference the
    first returned, and the buffer behind it no longer holds what the
    first call drew. *)
Example second_call_overwrites :
  match Process.run 1405876145 "pastel" Neutral Auto [] with
  | Some (r, p1) =>
      match Process.generate r Neutral Auto p1 with
      | Some (r', p2) =>
          match Process.buffer r p1, Process.buffer r' p2 with
          | Some b1, Some b2 =>
              Some (Nat.eqb r r',
                    bool_decide (PixelBuffer.getData b1 =
                                 PixelBuffer.getData b2))
          | _, _ => None
          end
      | None => None
      end
  | None => None
  end = Some (true, false).
Proof. vm_compute. reflexivity. Qed.

End TwoRuns.

(** ** The pixel buffer: what the drawing operations paint *)

Section Painting.

Import PixelBuffer.

(** Comparisons decided, then linear arithmetic. *)
Ltac compare_all :=
  repeat match goal with
         | |- context [?a <=? ?b] => destruct (Z.leb_spec a b)
         | |- context [?a <? ?b] => destruct (Z.ltb_spec a b)
         | |- context [?a =? ?b] => destruct (Z.eqb_spec a b)
         end;
  cbn [andb orb negb]; try reflexivity; try lia.

Lemma in_bounds_same_shape b b' x y :
  width b' = width b -> height b' = height b ->
  in_bounds b' x y = in_bounds b x y.
Proof. intros Hw Hh. unfold in_bounds. now rewrite Hw, Hh. Qed.

Lemma getPixel_outside b x y :
  in_bounds b x y = false -> getPixel x y b = Some transparent.
Proof. intros E. unfold getPixel. now rewrite E. Qed.

(** The cells of the buffer that [setPixel] returns. *)
Lemma setPixel_cells b x y c :
  wf b ->
  exists b',
    setPixel x y c b = Some b' /\ wf b' /\
    width b' = width b /\ height b' = height b /\
    forall px py,
      getPixel px py b' =
      if in_bounds b px py && ((px =? x) && (py =? y)) then Some c
      else getPixel px py b.
Proof.
  intros Hwf.
  destruct (setPixel_safe x y c b Hwf) as [b' [E [Hwf' [Hw Hh]]]].
  exists b'. split; [exact E|]. split; [exact Hwf'|].
  split; [exact Hw|]. split; [exact Hh|].
  intros px py. unfold getPixel.
  rewrite (in_bounds_same_shape b b') by assumption.
  destruct (in_bounds b px py) eqn:Ep; cbn [andb]; [|reflexivity].
  apply in_bounds_true in Ep as [Hpx Hpy].
  unfold setPixel in E. destruct (in_bounds b x y) eqn:Exy.
  - apply in_bounds_true in Exy as [Hx Hy].
    destruct (write (buffer b) y x c) as [rows|] eqn:Ew; [|discriminate].
    injection E as <-. cbn [buffer with_buffer].
    rewrite (read_after_write _ _ _ y x c rows py px Hwf) by assumption.
    destruct (decide (py = y /\ px = x)) as [[-> ->]|N].
    + now rewrite !Z.eqb_refl.
    + destruct (Z.eqb_spec px x); destruct (Z.eqb_spec py y);
        cbn [andb]; try reflexivity. exfalso. apply N. now split.
  - injection E as <-.
    destruct (Z.eqb_spec px x); destruct (Z.eqb_spec py y);
      cbn [andb]; try reflexivity.
    subst. exfalso.
    assert (in_bounds b x y = true) by (apply in_bounds_true; lia).
    congruence.
Qed.

Lemma paints_setPixel x y c :
  paints (setPixel x y c) c (fun px py => (px =? x) && (py =? y)).
Proof. intros b Hwf. exact (setPixel_cells b x y c Hwf). Qed.

Lemma paints_nothing c : paints (fun b => Some b) c (fun _ _ => false).
Proof.
  intros b Hwf. exists b. repeat split; try apply Hwf.
  intros px py. now rewrite andb_false_r.
Qed.

Lemma paints_ext op c (R R' : Z -> Z -> bool) :
  (forall px py, R px py = R' px py) -> paints op c R -> paints op c R'.
Proof.
  intros HR Hop b Hwf.
  destruct (Hop b Hwf) as [b' [E [Hwf' [Hw [Hh Hc]]]]].
  exists b'. repeat split; try assumption; try apply Hwf'.
  intros px py. rewrite Hc. now rewrite HR.
Qed.

(** A counted loop paints the union of what its turns paint; [U k] is the
    region painted by the first [k] turns. *)
Lemma paints_for_loop n i (body : Z -> PixelBuffer.t -> option PixelBuffer.t)
    c (R : Z -> Z -> Z -> bool) (U : nat -> Z -> Z -> bool) :
  (forall k, paints (body k) c (R k)) ->
  (forall px py, U O px py = false) ->
  (forall k px py, U (S k) px py = U k px py || R (i + Z.of_nat k) px py) ->
  paints (for_loop n i body) c (U n).
Proof.
  intros Hbody U0 US b Hwf.
  destruct (for_loop_invariant
              (fun k b' =>
                 wf b' /\ width b' = width b /\ height b' = height b /\
                 forall px py,
                   getPixel px py b' =
                   if in_bounds b px py && U k px py then Some c
                   else getPixel px py b) n i body b)
    as [b' [E H]].
  - split; [exact Hwf|]. split; [reflexivity|]. split; [reflexivity|].
    intros px py. now rewrite U0, andb_false_r.
  - intros k s _ [Hs [Hw [Hh Hc]]].
    destruct (Hbody (i + Z.of_nat k) s Hs) as [s' [E [Hs' [Hw' [Hh' Hc']]]]].
    exists s'. split; [exact E|]. split; [exact Hs'|].
    split; [congruence|]. split; [congruence|].
    intros px py. rewrite Hc', Hc, US.
    rewrite (in_bounds_same_shape b s) by assumption.
    destruct (in_bounds b px py); cbn [andb]; [|reflexivity].
    destruct (R (i + Z.of_nat k) px py); destruct (U k px py); reflexivity.
  - exists b'. tauto.
Qed.

(** The cells of [fillRect]. *)
Lemma paints_fillRect x y w h c :
  paints (fillRect x y w h c) c
    (fun px py => (x <=? px) && (px <? x + w) && (y <=? py) && (py <? y + h)).
Proof.
  unfold fillRect.
  apply (paints_ext _ _
           (fun px py =>
              (x <=? px) && (px <? x + Z.of_nat (Z.to_nat w)) &&
              (y <=? py) && (py <? y + Z.of_nat (Z.to_nat h)))).
  { intros px py. compare_all. }
  apply (paints_for_loop _ _ _ _
           (fun dy px py =>
              (x <=? px) && (px <? x + Z.of_nat (Z.to_nat w)) &&
              (py =? y + dy))
           (fun k px py =>
              (x <=? px) && (px <? x + Z.of_nat (Z.to_nat w)) &&
              (y <=? py) && (py <? y + Z.of_nat k))).
  - intros dy.
    apply (paints_ext _ _
             (fun px py =>
                (x <=? px) && (px <? x + Z.of_nat (Z.to_nat w)) &&
                (py =? y + dy) && true)).
    { intros px py. apply andb_true_r. }
    apply (paints_for_loop _ _ _ _
             (fun dx px py => (px =? x + dx) && (py =? y + dy))
             (fun k px py =>
                (x <=? px) && (px <? x + Z.of_nat k) &&
                (py =? y + dy) && true)).
    + intros dx. apply paints_setPixel.
    + intros px py. compare_all.
    + intros k px py. compare_all.
  - intros px py. compare_all.
  - intros k px py. compare_all.
Qed.

Lemma paints_if (t : bool) op c R :
  paints op c R ->
  paints (fun b => if t then op b else Some b) c
    (fun px py => t && R px py).
Proof.
  intros Hop. destruct t.
  - exact Hop.
  - apply paints_nothing.
Qed.

(** A square below [r * r] has its root between [- r] and [r]. *)
Lemma square_le_bound u v r :
  0 <= r -> u * u + v * v <= r * r -> - r <= u <= r /\ - r <= v <= r.
Proof. intros Hr H. nia. Qed.

Ltac compare_all_nia :=
  repeat match goal with
         | |- context [?a <=? ?b] => destruct (Z.leb_spec a b)
         | |- context [?a <? ?b] => destruct (Z.ltb_spec a b)
         | |- context [?a =? ?b] => destruct (Z.eqb_spec a b)
         end;
  cbn [andb orb negb]; try reflexivity;
  try (exfalso; subst;
       repeat match goal with
              | H : ?u * ?u + ?v * ?v <= ?r * ?r |- _ =>
                  let B := fresh "B" in
                  first [ assert (B : - r <= u <= r /\ - r <= v <= r)
                            by (apply square_le_bound; [lia | exact H]);
                          revert H
                        | revert H ]
              end; intros; nia).

(** The filled disk of [fillCircle]. *)
Lemma paints_fillCircle cx cy r c :
  paints (fillCircle cx cy r c) c
    (fun px py =>
       (0 <=? r) &&
       ((px - cx) * (px - cx) + (py - cy) * (py - cy) <=? r * r)).
Proof.
  unfold fillCircle.
  set (n := Z.to_nat (2 * r + 1)).
  apply (paints_ext _ _
           (fun px py =>
              ((px - cx) * (px - cx) + (py - cy) * (py - cy) <=? r * r) &&
              (- r <=? px - cx) && (px - cx <? - r + Z.of_nat n) &&
              (- r <=? py - cy) && (py - cy <? - r + Z.of_nat n))).
  { intros px py. subst n. compare_all_nia. }
  apply (paints_for_loop _ _ _ _
           (fun y px py =>
              ((px - cx) * (px - cx) + (py - cy) * (py - cy) <=? r * r) &&
              (- r <=? px - cx) && (px - cx <? - r + Z.of_nat n) &&
              (py =? cy + y))
           (fun k px py =>
              ((px - cx) * (px - cx) + (py - cy) * (py - cy) <=? r * r) &&
              (- r <=? px - cx) && (px - cx <? - r + Z.of_nat n) &&
              (- r <=? py - cy) && (py - cy <? - r + Z.of_nat k))).
  - intros y.
    apply (paints_for_loop _ _ _ _
             (fun x px py =>
                (x * x + y * y <=? r * r) &&
                ((px =? cx + x) && (py =? cy + y)))
             (fun k px py =>
                ((px - cx) * (px - cx) + (py - cy) * (py - cy) <=? r * r) &&
                (- r <=? px - cx) && (px - cx <? - r + Z.of_nat k) &&
                (py =? cy + y))).
    + intros x. apply paints_if, paints_setPixel.
    + intros px py. compare_all_nia.
    + intros k px py. compare_all_nia.
  - intros px py. compare_all_nia.
  - intros k px py. compare_all_nia.
Qed.

(** The loop of [drawLine] after [i] steps in [x] and [j] steps in [y]:
    it ends within its fuel, and it paints the cell it stands on, the end
    point, and only cells of the steps still to come. *)
Lemma drawLine_loop_paints (a b sx sy x0 y0 c : Z) :
  0 <= a -> 0 <= b -> (sx = 1 \/ sx = -1) -> (sy = 1 \/ sy = -1) ->
  forall fuel i j,
    0 <= i <= a -> 0 <= j <= b ->
    (a - i) + (b - j) < Z.of_nat fuel ->
    exists R,
      paints (drawLine_loop fuel a b sx sy (x0 + sx * a) (y0 + sy * b) c
                (x0 + sx * i) (y0 + sy * j) (a * (j + 1) - b * (i + 1)))
        c R /\
      R (x0 + sx * i) (y0 + sy * j) = true /\
      R (x0 + sx * a) (y0 + sy * b) = true /\
      (forall px py, R px py = true ->
         exists i' j', i <= i' <= a /\ j <= j' <= b /\
                       px = x0 + sx * i' /\ py = y0 + sy * j') /\
      (b = 0 -> forall i', i <= i' <= a ->
                R (x0 + sx * i') (y0 + sy * j) = true) /\
      (a = 0 -> forall j', j <= j' <= b ->
                R (x0 + sx * i) (y0 + sy * j') = true).
Proof.
  intros Ha Hb Hsx Hsy.
  induction fuel as [|fuel IH]; intros i j Hi Hj Hfuel; [lia|].
  set (x := x0 + sx * i). set (y := y0 + sy * j).
  destruct ((x =? x0 + sx * a) && (y =? y0 + sy * b)) eqn:Edone.
  { (* the end point is reached *)
    pose proof Edone as Edone'.
    apply andb_true_iff in Edone as [Ex Ey].
    apply Z.eqb_eq in Ex, Ey.
    assert (i = a) by (subst x; nia). assert (j = b) by (subst y; nia).
    exists (fun px py => (px =? x) && (py =? y)).
    split; [|split; [|split; [|split; [|split]]]].
    - intros buf Hwf. cbn [drawLine_loop]. fold x y.
      destruct (setPixel_cells buf x y c Hwf) as [b1 [-> H1]].
      rewrite Edone'. exists b1. split; [reflexivity | exact H1].
    - now rewrite !Z.eqb_refl.
    - rewrite <- Ex, <- Ey. now rewrite !Z.eqb_refl.
    - intros px py Hr. apply andb_true_iff in Hr as [Hx Hy].
      apply Z.eqb_eq in Hx, Hy. exists i, j. subst x y. lia.
    - intros _ i' Hi'. assert (i' = i) by lia. subst i'. fold x y.
      now rewrite !Z.eqb_refl.
    - intros _ j' Hj'. assert (j' = j) by lia. subst j'. fold x y.
      now rewrite !Z.eqb_refl. }
  assert (Hnot : i < a \/ j < b).
  { apply andb_false_iff in Edone as [E|E]; apply Z.eqb_neq in E.
    - left. assert (i <> a) by (intros ->; now apply E). lia.
    - right. assert (j <> b) by (intros ->; now apply E). lia. }
  set (err := a * (j + 1) - b * (i + 1)).
  assert (Hcase :
    exists i' j',
      i <= i' <= a /\ j <= j' <= b /\ (a - i') + (b - j') < Z.of_nat fuel /\
      (b = 0 -> i' = i + 1 /\ j' = j) /\ (a = 0 -> i' = i /\ j' = j + 1) /\
      forall buf,
        drawLine_loop (S fuel) a b sx sy (x0 + sx * a) (y0 + sy * b) c
          x y err buf =
        match setPixel x y c buf with
        | Some b1 =>
            drawLine_loop fuel a b sx sy (x0 + sx * a) (y0 + sy * b) c
              (x0 + sx * i') (y0 + sy * j')
              (a * (j' + 1) - b * (i' + 1)) b1
        | None => None
        end).
  { destruct (Z.ltb_spec (- b) (2 * err)) as [Ex|Ex];
      destruct (Z.ltb_spec (2 * err) a) as [Ey|Ey]; subst err.
    - exists (i + 1), (j + 1).
      assert (i < a) by nia. assert (j < b) by nia.
      repeat split; try lia. intros buf. cbn [drawLine_loop].
      destruct (setPixel x y c buf); [|reflexivity]. rewrite Edone.
      rewrite (proj2 (Z.ltb_lt _ _) Ex), (proj2 (Z.ltb_lt _ _) Ey).
      subst x y. f_equal; ring.
    - exists (i + 1), j. assert (i < a) by nia.
      repeat split; try lia; try nia. intros buf. cbn [drawLine_loop].
      destruct (setPixel x y c buf); [|reflexivity]. rewrite Edone.
      rewrite (proj2 (Z.ltb_lt _ _) Ex), (proj2 (Z.ltb_ge _ _) Ey).
      subst x y. f_equal; ring.
    - exists i, (j + 1). assert (j < b) by nia.
      repeat split; try lia; try nia. intros buf. cbn [drawLine_loop].
      destruct (setPixel x y c buf); [|reflexivity]. rewrite Edone.
      rewrite (proj2 (Z.ltb_ge _ _) Ex), (proj2 (Z.ltb_lt _ _) Ey).
      subst x y. f_equal; ring.
    - exfalso. nia. }
  destruct Hcase as [i' [j' [Hi' [Hj' [Hf' [Hb0 [Ha0 Hstep]]]]]]].
  destruct (IH i' j' ltac:(lia) ltac:(lia) Hf')
    as [R' [Hp' [Hcur' [Hend' [Hin' [Hrow' Hcol']]]]]].
  exists (fun px py => ((px =? x) && (py =? y)) || R' px py).
  split; [|split; [|split; [|split; [|split]]]].
  - intros buf Hwf. fold x y err. rewrite Hstep.
    destruct (setPixel_cells buf x y c Hwf) as [b1 [-> [Hwf1 [Hw1 [Hh1 Hc1]]]]].
    destruct (Hp' b1 Hwf1) as [b2 [E2 [Hwf2 [Hw2 [Hh2 Hc2]]]]].
    exists b2. split; [exact E2|]. split; [exact Hwf2|].
    split; [congruence|]. split; [congruence|].
    intros px py. rewrite Hc2, Hc1.
    rewrite (in_bounds_same_shape buf b1) by assumption.
    destruct (in_bounds buf px py); cbn [andb]; [|reflexivity].
    destruct (R' px py); destruct ((px =? x) && (py =? y)); reflexivity.
  - now rewrite !Z.eqb_refl.
  - rewrite Hend'. apply orb_true_r.
  - intros px py Hr. apply orb_true_iff in Hr as [Hr|Hr].
    + apply andb_true_iff in Hr as [Hx Hy]. apply Z.eqb_eq in Hx, Hy.
      exists i, j. subst x y. lia.
    + destruct (Hin' px py Hr) as [i2 [j2 H2]]. exists i2, j2. lia.
  - intros Hb00 i2 Hi2. destruct (Hb0 Hb00) as [-> ->]. cbv beta.
    subst x y. destruct (Z.eq_dec i2 i) as [->|Hne].
    + now rewrite !Z.eqb_refl.
    + rewrite (Hrow' Hb00 i2) by lia. apply orb_true_r.
  - intros Ha00 j2 Hj2. destruct (Ha0 Ha00) as [-> ->]. cbv beta.
    subst x y. destruct (Z.eq_dec j2 j) as [->|Hne].
    + now rewrite !Z.eqb_refl.
    + rewrite (Hcol' Ha00 j2) by lia. apply orb_true_r.
Qed.

(** [drawLine] between any two integer points. *)
Lemma drawLine_paints x0 y0 x1 y1 c :
  exists R,
    paints (drawLine x0 y0 x1 y1 c) c R /\
    R x0 y0 = true /\ R x1 y1 = true /\
    (forall px py, R px py = true ->
       Z.min x0 x1 <= px <= Z.max x0 x1 /\
       Z.min y0 y1 <= py <= Z.max y0 y1) /\
    (y0 = y1 -> forall px, Z.min x0 x1 <= px <= Z.max x0 x1 ->
                R px y0 = true) /\
    (x0 = x1 -> forall py, Z.min y0 y1 <= py <= Z.max y0 y1 ->
                R x0 py = true).
Proof.
  unfold drawLine.
  set (a := Z.abs (x1 - x0)). set (b := Z.abs (y1 - y0)).
  set (sx := if x0 <? x1 then 1 else -1).
  set (sy := if y0 <? y1 then 1 else -1).
  assert (Hx1 : x1 = x0 + sx * a).
  { subst sx a. destruct (Z.ltb_spec x0 x1); lia. }
  assert (Hy1 : y1 = y0 + sy * b).
  { subst sy b. destruct (Z.ltb_spec y0 y1); lia. }
  assert (Hsx : sx = 1 \/ sx = -1) by (subst sx; destruct (x0 <? x1); auto).
  assert (Hsy : sy = 1 \/ sy = -1) by (subst sy; destruct (y0 <? y1); auto).
  assert (Ha : 0 <= a) by (subst a; lia).
  assert (Hb : 0 <= b) by (subst b; lia).
  destruct (drawLine_loop_paints a b sx sy x0 y0 c Ha Hb Hsx Hsy
              (Z.to_nat (a + b + 1)) 0 0 ltac:(lia) ltac:(lia) ltac:(lia))
    as [R [Hp [Hcur [Hend [Hin [Hrow Hcol]]]]]].
  rewrite <- Hx1, <- Hy1 in Hp, Hend.
  replace (x0 + sx * 0) with x0 in * by lia.
  replace (y0 + sy * 0) with y0 in * by lia.
  replace (a * (0 + 1) - b * (0 + 1)) with (a - b) in Hp by lia.
  exists R. split; [exact Hp|]. split; [exact Hcur|]. split; [exact Hend|].
  split; [|split].
  - intros px py Hr. destruct (Hin px py Hr) as [i [j [Hi [Hj [-> ->]]]]].
    destruct Hsx as [-> | ->]; destruct Hsy as [-> | ->]; lia.
  - intros Hy px Hpx. assert (Hb0 : b = 0) by (subst b; lia).
    destruct Hsx as [E | E].
    + specialize (Hrow Hb0 (px - x0) ltac:(rewrite E in Hx1; lia)).
      rewrite E in Hrow. replace (x0 + 1 * (px - x0)) with px in Hrow by lia.
      exact Hrow.
    + specialize (Hrow Hb0 (x0 - px) ltac:(rewrite E in Hx1; lia)).
      rewrite E in Hrow. replace (x0 + -1 * (x0 - px)) with px in Hrow by lia.
      exact Hrow.
  - intros Hx py Hpy. assert (Ha0 : a = 0) by (subst a; lia).
    destruct Hsy as [E | E].
    + specialize (Hcol Ha0 (py - y0) ltac:(rewrite E in Hy1; lia)).
      rewrite E in Hcol. replace (y0 + 1 * (py - y0)) with py in Hcol by lia.
      exact Hcol.
    + specialize (Hcol Ha0 (y0 - py) ltac:(rewrite E in Hy1; lia)).
      rewrite E in Hcol. replace (y0 + -1 * (y0 - py)) with py in Hcol by lia.
      exact Hcol.
Qed.

(** X1. A pixel set inside the bounds is read back, and no other cell
    changes. *)
Theorem setPixel_then_getPixel (b : PixelBuffer.t) (x y : Z)
    (c : ColorIndex) :
  wf b -> in_bounds b x y = true ->
  exists b',
    setPixel x y c b = Some b' /\
    getPixel x y b' = Some c /\
    forall px py, px <> x \/ py <> y ->
      getPixel px py b' = getPixel px py b.
Proof.
  intros Hwf Hin.
  destruct (setPixel_cells b x y c Hwf) as [b' [E [_ [_ [_ Hc]]]]].
  exists b'. split; [exact E|]. split.
  - rewrite Hc, Hin, !Z.eqb_refl. reflexivity.
  - intros px py Hne. rewrite Hc.
    destruct (Z.eqb_spec px x); destruct (Z.eqb_spec py y);
      rewrite ?andb_false_r; cbn [andb]; try reflexivity.
    lia.
Qed.

Lemma setPixel_then_getPixel_witness :
  exists b',
    setPixel 5 5 1 (make 16 16) = Some b' /\
    getPixel 5 5 b' = Some 1 /\
    forall px py, px <> 5 \/ py <> 5 ->
      getPixel px py b' = getPixel px py (make 16 16).
Proof.
  apply (setPixel_then_getPixel (make 16 16) 5 5 1 (make_wf 16 16)).
  reflexivity.
Defined.

(** X2. On arguments of magnitude at most 2^26, [fillRect] sets the cells
    of the rectangle that lie within the bounds, and no other. *)
Theorem fillRect_cells (b : PixelBuffer.t) (x y w h : Z) (c : ColorIndex) :
  wf b -> small_int x -> small_int y -> small_int w -> small_int h ->
  exists b',
    fillRect x y w h c b = Some b' /\
    forall px py,
      getPixel px py b' =
      if in_bounds b px py &&
         ((x <=? px) && (px <? x + w) && (y <=? py) && (py <? y + h))
      then Some c else getPixel px py b.
Proof.
  intros Hwf _ _ _ _.
  destruct (paints_fillRect x y w h c b Hwf) as [b' [E [_ [_ [_ Hc]]]]].
  exists b'. split; [exact E | exact Hc].
Qed.

Lemma fillRect_cells_witness :
  exists b',
    fillRect 14 (-2) 5 4 3 (make 16 16) = Some b' /\
    getPixel 15 1 b' = Some 3 /\ getPixel 13 1 b' = Some (-1) /\
    getPixel 16 1 b' = Some (-1).
Proof.
  destruct (fillRect_cells (make 16 16) 14 (-2) 5 4 3 (make_wf 16 16)
              ltac:(unfold small_int; lia) ltac:(unfold small_int; lia)
              ltac:(unfold small_int; lia) ltac:(unfold small_int; lia))
    as [b' [E Hc]].
  exists b'. split; [exact E|].
  rewrite !Hc. repeat split.
Defined.

(** X3. On arguments of magnitude at most 2^26, [fillCircle] sets the
    cells of the disk [(x - cx)^2 + (y - cy)^2 <= r^2] that lie within the
    bounds, and no other; a negative radius sets nothing. *)
Theorem fillCircle_cells (b : PixelBuffer.t) (cx cy r : Z) (c : ColorIndex) :
  wf b -> small_int cx -> small_int cy -> small_int r ->
  exists b',
    fillCircle cx cy r c b = Some b' /\
    forall px py,
      getPixel px py b' =
      if in_bounds b px py &&
         ((0 <=? r) &&
          ((px - cx) * (px - cx) + (py - cy) * (py - cy) <=? r * r))
      then Some c else getPixel px py b.
Proof.
  intros Hwf _ _ _.
  destruct (paints_fillCircle cx cy r c b Hwf) as [b' [E [_ [_ [_ Hc]]]]].
  exists b'. split; [exact E | exact Hc].
Qed.

Lemma fillCircle_cells_witness :
  exists b',
    fillCircle 8 8 3 1 (make 16 16) = Some b' /\
    getPixel 8 8 b' = Some 1 /\ getPixel 6 8 b' = Some 1 /\
    getPixel 10 8 b' = Some 1 /\ getPixel 8 6 b' = Some 1 /\
    getPixel 8 10 b' = Some 1 /\ getPixel 11 11 b' = Some (-1).
Proof.
  destruct (fillCircle_cells (make 16 16) 8 8 3 1 (make_wf 16 16)
              ltac:(unfold small_int; lia) ltac:(unfold small_int; lia)
              ltac:(unfold small_int; lia))
    as [b' [E Hc]].
  exists b'. split; [exact E|].
  rewrite !Hc. repeat split.
Defined.

(** X4. [drawLine] returns for all end points of magnitude at most
    2^26; both end points are painted when they lie within the bounds,
    every cell that changes takes the color of the line, and no cell
    outside the bounding box of the end points changes. *)
Theorem drawLine_end_points (b : PixelBuffer.t) (x0 y0 x1 y1 : Z)
    (c : ColorIndex) :
  wf b -> small_int x0 -> small_int y0 -> small_int x1 -> small_int y1 ->
  exists b',
    drawLine x0 y0 x1 y1 c b = Some b' /\ wf b' /\
    (in_bounds b x0 y0 = true -> getPixel x0 y0 b' = Some c) /\
    (in_bounds b x1 y1 = true -> getPixel x1 y1 b' = Some c) /\
    forall px py,
      (getPixel px py b' = Some c \/ getPixel px py b' = getPixel px py b) /\
      (~ (Z.min x0 x1 <= px <= Z.max x0 x1 /\
          Z.min y0 y1 <= py <= Z.max y0 y1) ->
       getPixel px py b' = getPixel px py b).
Proof.
  intros Hwf _ _ _ _.
  destruct (drawLine_paints x0 y0 x1 y1 c)
    as [R [Hp [H0 [H1 [Hbox _]]]]].
  destruct (Hp b Hwf) as [b' [E [Hwf' [_ [_ Hc]]]]].
  exists b'. split; [exact E|]. split; [exact Hwf'|].
  split; [|split].
  - intros Hin. now rewrite Hc, Hin, H0.
  - intros Hin. now rewrite Hc, Hin, H1.
  - intros px py. rewrite Hc. split.
    + destruct (in_bounds b px py && R px py); auto.
    + intros Hout. destruct (R px py) eqn:Er.
      * exfalso. apply Hout. now apply Hbox.
      * now rewrite andb_false_r.
Qed.

Lemma drawLine_end_points_witness :
  exists b',
    drawLine 12 3 (-4) 9 2 (make 16 16) = Some b' /\
    getPixel 12 3 b' = Some 2 /\ getPixel 12 10 b' = Some (-1).
Proof.
  destruct (drawLine_end_points (make 16 16) 12 3 (-4) 9 2 (make_wf 16 16)
              ltac:(unfold small_int; lia) ltac:(unfold small_int; lia)
              ltac:(unfold small_int; lia) ltac:(unfold small_int; lia))
    as [b' [E [_ [H0 [_ Hc]]]]].
  exists b'. split; [exact E|]. split.
  - apply H0. reflexivity.
  - rewrite (proj2 (Hc 12 10)); [reflexivity|]. cbn. lia.
Defined.

(** X5. Between end points of magnitude at most 2^26, a horizontal line
    paints exactly the cells of its row between the end points, a
    vertical line those of its column. *)
Theorem drawLine_axis_aligned (b : PixelBuffer.t) (x0 y0 x1 y1 : Z)
    (c : ColorIndex) :
  wf b -> small_int x0 -> small_int y0 -> small_int x1 -> small_int y1 ->
  x0 = x1 \/ y0 = y1 ->
  exists b',
    drawLine x0 y0 x1 y1 c b = Some b' /\
    forall px py,
      getPixel px py b' =
      if in_bounds b px py &&
         ((Z.min x0 x1 <=? px) && (px <=? Z.max x0 x1) &&
          (Z.min y0 y1 <=? py) && (py <=? Z.max y0 y1))
      then Some c else getPixel px py b.
Proof.
  intros Hwf _ _ _ _ Haxis.
  destruct (drawLine_paints x0 y0 x1 y1 c)
    as [R [Hp [_ [_ [Hbox [Hrow Hcol]]]]]].
  destruct (Hp b Hwf) as [b' [E [_ [_ [_ Hc]]]]].
  exists b'. split; [exact E|]. intros px py. rewrite Hc.
  destruct (in_bounds b px py); cbn [andb]; [|reflexivity].
  destruct (R px py) eqn:Er.
  - destruct (Hbox px py Er) as [Hx Hy].
    rewrite (proj2 (Z.leb_le _ _) (proj1 Hx)), (proj2 (Z.leb_le _ _) (proj2 Hx)),
      (proj2 (Z.leb_le _ _) (proj1 Hy)), (proj2 (Z.leb_le _ _) (proj2 Hy)).
    reflexivity.
  - destruct ((Z.min x0 x1 <=? px) && (px <=? Z.max x0 x1) &&
              (Z.min y0 y1 <=? py) && (py <=? Z.max y0 y1)) eqn:Ebox;
      [|reflexivity].
    exfalso. rewrite !andb_true_iff, !Z.leb_le in Ebox.
    destruct Haxis as [Hx | Hy].
    + assert (px = x0) by lia. subst px.
      rewrite (Hcol Hx py) in Er by lia. discriminate.
    + assert (py = y0) by lia. subst py.
      rewrite (Hrow Hy px) in Er by lia. discriminate.
Qed.

Lemma drawLine_axis_aligned_witness :
  exists b',
    drawLine 6 5 2 5 1 (make 16 16) = Some b' /\
    getPixel 2 5 b' = Some 1 /\ getPixel 4 5 b' = Some 1 /\
    getPixel 6 5 b' = Some 1 /\ getPixel 7 5 b' = Some (-1).
Proof.
  destruct (drawLine_axis_aligned (make 16 16) 6 5 2 5 1 (make_wf 16 16)
              ltac:(unfold small_int; lia) ltac:(unfold small_int; lia)
              ltac:(unfold small_int; lia) ltac:(unfold small_int; lia)
              (or_intror eq_refl)) as [b' [E Hc]].
  exists b'. split; [exact E|].
  rewrite !Hc. repeat split.
Defined.

Lemma make_cells w h px py : getPixel px py (make w h) = Some transparent.
Proof.
  unfold getPixel. destruct (in_bounds (make w h) px py) eqn:E;
    [|reflexivity].
  apply in_bounds_true in E as [Hx Hy]. cbn [width height make] in Hx, Hy.
  unfold read. cbn [buffer make]. rewrite js_index_lookup by lia.
  rewrite lookup_replicate_2 by lia. rewrite js_index_lookup by lia.
  apply lookup_replicate_2. lia.
Qed.

(** Writing [v] to every cell of a grid gives the grid of [v]s. *)
Lemma fill_grid {A} (w h : nat) (v : A) (rows : list (list A)) :
  grid_wf w h rows ->
  for_loop h 0 (fun y =>
    for_loop w 0 (fun x rows => write rows y x v)) rows =
  Some (replicate h (replicate w v)).
Proof.
  intros Hwf.
  destruct (for_loop_invariant
              (fun k cur =>
                 grid_wf w h cur /\
                 forall y x, 0 <= y < Z.of_nat k -> 0 <= x < Z.of_nat w ->
                   read cur y x = Some v)
              h 0
              (fun y => for_loop w 0 (fun x rows => write rows y x v))
              rows) as [rows' [E [Hwf' Hc]]].
  - split; [exact Hwf|]. intros; lia.
  - intros k cur Hk [Hcur Hcells]. rewrite Z.add_0_l.
    destruct (for_loop_invariant
                (fun j cur' =>
                   grid_wf w h cur' /\
                   forall y x, 0 <= y < Z.of_nat h -> 0 <= x < Z.of_nat w ->
                     (y < Z.of_nat k \/ (y = Z.of_nat k /\ x < Z.of_nat j)) ->
                     read cur' y x = Some v)
                w 0 (fun x rows => write rows (Z.of_nat k) x v) cur)
      as [cur' [E' [Hwf' Hc']]].
    + split; [exact Hcur|]. intros y x Hy Hx [H|H]; [|lia].
      apply Hcells; lia.
    + intros j c1 Hj [Hc1 Hcells1]. rewrite Z.add_0_l.
      destruct (write_in_bounds w h c1 (Z.of_nat k) (Z.of_nat j) v Hc1)
        as [row [_ [_ [Ew Hwf2]]]]; [lia | lia |].
      eexists. split; [exact Ew|]. split; [exact Hwf2|].
      intros y x Hy Hx Hdone.
      rewrite (read_after_write w h c1 (Z.of_nat k) (Z.of_nat j) v _ y x Hc1)
        by (first [lia | exact Ew]).
      destruct (decide _) as [_|N]; [reflexivity|].
      apply Hcells1; lia.
    + exists cur'. split; [exact E'|]. split; [exact Hwf'|].
      intros y x Hy Hx. apply Hc'; lia.
  - rewrite E. f_equal.
    apply (grid_ext w h); [exact Hwf' | apply grid_wf_replicate |].
    intros y x Hy Hx. rewrite Hc by lia.
    unfold read. rewrite js_index_lookup by lia.
    rewrite lookup_replicate_2 by lia. rewrite js_index_lookup by lia.
    symmetry. apply lookup_replicate_2. lia.
Qed.

(** X6. [clear] resets every cell: it returns the buffer that the
    constructor makes for the same dimensions, all of whose cells are
    transparent. *)
Theorem clear_resets (b : PixelBuffer.t) :
  wf b ->
  clear b = Some (make (width b) (height b)) /\
  forall px py, getPixel px py (make (width b) (height b)) = Some (-1).
Proof.
  intros Hwf. split; [|intros px py; apply make_cells].
  unfold clear. now rewrite (fill_grid _ _ transparent (buffer b) Hwf).
Qed.

Lemma clear_resets_witness :
  clear {| width := 2; height := 2; buffer := [[3; -1]; [0; 7]] |} =
    Some (make 2 2) /\
  forall px py, getPixel px py (make 2 2) = Some (-1).
Proof.
  apply (clear_resets {| width := 2; height := 2;
                         buffer := [[3; -1]; [0; 7]] |}).
  split; [reflexivity | repeat constructor].
Defined.

(** The columns of a mirrored buffer. *)
Lemma mirror_symmetric (b : PixelBuffer.t) :
  wf b ->
  exists b',
    mirrorVertically b = Some b' /\
    forall x y,
      getPixel (Z.of_nat (width b) - 1 - x) y b' = getPixel x y b'.
Proof.
  intros Hwf.
  destruct (mirrorVertically_cells b Hwf) as [b' [E [Hwf' [Hw [Hh Hc]]]]].
  exists b'. split; [exact E|]. intros x y.
  assert (Hle : (2 * (width b / 2) <= width b < 2 * (width b / 2) + 2)%nat).
  { pose proof (Nat.div_mod_eq (width b) 2).
    pose proof (Nat.mod_upper_bound (width b) 2). lia. }
  unfold getPixel.
  destruct (in_bounds b' x y) eqn:Ein.
  - pose proof Ein as Ein'. apply in_bounds_true in Ein' as [Hx Hy].
    rewrite Hw in Hx. rewrite Hh in Hy.
    rewrite (proj2 (in_bounds_true b' _ y)) by (rewrite Hw, Hh; lia).
    rewrite !Hc by lia.
    repeat destruct (decide _); try reflexivity; try lia;
      f_equal; lia.
  - replace (in_bounds b' (Z.of_nat (width b) - 1 - x) y) with false;
      [reflexivity|].
    symmetry. apply not_true_iff_false. intros Hin.
    apply in_bounds_true in Hin as [Hx Hy]. rewrite Hw in Hx.
    assert (in_bounds b' x y = true)
      by (apply in_bounds_true; rewrite Hw; lia).
    congruence.
Qed.

(** X7. After [mirrorVertically] the buffer is symmetric: the cells at
    [(x, y)] and [(width - 1 - x, y)] are equal, for every cell. *)
Theorem mirrorVertically_symmetric (b : PixelBuffer.t) :
  wf b ->
  exists b',
    mirrorVertically b = Some b' /\
    forall x y,
      getPixel (Z.of_nat (width b) - 1 - x) y b' = getPixel x y b'.
Proof. exact (mirror_symmetric b). Qed.

Lemma mirrorVertically_symmetric_witness :
  exists b',
    mirrorVertically
      {| width := 4; height := 1; buffer := [[1; 2; 3; 4]] |} = Some b' /\
    forall x y, getPixel (Z.of_nat 4 - 1 - x) y b' = getPixel x y b'.
Proof.
  apply (mirrorVertically_symmetric
           {| width := 4; height := 1; buffer := [[1; 2; 3; 4]] |}).
  split; [reflexivity | repeat constructor].
Defined.

End Painting.


(** ** The generator: what the draws can be *)

Section Draws.

Import XorShift32.

Lemma int_range max s : 0 < max -> 0 <= fst (int max s) < max.
Proof.
  intros Hmax. unfold int. destruct (next s) as [n s']. cbn [fst].
  apply Z.mod_pos_bound, Hmax.
Qed.

Lemma int_state max s : snd (int max s) = snd (next s).
Proof. unfold int. now destruct (next s). Qed.

(** X8. [pick] on a non-empty array returns one of its elements, the one
    at the index [int(array.length)] draws; that index is within the
    array, and the generator has advanced by one draw. *)
Theorem pick_member {A} (d : A) (array : list A) (s : XorShift32.t) :
  array <> [] ->
  exists i : nat,
    (i < length array)%nat /\
    fst (int (Z.of_nat (length array)) s) = Z.of_nat i /\
    array !! i = Some (fst (pick d array s)) /\
    In (fst (pick d array s)) array /\
    snd (pick d array s) = snd (next s).
Proof.
  intros Hne.
  assert (Hlen : 0 < Z.of_nat (length array)).
  { destruct array; [congruence | cbn; lia]. }
  pose proof (int_range _ s Hlen) as Hi.
  unfold pick. destruct (int (Z.of_nat (length array)) s) as [i s'] eqn:E.
  cbn [fst snd] in *.
  exists (Z.to_nat i). split; [lia|]. split; [lia|].
  destruct (lookup_lt_is_Some_2 array (Z.to_nat i)) as [x Hx]; [lia|].
  assert (Hin : In (nth (Z.to_nat i) array d) array)
    by (apply nth_In; lia).
  rewrite (nth_lookup_Some _ _ d _ Hx) in *.
  split; [exact Hx|]. split.
  - exact Hin.
  - pose proof (f_equal snd E) as E'. rewrite int_state in E'.
    symmetry. exact E'.
Qed.

Lemma pick_member_witness :
  exists i : nat,
    (i < 3)%nat /\
    fst (int 3 (make 7)) = Z.of_nat i /\
    [10; 20; 30] !! i = Some (fst (pick 0 [10; 20; 30] (make 7))) /\
    In (fst (pick 0 [10; 20; 30] (make 7))) [10; 20; 30] /\
    snd (pick 0 [10; 20; 30] (make 7)) = snd (next (make 7)).
Proof.
  apply (pick_member 0 [10; 20; 30] (make 7)). discriminate.
Defined.

(** X9. A generator built from a seed in [0, 2^32) never reaches the
    zero state: after any number of draws the state is not 0, the next
    draw lies in [1, 2^32 - 1] and [float()] lies strictly between 0
    and 1. *)
Theorem seeded_draws_positive (seed : Z) (k : nat) :
  0 <= seed < 4294967296 ->
  after k (make seed) <> 0 /\
  1 <= fst (next (after k (make seed))) <= 4294967295 /\
  (0 < fst (float (after k (make seed))) < 1)%Q.
Proof.
  intros Hs.
  assert (Hnz : JS.to_uint32 (after k (make seed)) <> 0).
  { apply after_nonzero, make_nonzero_uint32. exact Hs. }
  pose proof (next_nonzero _ Hnz) as Hn.
  rewrite <- next_value_state in Hn.
  pose proof (next_range (after k (make seed))) as Hr.
  split; [now apply to_uint32_nonzero|]. split; [lia|].
  unfold float. destruct (next (after k (make seed))) as [n s'].
  cbn [fst] in *. unfold Qlt. cbn [Qnum Qden]. lia.
Qed.

Lemma seeded_draws_positive_witness :
  after 3 (make 0) <> 0 /\
  1 <= fst (next (after 3 (make 0))) <= 4294967295 /\
  (0 < fst (float (after 3 (make 0))) < 1)%Q.
Proof. apply (seeded_draws_positive 0 3). lia. Defined.

(** Each xorshift step is injective on the low 32 bits. *)
Lemma to_uint32_eq_bits x y :
  JS.to_uint32 x = JS.to_uint32 y <->
  (forall i, 0 <= i < 32 -> Z.testbit x i = Z.testbit y i).
Proof.
  split.
  - intros H i Hi.
    now rewrite <- (to_uint32_bits x), <- (to_uint32_bits y), H by lia.
  - intros H. apply Z.bits_inj'. intros i Hi.
    destruct (Z_lt_ge_dec i 32).
    + rewrite !to_uint32_bits by lia. apply H. lia.
    + now rewrite !to_uint32_bits_high by lia.
Qed.

Lemma xor_shl_inj x y k :
  0 < k ->
  JS.to_uint32 (JS.xor x (JS.shl x k)) = JS.to_uint32 (JS.xor y (JS.shl y k)) ->
  JS.to_uint32 x = JS.to_uint32 y.
Proof.
  intros Hk H. rewrite to_uint32_eq_bits in H.
  apply to_uint32_eq_bits.
  intros i. pattern i. apply (well_founded_induction (Z.lt_wf 0)).
  clear i. intros i IH Hi.
  specialize (H i Hi).
  rewrite !xor_bits, !shl_bits in H by lia.
  destruct (i <? k) eqn:E.
  - now rewrite !xorb_false_r in H.
  - apply Z.ltb_ge in E.
    rewrite (IH (i - k)) in H by lia.
    now apply xorb_move_l_r_2 in H; rewrite xorb_assoc, xorb_nilpotent,
      xorb_false_r in H.
Qed.

Lemma xor_shr_u_inj x y k :
  0 < k ->
  JS.to_uint32 (JS.xor x (JS.shr_u x k)) =
  JS.to_uint32 (JS.xor y (JS.shr_u y k)) ->
  JS.to_uint32 x = JS.to_uint32 y.
Proof.
  intros Hk H. rewrite to_uint32_eq_bits in H.
  apply to_uint32_eq_bits.
  assert (G : forall d, 0 <= d -> forall i,
            31 - d <= i < 32 -> 0 <= i -> Z.testbit x i = Z.testbit y i).
  { intros d Hd. pattern d. apply natlike_ind; [| |exact Hd].
    - intros i Hi Hi0. specialize (H i ltac:(lia)).
      rewrite !xor_bits, !shr_u_bits in H by lia.
      replace (i + k <? 32) with false in H
        by (symmetry; apply Z.ltb_ge; lia).
      now rewrite !xorb_false_r in H.
    - intros e He IHe i Hi Hi0. specialize (H i ltac:(lia)).
      rewrite !xor_bits, !shr_u_bits in H by lia.
      destruct (i + k <? 32) eqn:E.
      + apply Z.ltb_lt in E.
        rewrite (IHe (i + k)) in H by lia.
        now apply xorb_move_l_r_2 in H; rewrite xorb_assoc, xorb_nilpotent,
          xorb_false_r in H.
      + now rewrite !xorb_false_r in H. }
  intros i Hi. apply (G 31); lia.
Qed.

Lemma next_state s :
  snd (next s) =
  JS.xor (JS.xor (JS.xor s (JS.shl s 13))
            (JS.shr_u (JS.xor s (JS.shl s 13)) 17))
    (JS.shl (JS.xor (JS.xor s (JS.shl s 13))
               (JS.shr_u (JS.xor s (JS.shl s 13)) 17)) 5).
Proof. reflexivity. Qed.

(** X10. [next] is injective on 32-bit states: two generators whose
    states differ in their low 32 bits return different numbers, and
    their new states differ again, so two streams never merge. *)
Theorem next_injective (s1 s2 : XorShift32.t) :
  JS.to_uint32 s1 <> JS.to_uint32 s2 ->
  fst (next s1) <> fst (next s2) /\
  JS.to_uint32 (snd (next s1)) <> JS.to_uint32 (snd (next s2)).
Proof.
  intros Hne.
  assert (G : JS.to_uint32 (snd (next s1)) <> JS.to_uint32 (snd (next s2))).
  { intros H. apply Hne. rewrite !next_state in H.
    apply xor_shl_inj in H; [|lia].
    apply xor_shr_u_inj in H; [|lia].
    apply xor_shl_inj in H; [|lia]. exact H. }
  split; [|exact G]. rewrite !next_value_state. exact G.
Qed.

Lemma next_injective_witness :
  fst (next (make 1)) <> fst (next (make 2)).
Proof.
  apply (next_injective (make 1) (make 2)). vm_compute. discriminate.
Defined.

End Draws.

(** ** emailToSeed: the hash and the seed *)

Section Hashing.

Local Open Scope string_scope.

Lemma to_int32_shift z : exists q, JS.to_int32 z = z + q * 4294967296.
Proof.
  unfold JS.to_int32, JS.two31, JS.two32.
  exists (- ((z + 2147483648) / 4294967296)).
  pose proof (Z.div_mod (z + 2147483648) 4294967296). lia.
Qed.

Lemma to_int32_add_multiple z q :
  JS.to_int32 (z + q * 4294967296) = JS.to_int32 z.
Proof.
  unfold JS.to_int32, JS.two31, JS.two32. f_equal.
  replace (z + q * 4294967296 + 2147483648)
    with (z + 2147483648 + q * 4294967296) by lia.
  apply Z.mod_add. lia.
Qed.

Lemma to_int32_small z :
  - JS.two31 <= z < JS.two31 -> JS.to_int32 z = z.
Proof.
  unfold JS.to_int32, JS.two31, JS.two32. intros H.
  rewrite Z.mod_small by lia. lia.
Qed.

(** [(hash << 5) - hash] is [31 * hash], up to the truncation. *)
Lemma hash_step_horner h c :
  hash_step h c = JS.to_int32 (31 * h + c).
Proof.
  unfold hash_step, JS.and. rewrite Z.land_diag.
  unfold JS.shl. rewrite Z.shiftl_mul_pow2 by lia.
  change (2 ^ 5) with 32.
  destruct (to_int32_shift h) as [q1 ->].
  destruct (to_int32_shift ((h + q1 * 4294967296) * 32)) as [q2 ->].
  replace ((h + q1 * 4294967296) * 32 + q2 * 4294967296 - h + c)
    with (31 * h + c + (32 * q1 + q2) * 4294967296) by lia.
  apply to_int32_add_multiple.
Qed.

Lemma horner31_shift s : forall h q,
  exists q', horner31 s (h + q * 4294967296) = horner31 s h + q' * 4294967296.
Proof.
  induction s as [|c s IH]; intros h q; cbn [horner31].
  - now exists q.
  - replace (31 * (h + q * 4294967296) + charCode c)
      with (31 * h + charCode c + (31 * q) * 4294967296) by lia.
    apply IH.
Qed.

Lemma hash_loop_horner s : forall h,
  JS.to_int32 (hash_loop s h) = JS.to_int32 (horner31 s h).
Proof.
  induction s as [|c s IH]; intros h; [reflexivity|].
  cbn [hash_loop horner31]. rewrite IH, hash_step_horner.
  destruct (to_int32_shift (31 * h + charCode c)) as [q ->].
  destruct (horner31_shift s (31 * h + charCode c) q) as [q' ->].
  apply to_int32_add_multiple.
Qed.

(** X11. The seed is the absolute value of a polynomial hash: the code
    units of the trimmed, lower-cased address followed by the salt are
    combined by Horner's rule in base 31, and the truncations to 32 bits
    inside the loop amount to one truncation at the end.  The seed lies
    in [0, 2^31]. *)
Theorem emailToSeed_polynomial (email salt : string) :
  emailToSeed email salt =
  Z.abs (JS.to_int32 (horner31 (toLowerCase (trim email) ++ salt) 0)) /\
  0 <= emailToSeed email salt <= 2147483648.
Proof.
  split; [|apply emailToSeed_range].
  unfold emailToSeed. f_equal.
  rewrite <- hash_loop_horner. symmetry. apply to_int32_small.
  apply hash_loop_range. unfold JS.two31. lia.
Qed.

(** X12. A generator seeded by [emailToSeed] never reaches the zero
    state, whatever the address and the salt: every draw is positive. *)
Theorem emailToSeed_generator_nonzero (email salt : string) (k : nat) :
  let g := XorShift32.make (emailToSeed email salt) in
  XorShift32.after k g <> 0 /\
  1 <= fst (XorShift32.next (XorShift32.after k g)) <= 4294967295.
Proof.
  intros g.
  assert (Hs : 0 <= emailToSeed email salt < JS.two32).
  { pose proof (emailToSeed_range email salt).
    unfold JS.two31, JS.two32 in *. lia. }
  assert (Hnz : JS.to_uint32 (XorShift32.after k g) <> 0).
  { apply after_nonzero, make_nonzero_uint32. exact Hs. }
  pose proof (next_nonzero _ Hnz) as Hn.
  rewrite <- next_value_state in Hn.
  pose proof (next_range (XorShift32.after k g)) as Hr.
  split; [now apply to_uint32_nonzero | lia].
Qed.

Lemma append_assoc_string (a b c : string) : (a ++ b) ++ c = a ++ (b ++ c).
Proof.
  induction a as [|x a IH]; [reflexivity|].
  change (String x ((a ++ b) ++ c) = String x (a ++ (b ++ c))).
  now rewrite IH.
Qed.

(** X13. The salt is appended without a separator: moving characters
    from the end of a normalised address to the front of the salt gives
    the same seed. *)
Theorem emailToSeed_salt_boundary (a b salt : string) :
  toLowerCase (trim (a ++ b)) = a ++ b ->
  toLowerCase (trim a) = a ->
  emailToSeed (a ++ b) salt = emailToSeed a (b ++ salt).
Proof.
  intros Hab Ha. unfold emailToSeed. rewrite Hab, Ha.
  now rewrite append_assoc_string.
Qed.

Lemma emailToSeed_salt_boundary_witness :
  emailToSeed "ann@example.com" "" = emailToSeed "ann@example" ".com".
Proof.
  apply (emailToSeed_salt_boundary "ann@example" ".com" ""); reflexivity.
Defined.

End Hashing.


(** ** Request validation: addresses and backgrounds *)

Section Requests.

Import Validation Exporters.
Local Open Scope string_scope.

Ltac bool_arith :=
  repeat match goal with
  | H : _ && _ = true |- _ => apply andb_true_iff in H; destruct H
  | H : _ || _ = true |- _ => apply orb_true_iff in H; destruct H
  | H : negb _ = true |- _ => apply negb_true_iff in H
  | H : (_ <=? _)%Z = true |- _ => apply Z.leb_le in H
  | H : (_ =? _)%Z = true |- _ => apply Z.eqb_eq in H
  | H : (_ =? _)%Z = false |- _ => apply Z.eqb_neq in H
  | H : _ && _ = false |- _ => apply andb_false_iff in H; destruct H
  | H : _ || _ = false |- _ => apply orb_false_iff in H; destruct H
  | H : negb _ = false |- _ => apply negb_false_iff in H
  | H : (_ <=? _)%Z = false |- _ => apply Z.leb_gt in H
  end.

Lemma toLowerChar_whitespace c :
  is_whitespace (toLowerChar c) = is_whitespace c.
Proof.
  unfold is_whitespace. rewrite toLowerChar_code.
  destruct (is_upper c) eqn:E; [|reflexivity].
  unfold is_upper in E. pose proof (charCode_range c).
  destruct (_ || _ || _) eqn:E1 at 1; destruct (_ || _ || _) eqn:E2 at 1;
    try reflexivity; exfalso; bool_arith; lia.
Qed.

Lemma toLowerChar_idempotent c :
  toLowerChar (toLowerChar c) = toLowerChar c.
Proof.
  apply charCode_inj. rewrite (toLowerChar_code (toLowerChar c)).
  destruct (is_upper (toLowerChar c)) eqn:E; [|reflexivity].
  exfalso. destruct (is_upper c) eqn:E'.
  - pose proof (toLowerChar_code c) as Hc. rewrite E' in Hc.
    unfold is_upper in E, E'. rewrite Hc in E. cbv zeta in *.
    bool_arith; lia.
  - unfold toLowerChar in E. rewrite E' in E. congruence.
Qed.

Lemma toLowerCase_idempotent s : toLowerCase (toLowerCase s) = toLowerCase s.
Proof.
  induction s as [|c s IH]; [reflexivity|].
  cbn [toLowerCase]. now rewrite IH, toLowerChar_idempotent.
Qed.

Lemma trimStart_toLowerCase s :
  trimStart (toLowerCase s) = toLowerCase (trimStart s).
Proof.
  induction s as [|c s IH]; [reflexivity|].
  cbn [toLowerCase trimStart]. rewrite toLowerChar_whitespace.
  destruct (is_whitespace c); [exact IH | reflexivity].
Qed.

Lemma trimEnd_toLowerCase s :
  trimEnd (toLowerCase s) = toLowerCase (trimEnd s).
Proof.
  induction s as [|c s IH]; [reflexivity|].
  cbn [toLowerCase trimEnd]. rewrite IH, toLowerChar_whitespace.
  destruct (trimEnd s); cbn [toLowerCase];
    [destruct (is_whitespace c)|]; reflexivity.
Qed.

(** A string is trimmed when it neither starts nor ends with white
    space. *)
Lemma trimEnd_idempotent s : trimEnd (trimEnd s) = trimEnd s.
Proof.
  induction s as [|c s IH]; [reflexivity|].
  cbn [trimEnd]. destruct (trimEnd s) as [|a r] eqn:E.
  - destruct (is_whitespace c) eqn:Ec; [reflexivity|].
    cbn [trimEnd]. now rewrite Ec.
  - cbn [trimEnd]. cbn [trimEnd] in IH. now rewrite IH.
Qed.

Lemma trimEnd_head c s :
  is_whitespace c = false ->
  exists r, trimEnd (String c s) = String c r.
Proof.
  intros Hc. cbn [trimEnd]. destruct (trimEnd s).
  - rewrite Hc. eauto.
  - eauto.
Qed.

Lemma trimStart_head s :
  trimStart s = "" \/
  exists c r, trimStart s = String c r /\ is_whitespace c = false.
Proof.
  induction s as [|c s IH]; [now left|].
  cbn [trimStart]. destruct (is_whitespace c) eqn:E; [exact IH|].
  right. eauto.
Qed.

Lemma trim_idempotent s : trim (trim s) = trim s.
Proof.
  unfold trim. destruct (trimStart_head s) as [-> | [c [r [-> Hc]]]].
  - reflexivity.
  - destruct (trimEnd_head c r Hc) as [r' E]. rewrite E.
    cbn [trimStart]. rewrite Hc, <- E. apply trimEnd_idempotent.
Qed.

Lemma trim_toLowerCase s : trim (toLowerCase s) = toLowerCase (trim s).
Proof.
  unfold trim. now rewrite trimStart_toLowerCase, trimEnd_toLowerCase.
Qed.

(** X14. [normalizeEmail] is idempotent, and [emailToSeed] gives the same
    seed on an address and on its normalised form: normalising before
    hashing changes nothing. *)
Theorem normalizeEmail_canonical (email salt : string) :
  normalizeEmail (normalizeEmail email) = normalizeEmail email /\
  emailToSeed (normalizeEmail email) salt = emailToSeed email salt.
Proof.
  assert (E : toLowerCase (trim (toLowerCase (trim email))) =
              toLowerCase (trim email)).
  { now rewrite trim_toLowerCase, trim_idempotent, toLowerCase_idempotent. }
  split.
  - exact E.
  - unfold emailToSeed, normalizeEmail. now rewrite E.
Qed.

(** X15. [validateBackground] returns its argument or ["transparent"];
    what it returns is ["transparent"], ["pattern"] or a [#] followed by
    three or six hexadecimal digits, and it accepts its own result. *)
Theorem validateBackground_result (bg : string) :
  let r := validateBackground bg in
  (r = bg \/ r = "transparent") /\
  (r = "transparent" \/ r = "pattern" \/
   exists digits,
     r = String "#" digits /\ all_hex digits = true /\
     (String.length digits = 6 \/ String.length digits = 3)%nat) /\
  validateBackground r = r.
Proof.
  cbv zeta. unfold validateBackground.
  destruct (String.eqb bg "transparent") eqn:E1.
  { apply String.eqb_eq in E1. subst bg. cbn. auto. }
  destruct (String.eqb bg "pattern") eqn:E2.
  { apply String.eqb_eq in E2. subst bg. cbn. auto. }
  cbn [orb]. destruct (hexRegex_test bg) eqn:E3.
  - rewrite E1, E2, E3. cbn [orb]. split; [auto|]. split; [|reflexivity].
    right; right. unfold hexRegex_test in E3.
    destruct bg as [|c digits]; [discriminate|].
    destruct (Ascii.eqb c "#") eqn:Ec.
    + apply Ascii.eqb_eq in Ec. subst c.
      apply andb_true_iff in E3 as [Hl Hh].
      exists digits. split; [reflexivity|]. split; [exact Hh|].
      apply orb_true_iff in Hl as [Hl | Hl]; apply Nat.eqb_eq in Hl; auto.
    + exfalso. apply Ascii.eqb_neq in Ec.
      destruct c as [[] [] [] [] [] [] [] []]; try discriminate.
      now apply Ec.
  - cbn. auto.
Qed.

(** The characters of the class [[A-Fa-f0-9]]. *)
Lemma hex_char_cases c :
  is_hex_char c = true ->
  In c [ "0"; "1"; "2"; "3"; "4"; "5"; "6"; "7"; "8"; "9";
         "a"; "b"; "c"; "d"; "e"; "f";
         "A"; "B"; "C"; "D"; "E"; "F" ]%char.
Proof.
  destruct c as [[] [] [] [] [] [] [] []]; intros H; vm_compute in H;
    try discriminate; cbn; tauto.
Qed.

Lemma hex_char_not_whitespace c :
  is_hex_char c = true -> is_whitespace c = false.
Proof.
  intros H. apply hex_char_cases in H. cbn in H.
  repeat (destruct H as [<- | H]; [reflexivity|]). destruct H.
Qed.

(** Two hexadecimal digits are read as the byte they spell. *)
Lemma parseInt16_byte a b :
  is_hex_char a = true -> is_hex_char b = true ->
  exists v, parseInt16 (String a (String b "")) = Some v /\ (0 <= v <= 255)%Z.
Proof.
  intros Ha Hb. apply hex_char_cases in Ha, Hb.
  set (L := [ "0"; "1"; "2"; "3"; "4"; "5"; "6"; "7"; "8"; "9";
              "a"; "b"; "c"; "d"; "e"; "f";
              "A"; "B"; "C"; "D"; "E"; "F" ]%char) in *.
  assert (G : forallb (fun a => forallb (fun b =>
                match parseInt16 (String a (String b "")) with
                | Some v => (0 <=? v)%Z && (v <=? 255)%Z
                | None => false
                end) L) L = true) by (vm_compute; reflexivity).
  rewrite forallb_forall in G. specialize (G a Ha).
  rewrite forallb_forall in G. specialize (G b Hb).
  destruct (parseInt16 (String a (String b ""))) as [v|]; [|discriminate].
  exists v. split; [reflexivity|].
  apply andb_true_iff in G as [G1 G2].
  apply Z.leb_le in G1, G2. lia.
Qed.

Lemma trimEnd_hex digits c :
  is_whitespace c = false -> all_hex digits = true ->
  trimEnd (String c digits) = String c digits.
Proof.
  revert c. induction digits as [|d digits IH]; intros c Hc Hd.
  - cbn [trimEnd]. now rewrite Hc.
  - cbn [all_hex] in Hd. apply andb_true_iff in Hd as [Hd Hds].
    change (trimEnd (String c (String d digits)))
      with (match trimEnd (String d digits) with
            | "" => if is_whitespace c then "" else String c ""
            | r => String c r
            end).
    now rewrite (IH d (hex_char_not_whitespace d Hd) Hds).
Qed.

Lemma hexToRgba_hex (hex : string) :
  hexRegex_test hex = true ->
  exists r g b,
    hexToRgba hex = (r, g, b, 255%Z) /\
    (0 <= r <= 255)%Z /\ (0 <= g <= 255)%Z /\ (0 <= b <= 255)%Z.
Proof.
  intros H. unfold hexRegex_test in H.
  destruct hex as [|c0 digits]; [discriminate|].
  destruct (Ascii.eqb c0 "#") eqn:Ec.
  2:{ exfalso. apply Ascii.eqb_neq in Ec.
      destruct c0 as [[] [] [] [] [] [] [] []]; try discriminate.
      now apply Ec. }
  apply Ascii.eqb_eq in Ec. subst c0.
  apply andb_true_iff in H as [Hl Hh].
  unfold hexToRgba.
  change (String.eqb (String "#" digits) "") with false. cbv iota.
  unfold trim. change (trimStart (String "#" digits)) with (String "#" digits).
  rewrite (trimEnd_hex digits "#" eq_refl Hh).
  apply orb_true_iff in Hl as [Hl | Hl]; apply Nat.eqb_eq in Hl.
  - destruct digits as [|c1 [|c2 [|c3 [|c4 [|c5 [|c6 [|c7 ?]]]]]]];
      try discriminate.
    cbn [all_hex] in Hh.
    repeat (apply andb_true_iff in Hh; destruct Hh as [? Hh]).
    destruct (parseInt16_byte c1 c2) as [r [Er Hr]]; [assumption..|].
    destruct (parseInt16_byte c3 c4) as [g [Eg Hg]]; [assumption..|].
    destruct (parseInt16_byte c5 c6) as [b [Eb Hb]]; [assumption..|].
    exists r, g, b.
    cbn [String.length Nat.eqb negb slice String.substring Nat.min Nat.sub
         double_chars].
    rewrite Er, Eg, Eb. auto.
  - destruct digits as [|c1 [|c2 [|c3 [|c4 ?]]]]; try discriminate.
    cbn [all_hex] in Hh.
    repeat (apply andb_true_iff in Hh; destruct Hh as [? Hh]).
    destruct (parseInt16_byte c1 c1) as [r [Er Hr]]; [assumption..|].
    destruct (parseInt16_byte c2 c2) as [g [Eg Hg]]; [assumption..|].
    destruct (parseInt16_byte c3 c3) as [b [Eb Hb]]; [assumption..|].
    exists r, g, b.
    cbn [String.length Nat.eqb negb slice String.substring Nat.min Nat.sub
         double_chars].
    rewrite Er, Eg, Eb. auto.
Qed.

(** X16. A background that [validateBackground] lets through as a colour
    is returned unchanged, and [hexToRgba] reads it as three components
    between 0 and 255 and the alpha 255. *)
Theorem hexToRgba_validated (bg : string) :
  validateBackground bg <> "transparent" ->
  validateBackground bg <> "pattern" ->
  validateBackground bg = bg /\
  exists r g b,
    hexToRgba bg = (r, g, b, 255%Z) /\
    (0 <= r <= 255)%Z /\ (0 <= g <= 255)%Z /\ (0 <= b <= 255)%Z.
Proof.
  unfold validateBackground.
  destruct (String.eqb bg "transparent") eqn:E1.
  { apply String.eqb_eq in E1. subst bg. intros H. now contradiction H. }
  destruct (String.eqb bg "pattern") eqn:E2.
  { apply String.eqb_eq in E2. subst bg. intros _ H. now contradiction H. }
  cbn [orb]. destruct (hexRegex_test bg) eqn:E3.
  - intros _ _. split; [reflexivity|]. now apply hexToRgba_hex.
  - intros H. now contradiction H.
Qed.

Lemma hexToRgba_validated_witness :
  validateBackground "#1aF" = "#1aF" /\
  exists r g b,
    hexToRgba "#1aF" = (r, g, b, 255%Z) /\
    (0 <= r <= 255)%Z /\ (0 <= g <= 255)%Z /\ (0 <= b <= 255)%Z.
Proof. apply (hexToRgba_validated "#1aF"); discriminate. Defined.

End Requests.

(** ** The palettes an engine can be built on *)

Section PaletteLookup.

Import Palettes Validation Exporters.
Local Open Scope string_scope.

Lemma getPalette_cases name p :
  getPalette name = Some p -> p = nes \/ p = gameboy \/ p = pastel.
Proof.
  unfold getPalette, palettes, own_property.
  repeat match goal with
  | |- context [String.eqb ?a name] =>
      destruct (String.eqb a name); [intros [= <-]; auto|]
  end.
  destruct (existsb _ _); [discriminate|]. intros [= <-]. auto.
Qed.

(** X17. A name that is not a key of the registry falls back to the NES
    palette, unless it names a member that a plain object inherits:
    [getPalette] then returns that member, not a palette.  Keys are
    compared as they are, so ["GameBoy"] is not ["gameboy"]. *)
Theorem getPalette_fallback (name : string) :
  name <> "gameboy" -> name <> "pastel" ->
  (In name object_prototype_keys -> getPalette name = None) /\
  (~ In name object_prototype_keys -> getPalette name = Some nes).
Proof.
  intros H1 H2. unfold getPalette, palettes, own_property.
  destruct (String.eqb "nes" name) eqn:E0.
  { apply String.eqb_eq in E0. subst name. split; [|reflexivity].
    cbn. intros H. repeat (destruct H as [H | H]; [discriminate|]).
    destruct H. }
  destruct (String.eqb "gameboy" name) eqn:E1.
  { apply String.eqb_eq in E1. now contradiction H1. }
  destruct (String.eqb "pastel" name) eqn:E2.
  { apply String.eqb_eq in E2. now contradiction H2. }
  destruct (existsb (String.eqb name) object_prototype_keys) eqn:E.
  - split; [reflexivity|]. intros H. exfalso. apply H.
    apply existsb_exists in E as [k [Hk Ek]].
    apply String.eqb_eq in Ek. now subst k.
  - split; [|reflexivity]. intros H. exfalso.
    apply not_true_iff_false in E. apply E.
    apply existsb_exists. exists name. split; [exact H|].
    apply String.eqb_refl.
Qed.

Lemma getPalette_fallback_witness :
  getPalette "GameBoy" = Some nes /\ getPalette "toString" = None.
Proof.
  destruct (getPalette_fallback "GameBoy") as [_ H1]; [discriminate..|].
  destruct (getPalette_fallback "toString") as [H2 _]; [discriminate..|].
  split.
  - apply H1. cbn. intros H.
    repeat (destruct H as [H | H]; [discriminate|]). destruct H.
  - apply H2. cbn. repeat (first [left; reflexivity | right]).
Defined.

(** X18. Every colour of a palette [getPalette] can return is a [#]
    followed by six hexadecimal digits, which [hexToRgba] reads as three
    components between 0 and 255 and the alpha 255. *)
Theorem palette_colors_bytes (name : string) (p : Palette) (c : string) :
  getPalette name = Some p -> In c (colors p) ->
  hexRegex_test c = true /\ String.length c = 7%nat /\
  exists r g b,
    hexToRgba c = (r, g, b, 255%Z) /\
    (0 <= r <= 255)%Z /\ (0 <= g <= 255)%Z /\ (0 <= b <= 255)%Z.
Proof.
  intros Hp Hc.
  assert (G : forallb (fun q => forallb (fun c =>
                hexRegex_test c && Nat.eqb (String.length c) 7) (colors q))
                [nes; gameboy; pastel] = true) by (vm_compute; reflexivity).
  rewrite forallb_forall in G.
  assert (Hq : In p [nes; gameboy; pastel]).
  { apply getPalette_cases in Hp. cbn. destruct Hp as [-> | [-> | ->]]; auto. }
  specialize (G p Hq). rewrite forallb_forall in G. specialize (G c Hc).
  apply andb_true_iff in G as [G1 G2]. apply Nat.eqb_eq in G2.
  split; [exact G1|]. split; [exact G2|]. now apply hexToRgba_hex.
Qed.

Lemma palette_colors_bytes_witness :
  hexRegex_test "#0F380F" = true /\ String.length "#0F380F" = 7%nat /\
  exists r g b,
    hexToRgba "#0F380F" = (r, g, b, 255%Z) /\
    (0 <= r <= 255)%Z /\ (0 <= g <= 255)%Z /\ (0 <= b <= 255)%Z.
Proof.
  apply (palette_colors_bytes "gameboy" gameboy "#0F380F");
    [reflexivity | cbn; repeat (first [left; reflexivity | right])].
Defined.

End PaletteLookup.


(** ** The SVG encoder: the rectangles tile the drawn cells *)

Section SvgTiling.

Import PixelBuffer Exporters.

Ltac decide_all :=
  repeat match goal with
         | |- context [?a <=? ?b] => destruct (Z.leb_spec a b)
         | |- context [?a <? ?b] => destruct (Z.ltb_spec a b)
         | |- context [?a =? ?b] => destruct (Z.eqb_spec a b)
         end;
  cbn [andb orb negb]; try reflexivity; try lia.

Section Runs.

Variables (W H : nat) (data : Grid) (processed : list (list bool)).
Hypothesis Hdata : grid_wf W H data.
Hypothesis Hp : grid_wf W H processed.

Lemma read_cell {A} (rows : list (list A)) y x :
  grid_wf W H rows -> 0 <= y < Z.of_nat H -> 0 <= x < Z.of_nat W ->
  exists v, read rows y x = Some v.
Proof.
  intros Hwf Hy Hx.
  destruct (read_in_bounds W H rows y x Hwf Hy Hx) as [row [_ [_ [-> H0]]]].
  exact H0.
Qed.

(** The horizontal run: the cells it adds hold [c] and are not marked. *)
Lemma width_loop_run x y c :
  0 <= y < Z.of_nat H -> 0 <= x ->
  forall k width,
    1 <= width -> x + width + Z.of_nat k = Z.of_nat W ->
    exists w',
      width_loop data processed x y c k width = Some w' /\
      width <= w' /\ x + w' <= Z.of_nat W /\
      forall j, width <= j < w' ->
        read data y (x + j) = Some c /\
        read processed y (x + j) = Some false.
Proof.
  intros Hy Hx. induction k as [|k IH]; intros width Hw Hk.
  - exists width. cbn. split; [reflexivity|]. repeat split; lia.
  - cbn [width_loop].
    destruct (read_cell data y (x + width) Hdata) as [d Ed]; [lia | lia |].
    rewrite Ed.
    destruct (Z.eqb_spec d c) as [-> | Hne];
      [|exists width; split; [reflexivity|]; repeat split; lia].
    destruct (read_cell processed y (x + width) Hp) as [p Ep]; [lia | lia |].
    rewrite Ep.
    destruct p; [exists width; split; [reflexivity|]; repeat split; lia|].
    destruct (IH (width + 1)) as [w' [E [Hw1 [Hw2 Hw3]]]]; [lia | lia |].
    exists w'. split; [exact E|]. split; [lia|]. split; [lia|].
    intros j Hj. destruct (Z.eq_dec j width) as [-> | Hjw].
    + split; assumption.
    + apply Hw3. lia.
Qed.

(** One more row continues the run when all its cells hold [c] and none
    is marked. *)
Lemma row_extends_run x y c height :
  0 <= y + height < Z.of_nat H ->
  forall n dx,
    0 <= x + dx -> x + dx + Z.of_nat n <= Z.of_nat W ->
    exists r,
      row_extends data processed x y c height n dx = Some r /\
      (r = true ->
       forall j, dx <= j < dx + Z.of_nat n ->
         read data (y + height) (x + j) = Some c /\
         read processed (y + height) (x + j) = Some false).
Proof.
  intros Hy. induction n as [|n IH]; intros dx Hdx Hn.
  - exists true. split; [reflexivity|]. intros _ j Hj. lia.
  - cbn [row_extends].
    destruct (read_cell data (y + height) (x + dx) Hdata) as [d Ed];
      [lia | lia |].
    rewrite Ed.
    destruct (Z.eqb_spec d c) as [-> | Hne];
      [|exists false; split; [reflexivity | discriminate]].
    destruct (read_cell processed (y + height) (x + dx) Hp) as [p Ep];
      [lia | lia |].
    rewrite Ep.
    destruct p; [exists false; split; [reflexivity | discriminate]|].
    destruct (IH (dx + 1)) as [r [E Hr]]; [lia | lia |].
    exists r. split; [exact E|]. intros -> j Hj.
    destruct (Z.eq_dec j dx) as [-> | Hjd].
    + split; assumption.
    + apply Hr; [reflexivity | lia].
Qed.

Lemma height_loop_run x y c width :
  0 <= y -> 0 <= x -> 0 <= width -> x + width <= Z.of_nat W ->
  forall k height,
    1 <= height -> y + height + Z.of_nat k = Z.of_nat H ->
    exists h',
      height_loop data processed x y c width k height = Some h' /\
      height <= h' /\ y + h' <= Z.of_nat H /\
      forall r j, height <= r < h' -> 0 <= j < width ->
        read data (y + r) (x + j) = Some c /\
        read processed (y + r) (x + j) = Some false.
Proof.
  intros Hy Hx Hw0 Hw. induction k as [|k IH]; intros height Hh Hk.
  - exists height. cbn. split; [reflexivity|]. repeat split; lia.
  - cbn [height_loop].
    destruct (row_extends_run x y c height ltac:(lia)
                (Z.to_nat width) 0) as [r [Er Hr]]; [lia | lia |].
    rewrite Er.
    destruct r; [|exists height; split; [reflexivity|]; repeat split; lia].
    destruct (IH (height + 1)) as [h' [E [Hh1 [Hh2 Hh3]]]]; [lia | lia |].
    exists h'. split; [exact E|]. split; [lia|]. split; [lia|].
    intros r j Hrr Hj. destruct (Z.eq_dec r height) as [-> | Hne].
    + apply Hr; [reflexivity | lia].
    + apply Hh3; lia.
Qed.

(** Marking a block: its cells become marked, the others keep their
    mark. *)
Lemma mark_block x y width height :
  0 <= y -> y + height <= Z.of_nat H ->
  0 <= x -> x + width <= Z.of_nat W ->
  exists processed',
    for_loop (Z.to_nat height) 0 (fun dy =>
      for_loop (Z.to_nat width) 0 (fun dx pr =>
        write pr (y + dy) (x + dx) true)) processed = Some processed' /\
    grid_wf W H processed' /\
    forall py px,
      0 <= py < Z.of_nat H -> 0 <= px < Z.of_nat W ->
      read processed' py px =
      if (x <=? px) && (px <? x + width) && (y <=? py) && (py <? y + height)
      then Some true else read processed py px.
Proof.
  intros Hy Hh Hx Hw.
  destruct (for_loop_invariant
    (fun i pr =>
       grid_wf W H pr /\
       forall py px,
         0 <= py < Z.of_nat H -> 0 <= px < Z.of_nat W ->
         read pr py px =
         if (x <=? px) && (px <? x + width) &&
            (y <=? py) && (py <? y + Z.of_nat i)
         then Some true else read processed py px)
    (Z.to_nat height) 0
    (fun dy => for_loop (Z.to_nat width) 0 (fun dx pr =>
                 write pr (y + dy) (x + dx) true)) processed)
    as [pr [E [Hwf Hcells]]].
  - split; [exact Hp|]. intros py px Hpy Hpx. decide_all.
  - intros i pr Hi [Hwf Hcells].
    destruct (for_loop_invariant
      (fun j pr' =>
         grid_wf W H pr' /\
         forall py px,
           0 <= py < Z.of_nat H -> 0 <= px < Z.of_nat W ->
           read pr' py px =
           if ((x <=? px) && (px <? x + width) &&
               (y <=? py) && (py <? y + Z.of_nat i)) ||
              ((py =? y + Z.of_nat i) && (x <=? px) &&
               (px <? x + Z.of_nat j))
           then Some true else read processed py px)
      (Z.to_nat width) 0
      (fun dx pr' => write pr' (y + (0 + Z.of_nat i)) (x + dx) true) pr)
      as [pr' [E' [Hwf' Hcells']]].
    + split; [exact Hwf|]. intros py px Hpy Hpx.
      rewrite Hcells by assumption. decide_all.
    + intros j cur Hj [Hcur Hc].
      destruct (write_in_bounds W H cur (y + (0 + Z.of_nat i))
                  (x + (0 + Z.of_nat j)) true Hcur)
        as [row [_ [_ [Ew Hwf']]]]; [lia | lia |].
      eexists. split; [exact Ew|]. split; [exact Hwf'|].
      intros py px Hpy Hpx.
      rewrite (read_after_write W H cur (y + (0 + Z.of_nat i))
                 (x + (0 + Z.of_nat j)) true _ py px Hcur)
        by (assumption || lia).
      rewrite Hc by assumption.
      destruct (decide _) as [[-> ->] | Hne]; decide_all.
    + exists pr'. split; [exact E'|]. split; [exact Hwf'|].
      intros py px Hpy Hpx. rewrite Hcells' by assumption. decide_all.
  - exists pr. split; [exact E|]. split; [exact Hwf|].
    intros py px Hpy Hpx. rewrite Hcells by assumption. decide_all.
Qed.

End Runs.

(** Blocks appended at the end of the list. *)
Lemma uncovered_snoc blocks k px py :
  uncovered blocks px py -> in_block k px py = false ->
  uncovered (blocks ++ [k]) px py.
Proof.
  intros Hu Hk j k' Hj. apply lookup_app_Some in Hj as [Hj | [_ Hj]].
  - eapply Hu, Hj.
  - apply list_lookup_singleton_Some in Hj as [_ <-]. exact Hk.
Qed.

Lemma covered_once_snoc_old blocks k px py :
  covered_once blocks px py -> in_block k px py = false ->
  covered_once (blocks ++ [k]) px py.
Proof.
  intros [i [k0 [Hi [Hin Huniq]]]] Hk. exists i, k0.
  split; [apply lookup_app_Some; now left|]. split; [exact Hin|].
  intros j k' Hj Hin'. apply lookup_app_Some in Hj as [Hj | [_ Hj]].
  - eapply Huniq; eassumption.
  - apply list_lookup_singleton_Some in Hj as [_ <-]. congruence.
Qed.

Lemma covered_once_snoc_new blocks k px py :
  uncovered blocks px py -> in_block k px py = true ->
  covered_once (blocks ++ [k]) px py.
Proof.
  intros Hu Hk. exists (length blocks), k.
  split; [|split; [exact Hk|]].
  - apply lookup_app_Some. right. split; [lia|].
    now rewrite Nat.sub_diag.
  - intros j k' Hj Hin. apply lookup_app_Some in Hj as [Hj | [Hle Hj]].
    + specialize (Hu j k' Hj). congruence.
    + apply list_lookup_singleton_Some in Hj as [Hj _]. lia.
Qed.

Lemma scan_state_weaken b pal ps (done done' : Z -> Z -> Prop) st :
  scan_state b pal ps done st ->
  (forall px py,
     0 <= py < Z.of_nat (height b) -> 0 <= px < Z.of_nat (width b) ->
     done' px py -> done px py) ->
  scan_state b pal ps done' st.
Proof.
  intros [Hwf [blocks [E [Hu [Hc Hd]]]]] Himp.
  split; [exact Hwf|]. exists blocks.
  split; [exact E|]. split; [exact Hu|]. split; [exact Hc|].
  intros px py Hpy Hpx Hdone. apply Hd; auto.
Qed.

(** One cell of the scan. *)
Lemma scan_cell_tiles b pal ps (done : Z -> Z -> Prop) y x st :
  wf b ->
  0 <= y < Z.of_nat (height b) -> 0 <= x < Z.of_nat (width b) ->
  scan_state b pal ps done st ->
  exists st',
    scan_cell b (Some pal) ps (getData b) y x st = Some st' /\
    scan_state b pal ps (fun px py => done px py \/ (px = x /\ py = y)) st'.
Proof.
  intros Hb Hy Hx [Hwf [blocks [E [Hu [Hc Hd]]]]].
  destruct st as [processed rects]. cbn [fst snd] in *.
  unfold scan_cell, getData.
  destruct (read_cell _ _ processed y x Hwf Hy Hx) as [p Ep].
  destruct (read_cell _ _ (buffer b) y x Hb Hy Hx) as [d Ed].
  rewrite Ep, Ed.
  destruct (p || (d =? -1)) eqn:Eskip.
  { exists (processed, rects). split; [reflexivity|].
    split; [exact Hwf|]. exists blocks.
    split; [exact E|]. split; [exact Hu|]. split; [exact Hc|].
    intros px py Hpy Hpx [Hdone | [-> ->]]; [now apply Hd|].
    apply orb_true_iff in Eskip as [-> | Et].
    - now right.
    - apply Z.eqb_eq in Et. subst d. now left. }
  apply orb_false_iff in Eskip as [-> Hd1]. apply Z.eqb_neq in Hd1.
  destruct (width_loop_run _ _ (buffer b) processed Hb Hwf x y d Hy
              ltac:(lia) (width b - Z.to_nat (x + 1))%nat 1)
    as [w [Ew [Hw1 [Hw2 Hrun]]]]; [lia | lia |].
  rewrite Ew.
  destruct (height_loop_run _ _ (buffer b) processed Hb Hwf x y d w
              ltac:(lia) ltac:(lia) ltac:(lia) Hw2
              (height b - Z.to_nat (y + 1))%nat 1)
    as [h [Eh [Hh1 [Hh2 Hrows]]]]; [lia | lia |].
  rewrite Eh.
  destruct (mark_block _ _ processed Hwf x y w h) as [p' [Em [Hp' Hcells]]];
    try lia.
  rewrite Em.
  set (blk := {| block_x := x; block_y := y; block_width := w;
                 block_height := h; block_color := d |}).
  assert (Hblk : forall px py, in_block blk px py = true ->
            (0 <= py < Z.of_nat (height b) /\
             0 <= px < Z.of_nat (width b)) /\
            read (buffer b) py px = Some d /\
            read processed py px = Some false).
  { intros px py Hin. unfold in_block, blk in Hin. cbn in Hin.
    apply andb_true_iff in Hin as [Hin H4].
    apply andb_true_iff in Hin as [Hin H3].
    apply andb_true_iff in Hin as [H1 H2].
    apply Z.leb_le in H1, H3. apply Z.ltb_lt in H2, H4.
    split; [lia|].
    replace px with (x + (px - x)) by lia.
    replace py with (y + (py - y)) by lia.
    destruct (Z.eq_dec (py - y) 0) as [Ey | Ney].
    - rewrite Ey, Z.add_0_r.
      destruct (Z.eq_dec (px - x) 0) as [Ex | Nex].
      + rewrite Ex, Z.add_0_r. now split.
      + apply Hrun. lia.
    - apply Hrows; lia. }
  assert (Hmark : forall px py,
            0 <= py < Z.of_nat (height b) -> 0 <= px < Z.of_nat (width b) ->
            read p' py px =
            if in_block blk px py then Some true else read processed py px).
  { intros px py Hpy Hpx. rewrite Hcells by assumption. reflexivity. }
  eexists. split; [reflexivity|]. cbn [fst snd].
  split; [exact Hp'|]. exists (blocks ++ [blk]).
  split; [|split; [|split]].
  - rewrite map_app, E. reflexivity.
  - intros k Hk. apply in_app_or in Hk as [Hk | [<- | []]]; [now apply Hu|].
    cbn [block_width block_height block_color blk].
    split; [lia|]. split; [lia|]. split; [exact Hd1|].
    intros px py Hin. destruct (Hblk px py Hin) as [[Hpy Hpx] [Hdata _]].
    split; [apply in_bounds_true; lia|].
    rewrite getPixel_read by lia. exact Hdata.
  - intros px py Hpy Hpx. rewrite Hmark by assumption.
    destruct (in_block blk px py) eqn:Hin.
    + left. split; [reflexivity|].
      destruct (Hblk px py Hin) as [_ [_ Hfalse]].
      destruct (Hc px py Hpy Hpx) as [[Ht _] | [_ Hunc]]; [congruence|].
      now apply covered_once_snoc_new.
    + destruct (Hc px py Hpy Hpx) as [[Ht Hcov] | [Hf Hunc]].
      * left. split; [exact Ht|]. now apply covered_once_snoc_old.
      * right. split; [exact Hf|]. now apply uncovered_snoc.
  - intros px py Hpy Hpx Hdone. rewrite Hmark by assumption.
    destruct (in_block blk px py) eqn:Hin; [now right|].
    destruct Hdone as [Hdone | [-> ->]]; [now apply Hd|].
    exfalso. unfold in_block, blk in Hin. cbn in Hin.
    revert Hin. decide_all; discriminate.
Qed.

(** The whole scan, on a palette. *)
Lemma scan_tiles b pal ps :
  wf b ->
  exists st,
    for_loop (height b) 0 (fun y =>
      for_loop (width b) 0 (fun x =>
        scan_cell b (Some pal) ps (getData b) y x))
      (replicate (height b) (replicate (width b) false), []) = Some st /\
    exists blocks,
      snd st = map (block_rect pal ps) blocks /\ tiles b blocks.
Proof.
  intros Hb.
  destruct (for_loop_invariant
              (fun i st =>
                 scan_state b pal ps (fun px py => py < Z.of_nat i) st)
              (height b) 0
              (fun y => for_loop (width b) 0
                 (fun x => scan_cell b (Some pal) ps (getData b) y x))
              (replicate (height b) (replicate (width b) false), []))
    as [st [E Hst]].
  - split; [apply grid_wf_replicate|]. exists [].
    split; [reflexivity|]. split; [intros k []|]. split.
    + intros px py Hpy Hpx. right. cbn [fst]. split.
      * unfold read. rewrite !js_index_lookup by lia.
        rewrite lookup_replicate_2 by lia. cbn.
        rewrite js_index_lookup by lia.
        now rewrite lookup_replicate_2 by lia.
      * intros j k Hj. now rewrite lookup_nil in Hj.
    + intros px py Hpy Hpx Hdone. lia.
  - intros i st Hi Hst.
    destruct (for_loop_invariant
                (fun j st' =>
                   scan_state b pal ps
                     (fun px py => py < Z.of_nat i \/
                                   (py = Z.of_nat i /\ px < Z.of_nat j)) st')
                (width b) 0
                (fun x => scan_cell b (Some pal) ps (getData b)
                            (0 + Z.of_nat i) x) st)
      as [st' [E' Hst']].
    + apply (scan_state_weaken _ _ _ _ _ _ Hst). intros px py. lia.
    + intros j cur Hj Hcur.
      destruct (scan_cell_tiles b pal ps _ (0 + Z.of_nat i) (0 + Z.of_nat j)
                  cur Hb ltac:(lia) ltac:(lia) Hcur) as [cur' [Ec Hcur']].
      exists cur'. split; [exact Ec|].
      apply (scan_state_weaken _ _ _ _ _ _ Hcur'). intros px py. lia.
    + exists st'. split; [exact E'|].
      apply (scan_state_weaken _ _ _ _ _ _ Hst'). intros px py. lia.
  - exists st. split; [exact E|].
    destruct Hst as [Hwf [blocks [Eb [Hu [Hc Hd]]]]].
    exists blocks. split; [exact Eb|]. split; [exact Hu|].
    intros px py c Hin Hpx.
    apply in_bounds_true in Hin as [Hx Hy].
    rewrite getPixel_read in Hpx by lia.
    destruct (Z.eqb_spec c transparent) as [-> | Hne].
    + destruct (Hc px py Hy Hx) as [[Ht [i [k [Hi [Hk _]]]]] | [_ Hunc]];
        [|exact Hunc].
      exfalso.
      assert (Hin : In k blocks).
      { apply list_elem_of_In. eapply list_elem_of_lookup_2, Hi. }
      destruct (Hu k Hin) as [_ [_ [Hcol Hcells]]].
      destruct (Hcells px py Hk) as [_ Hget].
      rewrite getPixel_read in Hget by lia. congruence.
    + destruct (Hd px py Hy Hx ltac:(lia)) as [Ht | Ht]; [congruence|].
      destruct (Hc px py Hy Hx) as [[_ Hcov] | [Hf _]];
        [exact Hcov | congruence].
Qed.

(** A loop whose turns leave the state as it is. *)
Lemma for_loop_unchanged {St} n : forall i (body : Z -> St -> option St) s,
  (forall k, (k < n)%nat -> body (i + Z.of_nat k) s = Some s) ->
  for_loop n i body s = Some s.
Proof.
  induction n as [|n IH]; intros i body s Hb; [reflexivity|].
  cbn [for_loop]. pose proof (Hb O ltac:(lia)) as H0.
  rewrite Z.add_0_r in H0. rewrite H0. apply IH.
  intros k Hk. replace (i + 1 + Z.of_nat k) with (i + Z.of_nat (S k)) by lia.
  apply Hb. lia.
Qed.

(** A loop that returns has had every turn return. *)
Lemma for_loop_returns {St} (P : nat -> St -> Prop) n :
  forall i (body : Z -> St -> option St) s s',
  for_loop n i body s = Some s' ->
  P O s ->
  (forall k s1 s2, (k < n)%nat -> P k s1 ->
     body (i + Z.of_nat k) s1 = Some s2 -> P (S k) s2) ->
  P n s'.
Proof.
  induction n as [|n IH]; intros i body s s' E H0 Hstep.
  - cbn in E. now injection E as <-.
  - rewrite for_loop_last in E.
    destruct (for_loop n i body s) as [s1|] eqn:E1; [|discriminate].
    apply (Hstep n s1 s' ltac:(lia)); [|exact E].
    apply (IH i body s s1 E1 H0). intros k a c Hk. apply Hstep. lia.
Qed.

Lemma read_replicate {A} (w h : nat) (a : A) y x :
  0 <= y < Z.of_nat h -> 0 <= x < Z.of_nat w ->
  read (replicate h (replicate w a)) y x = Some a.
Proof.
  intros Hy Hx. unfold read. rewrite js_index_lookup by lia.
  rewrite lookup_replicate_2 by lia.
  rewrite js_index_lookup by lia. now rewrite lookup_replicate_2 by lia.
Qed.

(** The scan over a buffer with no drawn cell pushes nothing, whatever
    [getPalette] returned. *)
Lemma scan_blank b palette ps :
  wf b ->
  (forall px py, in_bounds b px py = true ->
     getPixel px py b = Some transparent) ->
  for_loop (height b) 0 (fun y =>
    for_loop (width b) 0 (fun x =>
      scan_cell b palette ps (getData b) y x))
    (replicate (height b) (replicate (width b) false), []) =
  Some (replicate (height b) (replicate (width b) false), []).
Proof.
  intros Hb Hblank.
  apply for_loop_unchanged. intros i Hi.
  apply for_loop_unchanged. intros j Hj.
  unfold scan_cell, getData.
  rewrite read_replicate by lia.
  specialize (Hblank (0 + Z.of_nat j) (0 + Z.of_nat i)
                ltac:(apply in_bounds_true; lia)).
  rewrite getPixel_read in Hblank by lia. rewrite Hblank.
  reflexivity.
Qed.

(** The scan without a palette returns only when no cell is drawn. *)
Lemma scan_inherited b ps st :
  wf b ->
  for_loop (height b) 0 (fun y =>
    for_loop (width b) 0 (fun x =>
      scan_cell b None ps (getData b) y x))
    (replicate (height b) (replicate (width b) false), []) = Some st ->
  forall px py, in_bounds b px py = true ->
    getPixel px py b = Some transparent.
Proof.
  intros Hb E.
  set (s0 := (replicate (height b) (replicate (width b) false),
              @nil Rect)) in *.
  assert (G : st = s0 /\
              forall px py, 0 <= px < Z.of_nat (width b) ->
                0 <= py < Z.of_nat (height b) ->
                read (buffer b) py px = Some transparent).
  { apply (for_loop_returns
             (fun i st => st = s0 /\
                forall px py, 0 <= px < Z.of_nat (width b) ->
                  0 <= py < Z.of_nat i ->
                  read (buffer b) py px = Some transparent) _ _ _ _ _ E).
    - split; [reflexivity|]. intros px py Hx Hy. lia.
    - intros i s1 s2 Hi [-> Hrows] Erow.
      assert (G2 : s2 = s0 /\
                forall px py, 0 <= px < Z.of_nat (width b) ->
                  0 <= py < Z.of_nat i \/
                  (py = Z.of_nat i /\ px < Z.of_nat (width b)) ->
                  read (buffer b) py px = Some transparent).
      { apply (for_loop_returns
                 (fun j st => st = s0 /\
                    forall px py, 0 <= px < Z.of_nat (width b) ->
                      0 <= py < Z.of_nat i \/
                      (py = Z.of_nat i /\ px < Z.of_nat j) ->
                      read (buffer b) py px = Some transparent)
                 _ _ _ _ _ Erow).
        - split; [reflexivity|]. intros px py Hx [Hy | [_ Hy]];
            [apply Hrows; lia | lia].
        - intros j s3 s4 Hj [-> Hc] Ecell.
          unfold scan_cell, s0, getData in Ecell.
          rewrite read_replicate in Ecell by lia.
          destruct (read_cell _ _ (buffer b) (0 + Z.of_nat i)
                      (0 + Z.of_nat j) Hb ltac:(lia) ltac:(lia)) as [d Ed].
          rewrite Ed in Ecell. cbn [orb] in Ecell.
          destruct (Z.eqb_spec d (-1)) as [Hd | Hne]; [|discriminate].
          injection Ecell as <-. split; [reflexivity|].
          intros px py Hx [Hy | [-> Hy]]; [apply Hc; [lia | now left]|].
          destruct (Z.eq_dec px (Z.of_nat j)) as [-> | Hne].
          + rewrite !Z.add_0_l in Ed. now rewrite Ed, Hd.
          + apply Hc; [lia|]. right. lia. }
      destruct G2 as [-> Hc]. split; [reflexivity|].
      intros px py Hx Hy. apply Hc; [lia|].
      destruct (Z_lt_ge_dec py (Z.of_nat i)); [now left | right; lia]. }
  destruct G as [_ G]. intros px py Hin.
  apply in_bounds_true in Hin as [Hx Hy].
  rewrite getPixel_read by lia. now apply G.
Qed.

Local Open Scope string_scope.



(** X20. On a 16-wide buffer with no drawn cell, [toSVG] returns the
    opening tag, the background and the closing tag, with no rectangle
    between them, whatever the palette name. *)
Theorem toSVG_blank (b : PixelBuffer.t) (size : Z) (bg paletteName : string) :
  wf b -> width b = 16%nat -> (0 <= size < 2147483648)%Z ->
  (forall px py, in_bounds b px py = true ->
     getPixel px py b = Some transparent) ->
  toSVG b size bg paletteName =
  Some (svg_open size ++
        svg_background size (inject_Z size / inject_Z 16)%Q bg ++ "</svg>").
Proof.
  intros Hb Hw Hsize Hblank. unfold toSVG.
  rewrite (scan_blank b _ _ Hb Hblank), Hw.
  cbn [map concat_strings]. rewrite append_assoc_string. reflexivity.
Qed.

Lemma toSVG_blank_witness :
  toSVG (PixelBuffer.make 16 16) 128 "#fff" "constructor" =
  Some (svg_open 128 ++
        svg_background 128 (inject_Z 128 / inject_Z 16)%Q "#fff" ++ "</svg>").
Proof.
  apply (toSVG_blank (PixelBuffer.make 16 16) 128 "#fff" "constructor");
    [apply make_wf | reflexivity | lia |].
  intros px py Hin. unfold getPixel. rewrite Hin.
  apply in_bounds_true in Hin as [Hx Hy]. cbn [width height make] in *.
  now apply read_replicate.
Defined.

(** X21. With a palette name that [getPalette] resolves to an inherited
    member of the registry object, [toSVG] raises as soon as the buffer
    holds one drawn cell: there is no fallback for such a name. *)
Theorem toSVG_inherited_raises (b : PixelBuffer.t) (size : Z)
    (bg paletteName : string) (px py : Z) (c : ColorIndex) :
  wf b -> Palettes.getPalette paletteName = None ->
  in_bounds b px py = true -> getPixel px py b = Some c ->
  c <> transparent ->
  toSVG b size bg paletteName = None.
Proof.
  intros Hb Hpal Hin Hc Hne. unfold toSVG. rewrite Hpal.
  destruct (for_loop _ _ _ _) as [[processed rects]|] eqn:E; [|reflexivity].
  exfalso. apply Hne.
  pose proof (scan_inherited b _ _ Hb E px py Hin) as Ht. congruence.
Qed.

Lemma toSVG_inherited_raises_witness :
  toSVG {| width := 2; height := 1; buffer := [[-1; 3]] |} 64 "transparent"
    "toString" = None.
Proof.
  apply (toSVG_inherited_raises
           {| width := 2; height := 1; buffer := [[-1; 3]] |} 64
           "transparent" "toString" 1 0 3).
  - split; [reflexivity | repeat constructor].
  - reflexivity.
  - reflexivity.
  - reflexivity.
  - discriminate.
Defined.

End SvgTiling.


(** ** The PNG encoder: the stream of stored blocks *)

Section Deflate.

Import Exporters.

Variable kMaxLength : Z.

Lemma alloc_Some n :
  0 <= n <= kMaxLength -> alloc kMaxLength n = Some (replicate (Z.to_nat n) 0).
Proof.
  intros H. unfold alloc.
  destruct (Z.leb_spec 0 n); [|lia].
  destruct (Z.leb_spec n kMaxLength); [|lia]. reflexivity.
Qed.

Lemma write_bytes_Some bs offset buf :
  0 <= offset -> offset + Z.of_nat (length bs) <= Z.of_nat (length buf) ->
  write_bytes bs offset buf = Some (list_inserts (Z.to_nat offset) bs buf).
Proof.
  intros H1 H2. unfold write_bytes.
  destruct (Z.leb_spec 0 offset); [|lia].
  destruct (Z.leb_spec (offset + Z.of_nat (length bs)) (Z.of_nat (length buf)));
    [|lia].
  reflexivity.
Qed.

Lemma writeUInt16LE_Some v offset buf :
  0 <= v <= 65535 -> 0 <= offset -> offset + 2 <= Z.of_nat (length buf) ->
  writeUInt16LE v offset buf =
  Some (list_inserts (Z.to_nat offset) [v mod 256; v / 256] buf).
Proof.
  intros Hv H1 H2. unfold writeUInt16LE.
  destruct (Z.leb_spec 0 v); [|lia].
  destruct (Z.leb_spec v 65535); [|lia]. cbn [andb].
  rewrite write_bytes_Some by (cbn [length u16le]; lia).
  unfold u16le. rewrite Z.shiftr_div_pow2 by lia. change (2 ^ 8) with 256.
  rewrite (Z.mod_small (v / 256)); [reflexivity|].
  split; [apply Z.div_pos; lia | apply Z.div_lt_upper_bound; lia].
Qed.

Lemma writeUInt32BE_Some v offset buf :
  0 <= v <= 4294967295 -> 0 <= offset ->
  offset + 4 <= Z.of_nat (length buf) ->
  writeUInt32BE v offset buf =
  Some (list_inserts (Z.to_nat offset) (u32be v) buf).
Proof.
  intros Hv H1 H2. unfold writeUInt32BE.
  destruct (Z.leb_spec 0 v); [|lia].
  destruct (Z.leb_spec v 4294967295); [|lia]. cbn [andb].
  now rewrite write_bytes_Some by (cbn [length u32be]; lia).
Qed.

(** [~n & 0xffff] is the complement of [n] on 16 bits. *)
Lemma nlen_complement n :
  0 <= n <= 65535 -> Z.land (Z.lnot n) 65535 = 65535 - n.
Proof.
  intros Hn. change 65535 with (Z.ones 16) at 1.
  rewrite Z.land_ones by lia. unfold Z.lnot.
  change (2 ^ 16) with 65536.
  replace (Z.pred (- n)) with (65535 - n + (-1) * 65536) by lia.
  rewrite Z.mod_add by lia. apply Z.mod_small. lia.
Qed.

Lemma subarray_take_drop (buf : Bytes) i j :
  0 <= i -> subarray buf i j = take (Z.to_nat (j - i)) (drop (Z.to_nat i) buf).
Proof. reflexivity. Qed.

(** One block of [deflate] is the stored block of its chunk. *)
Lemma deflate_block_stored data i :
  0 <= i < Z.of_nat (length data) ->
  Z.min 65535 (Z.of_nat (length data) - i) + 5 <= kMaxLength ->
  deflate_block kMaxLength data i =
  Some (stored_block (Z.of_nat (length data) <=? i + 65535)
          (take (Z.to_nat (Z.min 65535 (Z.of_nat (length data) - i)))
             (drop (Z.to_nat i) data))).
Proof.
  intros Hi Hmax. unfold deflate_block. cbv zeta.
  set (len := Z.of_nat (length data)) in *.
  set (bs := Z.min 65535 (len - i)) in *.
  assert (Hbs : 1 <= bs <= 65535) by (unfold bs; lia).
  rewrite alloc_Some by lia.
  replace (Z.to_nat (bs + 5)) with (5 + Z.to_nat bs)%nat by lia.
  rewrite replicate_add.
  set (zeros := replicate (Z.to_nat bs) 0).
  assert (Hz : length zeros = Z.to_nat bs) by apply length_replicate.
  change (replicate 5 0 ++ zeros) with (0 :: 0 :: 0 :: 0 :: 0 :: zeros).
  unfold store. change (0 <? 0) with false. cbv iota.
  change (Z.to_nat 0) with 0%nat.
  change (<[0%nat := ?v]> (0 :: ?l)) with (v :: l).
  rewrite writeUInt16LE_Some; [|lia|lia|cbn [length]; lia].
  change (Z.to_nat 1) with 1%nat.
  change (list_inserts 1 [?a; ?b] (?x :: 0 :: 0 :: ?l)) with (x :: a :: b :: l).
  rewrite nlen_complement by lia.
  rewrite writeUInt16LE_Some; [|lia|lia|cbn [length]; lia].
  change (Z.to_nat 3) with 3%nat.
  change (list_inserts 3 [?a; ?b] (?x :: ?y :: ?z :: 0 :: 0 :: ?l))
    with (x :: y :: z :: a :: b :: l).
  unfold copy_into, subarray.
  replace (i + bs - i) with bs by lia.
  set (chunk := take (Z.to_nat bs) (drop (Z.to_nat i) data)).
  assert (Hc : length chunk = Z.to_nat bs).
  { unfold chunk. rewrite length_take, length_drop. unfold bs, len. lia. }
  assert (Eflag : (len <=? i + bs) = (len <=? i + 65535)).
  { unfold bs. destruct (Z.leb_spec len (i + 65535));
      destruct (Z.leb_spec len (i + Z.min 65535 (len - i))); try reflexivity;
      lia. }
  rewrite Eflag.
  f_equal. unfold stored_block. rewrite Hc, Z2Nat.id by lia.
  match goal with
  | |- list_inserts _ _ (?a :: ?b :: ?c :: ?d :: ?e :: zeros) = _ =>
      change (list_inserts (length [a; b; c; d; e] + 0) chunk
                ([a; b; c; d; e] ++ zeros) =
              [ if len <=? i + 65535 then 1 else 0; bs mod 256; bs / 256;
                (65535 - bs) mod 256; (65535 - bs) / 256 ] ++ chunk)
  end.
  rewrite list_inserts_app_r.
  rewrite <- (app_nil_r zeros), list_inserts_0_r by congruence.
  rewrite app_nil_r. f_equal.
  now destruct (len <=? i + 65535).
Qed.


Lemma stored_header_fields n :
  0 <= n <= 65535 ->
  n mod 256 + (65535 - n) mod 256 = 255 /\
  n / 256 + (65535 - n) / 256 = 255 /\
  n mod 256 + 256 * (n / 256) = n.
Proof.
  intros Hn.
  pose proof (Z.div_mod n 256 ltac:(lia)) as E.
  pose proof (Z.mod_pos_bound n 256 ltac:(lia)) as B.
  assert (Hq : 0 <= n / 256 <= 255).
  { split; [apply Z.div_pos; lia|].
    apply Z.lt_succ_r, Z.div_lt_upper_bound; lia. }
  assert (E1 : (65535 - n) / 256 = 255 - n / 256).
  { symmetry. apply (Z.div_unique _ _ _ (255 - n mod 256)); lia. }
  assert (E2 : (65535 - n) mod 256 = 255 - n mod 256).
  { symmetry. apply (Z.mod_unique _ _ (255 - n / 256)); lia. }
  lia.
Qed.

(** Reading back one stored block. *)
Lemma inflate_stored_block isLast chunk rest fuel :
  Z.of_nat (length chunk) <= 65535 ->
  inflate_stored (S fuel) (stored_block isLast chunk ++ rest) =
  if isLast then Some chunk
  else match inflate_stored fuel rest with
       | Some data => Some (chunk ++ data)
       | None => None
       end.
Proof.
  intros Hlen. unfold stored_block. cbv zeta.
  set (n := Z.of_nat (length chunk)).
  destruct (stored_header_fields n ltac:(lia)) as [E0 [E1 En]].
  cbn [app inflate_stored].
  rewrite E0, E1, En.
  assert (Hh : Z.land (if isLast then 1 else 0) 6 = 0)
    by now destruct isLast.
  rewrite Hh. cbn [Z.eqb andb].
  change (255 =? 255) with true. cbn [andb].
  destruct (Z.leb_spec n (Z.of_nat (length (chunk ++ rest))));
    [|rewrite length_app in *; lia].
  unfold n. rewrite Nat2Z.id, take_app_length, drop_app_length.
  now destruct isLast.
Qed.

Lemma inflate_stored_fuel fuel : forall fuel' stream data,
  inflate_stored fuel stream = Some data -> (fuel <= fuel')%nat ->
  inflate_stored fuel' stream = Some data.
Proof.
  induction fuel as [|fuel IH]; intros fuel' stream data E Hf;
    [discriminate|].
  destruct fuel' as [|fuel']; [lia|].
  cbn [inflate_stored] in *.
  destruct stream as [|h [|l0 [|l1 [|n0 [|n1 rest]]]]]; try discriminate.
  destruct (_ && _); [|discriminate].
  destruct (Z.land h 1 =? 1); [exact E|].
  destruct (inflate_stored fuel _) as [d|] eqn:Ed; [|discriminate].
  now rewrite (IH fuel' _ d Ed) by lia.
Qed.

Lemma deflate_loop_end fuel data i :
  Z.of_nat (length data) <= i -> deflate_loop kMaxLength fuel data i = Some [].
Proof.
  intros Hi. destruct fuel; [reflexivity|]. cbn [deflate_loop].
  destruct (Z.ltb_spec i (Z.of_nat (length data))); [lia | reflexivity].
Qed.

Lemma block_count_one a : 1 <= a <= 65535 -> (a + 65534) / 65535 = 1.
Proof. intros H. symmetry. apply (Z.div_unique _ _ _ (a - 1)); lia. Qed.

Lemma block_count_more a :
  65535 < a -> (a + 65534) / 65535 = 1 + (a - 65535 + 65534) / 65535.
Proof.
  intros H. replace (a + 65534) with (a - 65535 + 65534 + 1 * 65535) by lia.
  rewrite Z.div_add by lia. lia.
Qed.

(** The blocks of [deflate] from offset [i] on read back as the data
    from [i] on. *)
Lemma deflate_loop_stream data : forall fuel i,
  0 <= i < Z.of_nat (length data) ->
  Z.of_nat (length data) - i <= Z.of_nat fuel ->
  Z.min 65535 (Z.of_nat (length data)) + 5 <= kMaxLength ->
  exists blocks,
    deflate_loop kMaxLength fuel data i = Some blocks /\
    Z.of_nat (length (concat blocks)) =
      Z.of_nat (length data) - i +
      5 * ((Z.of_nat (length data) - i + 65534) / 65535) /\
    exists n, (n <= length (concat blocks))%nat /\
      inflate_stored n (concat blocks) = Some (drop (Z.to_nat i) data).
Proof.
  set (len := Z.of_nat (length data)).
  induction fuel as [|fuel IH]; intros i Hi Hfuel Hmax; [lia|].
  cbn [deflate_loop]. fold len.
  destruct (Z.ltb_spec i len); [|lia].
  rewrite deflate_block_stored by (fold len; lia). fold len.
  set (chunk := take (Z.to_nat (Z.min 65535 (len - i)))
                  (drop (Z.to_nat i) data)).
  assert (Hc : Z.of_nat (length chunk) = Z.min 65535 (len - i)).
  { unfold chunk. rewrite length_take, length_drop. unfold len. lia. }
  destruct (Z.leb_spec len (i + 65535)) as [Hlast | Hmore]; subst len.
  - rewrite deflate_loop_end by lia.
    exists [stored_block true chunk]. split; [reflexivity|].
    cbn [concat]. rewrite app_nil_r.
    assert (Hchunk : chunk = drop (Z.to_nat i) data).
    { unfold chunk. apply take_ge. rewrite length_drop. lia. }
    split.
    + unfold stored_block. cbn [length app]. rewrite block_count_one by lia.
      lia.
    + exists 1%nat. split; [unfold stored_block; cbn [length app]; lia|].
      rewrite <- (app_nil_r (stored_block true chunk)).
      rewrite inflate_stored_block by lia. now rewrite Hchunk.
  - destruct (IH (i + 65535)) as [blocks [E [Hl [n [Hn Hr]]]]];
      [lia | lia | exact Hmax |].
    rewrite E. exists (stored_block false chunk :: blocks).
    split; [reflexivity|]. cbn [concat]. split.
    + rewrite length_app, Nat2Z.inj_add, Hl.
      unfold stored_block. cbn [length app].
      rewrite (block_count_more (Z.of_nat (length data) - i)) by lia.
      replace (Z.of_nat (length data) - (i + 65535))
        with (Z.of_nat (length data) - i - 65535) by lia. lia.
    + exists (S n). split.
      * rewrite length_app. unfold stored_block. cbn [length app]. lia.
      * rewrite inflate_stored_block by lia. rewrite Hr.
        f_equal. unfold chunk.
        replace (Z.min 65535 (Z.of_nat (length data) - i)) with 65535 by lia.
        replace (Z.to_nat (i + 65535))
          with (Z.to_nat i + Z.to_nat 65535)%nat by lia.
        rewrite <- drop_drop. apply take_drop.
Qed.

(** The stream [deflate] returns, its length, and what a reader of
    stored blocks makes of it. *)
Lemma deflate_stream (data : Bytes) :
  Z.of_nat (length data) + 5 * ((Z.of_nat (length data) + 65534) / 65535)
    <= kMaxLength ->
  exists out,
    deflate kMaxLength data = Some out /\
    Z.of_nat (length out) =
      Z.of_nat (length data) +
      5 * ((Z.of_nat (length data) + 65534) / 65535) /\
    (data = [] -> out = []) /\
    (data <> [] -> inflate_stored (length out) out = Some data).
Proof.
  intros Hmax. unfold deflate.
  destruct data as [|x data'] eqn:Ed.
  { assert (H0 : 0 <= kMaxLength).
    { revert Hmax. cbn [length]. change (Z.of_nat 0) with 0.
      change ((0 + 65534) / 65535) with 0. lia. }
    exists []. cbn [length deflate_loop]. unfold concat_buffers.
    cbn [concat length]. change (Z.of_nat 0) with 0.
    destruct (Z.leb_spec 0 kMaxLength); [|lia].
    split; [reflexivity|]. split; [reflexivity|].
    split; [reflexivity|]. intros Hne. now contradiction Hne. }
  rewrite <- Ed in *.
  assert (Hlen : 1 <= Z.of_nat (length data)) by (rewrite Ed; cbn; lia).
  assert (Hcount : 1 <= (Z.of_nat (length data) + 65534) / 65535).
  { apply Z.div_le_lower_bound; lia. }
  destruct (deflate_loop_stream data (length data) 0)
    as [blocks [E [Hl [n [Hn Hr]]]]]; [lia | lia | lia |].
  rewrite E. unfold concat_buffers.
  rewrite Z.sub_0_r in Hl.
  destruct (Z.leb_spec (Z.of_nat (length (concat blocks))) kMaxLength);
    [|lia].
  exists (concat blocks). split; [reflexivity|]. split; [exact Hl|].
  split; [intros Hnil; rewrite Hnil in Ed; discriminate|].
  intros _. apply (inflate_stored_fuel n); [exact Hr | exact Hn].
Qed.

(** X22. [deflate] writes its input as a stream of stored blocks of at
    most 65535 bytes, five bytes of header each, the last one marked
    final; a reader of stored blocks gets the input back.  On the empty
    input the stream is empty: it holds no block at all. *)
Theorem deflate_round_trip (data : Bytes) :
  Z.of_nat (length data) + 5 * ((Z.of_nat (length data) + 65534) / 65535)
    <= kMaxLength ->
  exists out,
    deflate kMaxLength data = Some out /\
    Z.of_nat (length out) =
      Z.of_nat (length data) +
      5 * ((Z.of_nat (length data) + 65534) / 65535) /\
    (data = [] -> out = []) /\
    (data <> [] -> inflate_stored (length out) out = Some data).
Proof. exact (deflate_stream data). Qed.

Lemma crc32_range data : 0 <= crc32 data <= 4294967295.
Proof.
  unfold crc32, JS.shr_u. rewrite Z.shiftr_0_r.
  pose proof (to_uint32_range
                (JS.xor (fold_left (crc_step crcTable) data 4294967295)
                   4294967295)) as H.
  unfold JS.two32 in H. lia.
Qed.

Lemma store_length array i v : length (store array i v) = length array.
Proof.
  unfold store. destruct (i <? 0); [reflexivity|]. apply length_insert.
Qed.

(** The scanlines fill the buffer they are given, whatever it holds. *)
Lemma scanlines_total data width height imageData :
  exists pos filled,
    scanlines data width height imageData = Some (pos, filled) /\
    length filled = length imageData.
Proof.
  unfold scanlines.
  destruct (for_loop_invariant
              (fun _ st => length (snd st) = length imageData)
              (Z.to_nat height) 0
              (fun y st =>
                 let '(pos, imageData) := st in
                 let imageData := store imageData pos 0 in
                 for_loop (Z.to_nat width) 0 (scanline_pixel data width y)
                   (pos + 1, imageData)) (0, imageData))
    as [[pos filled] [E H]].
  - reflexivity.
  - intros k [pos img] _ Hlen. cbn [snd] in Hlen.
    apply (for_loop_invariant
             (fun _ st => length (snd st) = length imageData)).
    + cbn [snd]. now rewrite store_length.
    + intros j [p im] _ Him. cbn [snd] in Him.
      eexists. split; [reflexivity|]. cbn [snd].
      now rewrite !store_length.
  - exists pos, filled. split; [exact E | exact H].
Qed.

Lemma bind_some {A B} (v : A) (f : A -> option B) : (Some v ≫= f) = f v.
Proof. reflexivity. Qed.

Ltac norm_nat :=
  repeat match goal with
         | |- context [Z.to_nat (Zpos ?p)] =>
             let v := eval vm_compute in (Z.to_nat (Zpos p)) in
             change (Z.to_nat (Zpos p)) with v
         | |- context [Z.to_nat 0] => change (Z.to_nat 0) with 0%nat
         end.

Lemma writeUInt8_Some v offset buf :
  0 <= v <= 255 -> 0 <= offset -> offset + 1 <= Z.of_nat (length buf) ->
  writeUInt8 v offset buf = Some (list_inserts (Z.to_nat offset) [v] buf).
Proof.
  intros Hv H1 H2. unfold writeUInt8.
  destruct (Z.leb_spec 0 v); [|lia].
  destruct (Z.leb_spec v 255); [|lia]. cbn [andb].
  now rewrite write_bytes_Some by (cbn [length]; lia).
Qed.

(** The IDAT buffer after the length, the type and the data are
    written: four bytes are left for the CRC. *)
Lemma idat_buffer compressed :
  copy_into compressed
    (write_ascii "IDAT" 4
       (list_inserts (Z.to_nat 0) (u32be (Z.of_nat (length compressed)))
          (replicate (Z.to_nat (Z.of_nat (length compressed) + 12)) 0)))
    8 0 (Z.of_nat (length compressed)) =
  u32be (Z.of_nat (length compressed)) ++ [73; 68; 65; 84] ++
  compressed ++ [0; 0; 0; 0].
Proof.
  set (c := length compressed).
  replace (Z.to_nat (Z.of_nat c + 12)) with (8 + (c + 4))%nat by lia.
  rewrite replicate_add, (replicate_add c 4).
  change (replicate 8 0) with [0; 0; 0; 0; 0; 0; 0; 0].
  change (replicate 4 0) with [0; 0; 0; 0].
  unfold write_ascii, copy_into, subarray, u32be. norm_nat.
  cbn [app list_inserts insert list_insert map list_ascii_of_string].
  rewrite Z.sub_0_r, Nat2Z.id. subst c.
  rewrite drop_0, take_ge by lia.
  match goal with
  | |- list_inserts 8 _ (?a0 :: ?a1 :: ?a2 :: ?a3 :: ?a4 :: ?a5 :: ?a6 ::
                           ?a7 :: ?rest) = _ =>
      change (list_inserts (length [a0; a1; a2; a3; a4; a5; a6; a7] + 0)
                compressed ([a0; a1; a2; a3; a4; a5; a6; a7] ++ rest) =
              [a0; a1; a2; a3] ++ [73; 68; 65; 84] ++ compressed ++
              [0; 0; 0; 0])
  end.
  rewrite list_inserts_app_r, list_inserts_0_r
    by (rewrite length_replicate; reflexivity).
  reflexivity.
Qed.

Lemma idat_tagged (len4 compressed : Bytes) :
  length len4 = 4%nat ->
  subarray (len4 ++ [73; 68; 65; 84] ++ compressed ++ [0; 0; 0; 0]) 4
    (Z.of_nat (length (len4 ++ [73; 68; 65; 84] ++ compressed ++
                       [0; 0; 0; 0])) - 4) =
  [73; 68; 65; 84] ++ compressed.
Proof.
  intros H4. unfold subarray.
  assert (E : Z.to_nat (Z.of_nat (length (len4 ++ [73; 68; 65; 84] ++
                                           compressed ++ [0; 0; 0; 0])) -
                        4 - 4) = length ([73; 68; 65; 84] ++ compressed)).
  { rewrite !length_app, H4. cbn [length]. lia. }
  rewrite E. change (Z.to_nat 4) with 4%nat.
  rewrite drop_app_length' by (symmetry; exact H4).
  rewrite (app_assoc [73; 68; 65; 84] compressed).
  apply take_app_length.
Qed.

(** The CRC goes into the last four bytes. *)
Lemma idat_crc (len4 compressed : Bytes) crc :
  length len4 = 4%nat -> 0 <= crc <= 4294967295 ->
  writeUInt32BE crc
    (Z.of_nat (length (len4 ++ [73; 68; 65; 84] ++ compressed ++
                       [0; 0; 0; 0])) - 4)
    (len4 ++ [73; 68; 65; 84] ++ compressed ++ [0; 0; 0; 0]) =
  Some (len4 ++ [73; 68; 65; 84] ++ compressed ++ u32be crc).
Proof.
  intros H4 Hcrc.
  assert (E : Z.of_nat (length (len4 ++ [73; 68; 65; 84] ++ compressed ++
                                [0; 0; 0; 0])) - 4 =
              Z.of_nat (length (len4 ++ [73; 68; 65; 84] ++ compressed))).
  { rewrite !length_app, H4. cbn [length]. lia. }
  rewrite E.
  rewrite writeUInt32BE_Some;
    [|exact Hcrc|lia|rewrite !length_app; cbn [length]; lia].
  rewrite Nat2Z.id. f_equal.
  set (front := len4 ++ [73; 68; 65; 84] ++ compressed).
  replace (len4 ++ [73; 68; 65; 84] ++ compressed ++ [0; 0; 0; 0])
    with (front ++ [0; 0; 0; 0])
    by (unfold front; rewrite <- !app_assoc; reflexivity).
  replace (len4 ++ [73; 68; 65; 84] ++ compressed ++ u32be crc)
    with (front ++ u32be crc)
    by (unfold front; rewrite <- !app_assoc; reflexivity).
  rewrite <- (Nat.add_0_r (length front)).
  rewrite list_inserts_app_r. reflexivity.
Qed.

Lemma generatePNG_layout data width height :
  0 <= width <= 4294967295 -> 0 <= height <= 4294967295 ->
  let n := (width * 4 + 1) * height in
  n + 5 * ((n + 65534) / 65535) + 57 <= kMaxLength ->
  n + 5 * ((n + 65534) / 65535) + 57 <= 4294967295 ->
  exists pos imageData compressed,
    scanlines data width height (replicate (Z.to_nat n) 0) =
      Some (pos, imageData) /\
    length imageData = Z.to_nat n /\
    deflate kMaxLength imageData = Some compressed /\
    (0 < n -> inflate_stored (length compressed) compressed =
              Some imageData) /\
    generatePNG_try kMaxLength data width height =
    Some (png_signature ++
          png_chunk "IHDR" (u32be width ++ u32be height ++ [8; 6; 0; 0; 0]) ++
          png_chunk "IDAT" compressed ++
          png_iend).
Proof.
  intros Hw Hh n Hmax H32.
  assert (Hn : 0 <= n) by (unfold n; nia).
  assert (Hcount : 0 <= (n + 65534) / 65535) by (apply Z.div_pos; lia).
  destruct (scanlines_total data width height (replicate (Z.to_nat n) 0))
    as [pos [imageData [Es Hlen]]].
  rewrite length_replicate in Hlen.
  destruct (deflate_stream imageData) as [compressed [Ed [Hcl [_ Hrt]]]].
  { rewrite Hlen, Z2Nat.id by lia. lia. }
  rewrite Hlen, Z2Nat.id in Hcl by lia.
  exists pos, imageData, compressed.
  split; [exact Es|]. split; [exact Hlen|]. split; [exact Ed|].
  split.
  { intros Hpos. apply Hrt. intros ->. cbn [length] in Hlen. lia. }
  unfold generatePNG_try. cbv zeta.
  (* the IHDR chunk *)
  rewrite (alloc_Some 25) by lia. rewrite bind_some.
  change (replicate (Z.to_nat 25) 0) with (replicate 25 0).
  cbn [replicate].
  rewrite (writeUInt32BE_Some 13) by (cbn [length]; lia). rewrite bind_some.
  unfold write_ascii. norm_nat.
  change (u32be 13) with [0; 0; 0; 13].
  cbn [list_inserts insert list_insert map list_ascii_of_string].
  rewrite (writeUInt32BE_Some width) by (cbn [length]; lia).
  rewrite bind_some. norm_nat. unfold u32be at 1.
  cbn [list_inserts insert list_insert].
  rewrite (writeUInt32BE_Some height) by (cbn [length]; lia).
  rewrite bind_some. norm_nat. unfold u32be at 1.
  cbn [list_inserts insert list_insert].
  do 5 (rewrite writeUInt8_Some by (cbn [length]; lia);
        rewrite bind_some; norm_nat;
        cbn [list_inserts insert list_insert]).
  rewrite writeUInt32BE_Some by (cbn [length]; lia || apply crc32_range).
  rewrite bind_some. norm_nat. unfold u32be at 1.
  cbn [list_inserts insert list_insert].
  (* the scanlines and their stream *)
  rewrite (alloc_Some ((width * 4 + 1) * height)) by (fold n; lia).
  rewrite bind_some. fold n. rewrite Es, bind_some. cbn [snd].
  rewrite Ed, bind_some.
  (* the IDAT chunk *)
  rewrite (alloc_Some (Z.of_nat (length compressed) + 12)) by lia.
  rewrite bind_some.
  rewrite (writeUInt32BE_Some (Z.of_nat (length compressed)))
    by (rewrite ?length_replicate; lia).
  rewrite bind_some, idat_buffer.
  rewrite idat_tagged by reflexivity.
  rewrite idat_crc by (reflexivity || apply crc32_range).
  rewrite bind_some.
  unfold concat_buffers.
  match goal with
  | |- (if ?a <=? ?b then _ else _) = _ =>
      destruct (Z.leb_spec a b) as [_ | Hbig]
  end.
  - unfold png_chunk, u32be. cbn [concat length map list_ascii_of_string app].
    rewrite app_nil_r. change (Z.of_nat 13) with 13.
    change (13 ≫ 24) with 0. change (13 ≫ 16) with 0. change (13 ≫ 8) with 0.
    change (0 `mod` 256) with 0. change (13 `mod` 256) with 13.
    rewrite <- !app_assoc. reflexivity.
  - exfalso. revert Hbig.
    cbn [concat]. rewrite !length_app. cbn [length png_signature png_iend u32be]. rewrite ?length_app. cbn [length u32be]. lia.
Qed.

Lemma png_iend_chunk : png_iend = png_chunk "IEND" [].
Proof. vm_compute. reflexivity. Qed.

(** X23. When the image and its stream fit in a buffer of the host and
    in a 32-bit length, [generatePNG] does not fall back on its
    placeholder: it returns the signature and three chunks, each with
    its length and the CRC of its type and body.  IHDR holds the width
    and the height, 8 bits per sample, colour type 6; IDAT holds the
    filtered scanlines as stored blocks, with no zlib header before them
    and no checksum after; IEND is empty. *)
Theorem generatePNG_chunks (data : Bytes) (width height : Z) :
  1 <= width <= 4294967295 -> 1 <= height <= 4294967295 ->
  let n := (width * 4 + 1) * height in
  n + 5 * ((n + 65534) / 65535) + 57 <= kMaxLength ->
  n + 5 * ((n + 65534) / 65535) + 57 <= 4294967295 ->
  exists pos imageData compressed,
    scanlines data width height (replicate (Z.to_nat n) 0) =
      Some (pos, imageData) /\
    Z.of_nat (length imageData) = n /\
    inflate_stored (length compressed) compressed = Some imageData /\
    generatePNG kMaxLength data width height =
    png_signature ++
    png_chunk "IHDR" (u32be width ++ u32be height ++ [8; 6; 0; 0; 0]) ++
    png_chunk "IDAT" compressed ++
    png_chunk "IEND" [].
Proof.
  intros Hw Hh n Hmax H32.
  destruct (generatePNG_layout data width height ltac:(lia) ltac:(lia)
              Hmax H32) as [pos [imageData [compressed [Es [Hl [_ [Hr E]]]]]]].
  fold n in Es, Hl, Hr.
  assert (Hn : 0 < n) by (unfold n; nia).
  exists pos, imageData, compressed.
  split; [exact Es|]. split; [lia|]. split; [exact (Hr Hn)|].
  unfold generatePNG. rewrite E, png_iend_chunk. reflexivity.
Qed.

(** A loop whose turns keep the length of the byte array. *)
Lemma for_loop_length (L : nat) n i (body : Z -> Bytes -> option Bytes) bm :
  length bm = L ->
  (forall k cur, (k < n)%nat -> length cur = L ->
     exists cur', body (i + Z.of_nat k) cur = Some cur' /\ length cur' = L) ->
  exists bm', for_loop n i body bm = Some bm' /\ length bm' = L.
Proof.
  intros H0 Hstep.
  apply (for_loop_invariant (fun _ cur => length cur = L)); [exact H0|].
  intros k cur Hk Hcur. now apply Hstep.
Qed.

Lemma store_rgba_length bm index c :
  length (store_rgba bm index c) = length bm.
Proof.
  destruct c as [[[r g] b] a]. unfold store_rgba.
  now rewrite !store_length.
Qed.

Lemma fill_pattern_length actualSize pixelSize bm :
  exists bm',
    fill_pattern actualSize pixelSize bm = Some bm' /\
    length bm' = length bm.
Proof.
  unfold fill_pattern.
  apply for_loop_length; [reflexivity|]. intros y cur _ Hcur.
  apply for_loop_length; [exact Hcur|]. intros x cur' _ Hcur'.
  eexists. split; [reflexivity|]. now rewrite store_rgba_length.
Qed.

Lemma fill_color_length bgColor bm :
  exists bm', fill_color bgColor bm = Some bm' /\ length bm' = length bm.
Proof.
  unfold fill_color.
  apply for_loop_length; [reflexivity|]. intros k cur _ Hcur.
  eexists. split; [reflexivity|]. now rewrite store_rgba_length.
Qed.

Lemma blit_cell_length pal (b : PixelBuffer.t) pixelSize actualSize y x bm :
  PixelBuffer.wf b ->
  0 <= y < Z.of_nat (PixelBuffer.height b) ->
  0 <= x < Z.of_nat (PixelBuffer.width b) ->
  exists bm',
    blit_cell pal (PixelBuffer.getData b) pixelSize actualSize y x bm =
      Some bm' /\
    length bm' = length bm.
Proof.
  intros Hb Hy Hx. unfold blit_cell, PixelBuffer.getData.
  destruct (read_cell _ _ (PixelBuffer.buffer b) y x Hb Hy Hx) as [ci ->].
  destruct (_ || _); [eauto|].
  destruct (js_index (colors pal) ci) as [hexColor|]; [|eauto].
  destruct (String.eqb hexColor ""); [eauto|].
  apply for_loop_length; [reflexivity|]. intros dy cur _ Hcur.
  apply for_loop_length; [exact Hcur|]. intros dx cur' _ Hcur'.
  destruct (_ && _); [|eauto].
  eexists. split; [reflexivity|]. now rewrite store_rgba_length.
Qed.

(** The bitmap of [toPNG]: its side is a multiple of the buffer width. *)
Lemma toPNG_bitmap_total (b : PixelBuffer.t) size bg paletteName pal :
  PixelBuffer.wf b ->
  Palettes.getPalette paletteName = Some pal ->
  let side :=
    Z.max 1 (size / Z.of_nat (PixelBuffer.width b)) *
    Z.of_nat (PixelBuffer.width b) in
  side * side * 4 <= kMaxLength ->
  exists bitmapData,
    toPNG_bitmap kMaxLength b size bg paletteName =
      Some (bitmapData, side) /\
    Z.of_nat (length bitmapData) = side * side * 4.
Proof.
  intros Hb Hpal side Hmax.
  assert (Hside : 0 <= side) by (unfold side; nia).
  set (bm0 := replicate (Z.to_nat (side * side * 4)) 0).
  assert (H0 : length bm0 = Z.to_nat (side * side * 4))
    by apply length_replicate.
  assert (Hblit : forall bm1, length bm1 = length bm0 ->
            exists bm2,
              for_loop (PixelBuffer.height b) 0
                (fun y => for_loop (PixelBuffer.width b) 0 (fun x =>
                   blit_cell pal (PixelBuffer.getData b)
                     (Z.max 1 (size / Z.of_nat (PixelBuffer.width b))) side
                     y x)) bm1 = Some bm2 /\
              length bm2 = length bm0).
  { intros bm1 H1. apply for_loop_length; [exact H1|].
    intros y cur Hy Hcur.
    apply for_loop_length; [exact Hcur|]. intros x cur' Hx Hcur'.
    rewrite <- Hcur'. apply blit_cell_length; [exact Hb | lia | lia]. }
  unfold toPNG_bitmap. rewrite Hpal, bind_some. cbv zeta. fold side.
  rewrite (alloc_Some (side * side * 4)) by nia. rewrite bind_some.
  fold bm0.
  destruct (String.eqb bg "transparent").
  { destruct (Hblit bm0 eq_refl) as [bm2 [E2 H2]].
    exists bm2. rewrite bind_some, E2. split; [reflexivity | lia]. }
  destruct (String.eqb bg "pattern").
  - destruct (fill_pattern_length side
                (Z.max 1 (size / Z.of_nat (PixelBuffer.width b))) bm0)
      as [bm1 [E1 H1]].
    destruct (Hblit bm1 H1) as [bm2 [E2 H2]].
    exists bm2. rewrite E1, bind_some, E2. split; [reflexivity | lia].
  - destruct (fill_color_length (hexToRgba bg) bm0) as [bm1 [E1 H1]].
    destruct (Hblit bm1 H1) as [bm2 [E2 H2]].
    exists bm2. rewrite E1, bind_some, E2. split; [reflexivity | lia].
Qed.

(** The chunks of the PNG that [toPNG] returns on a palette. *)
Lemma toPNG_chunks (b : PixelBuffer.t) (size : Z)
    (bg paletteName : string) (pal : Palette) :
  PixelBuffer.wf b -> (0 < PixelBuffer.width b)%nat ->
  Palettes.getPalette paletteName = Some pal ->
  let side :=
    Z.max 1 (size / Z.of_nat (PixelBuffer.width b)) *
    Z.of_nat (PixelBuffer.width b) in
  let n := (side * 4 + 1) * side in
  n + 5 * ((n + 65534) / 65535) + 57 <= kMaxLength ->
  n + 5 * ((n + 65534) / 65535) + 57 <= 4294967295 ->
  exists compressed,
    toPNG kMaxLength b size bg paletteName =
    png_signature ++
    png_chunk "IHDR" (u32be side ++ u32be side ++ [8; 6; 0; 0; 0]) ++
    png_chunk "IDAT" compressed ++
    png_chunk "IEND" [].
Proof.
  intros Hb Hw Hpal side n Hmax H32.
  set (w := Z.of_nat (PixelBuffer.width b)) in *.
  assert (Hw' : 1 <= w) by (unfold w; lia).
  assert (Hside : w <= side) by (unfold side; nia).
  assert (Hcount : 0 <= (n + 65534) / 65535).
  { apply Z.div_pos; [unfold n; nia | lia]. }
  assert (Hn : side * side * 4 <= n) by (unfold n; nia).
  destruct (toPNG_bitmap_total b size bg paletteName pal Hb Hpal)
    as [bitmapData [E Hlen]]; [fold w; fold side; lia|].
  fold w in E. fold side in E.
  destruct (generatePNG_layout bitmapData side side ltac:(lia) ltac:(lia)
              Hmax H32) as [pos [img [compressed [_ [_ [_ [_ Eg]]]]]]].
  exists compressed. unfold toPNG. fold w. rewrite E.
  unfold generatePNG. rewrite Eg, png_iend_chunk. reflexivity.
Qed.

(** X24. For a palette name that resolves to a palette and an image that
    fits in the buffers of the host, [toPNG] does not fall back on the
    placeholder.  The image it encodes is a square whose side is the
    buffer width times [max(1, floor(size / width))]: the requested size
    rounded down to a multiple of the width, and never less than the
    width. *)
Theorem toPNG_dimensions (b : PixelBuffer.t) (size : Z)
    (bg paletteName : string) (pal : Palette) :
  PixelBuffer.wf b -> (0 < PixelBuffer.width b)%nat ->
  Palettes.getPalette paletteName = Some pal ->
  let side :=
    Z.max 1 (size / Z.of_nat (PixelBuffer.width b)) *
    Z.of_nat (PixelBuffer.width b) in
  let n := (side * 4 + 1) * side in
  n + 5 * ((n + 65534) / 65535) + 57 <= kMaxLength ->
  n + 5 * ((n + 65534) / 65535) + 57 <= 4294967295 ->
  (Z.of_nat (PixelBuffer.width b) <= size ->
   side <= size < side + Z.of_nat (PixelBuffer.width b)) /\
  (size < Z.of_nat (PixelBuffer.width b) ->
   side = Z.of_nat (PixelBuffer.width b)) /\
  exists compressed,
    toPNG kMaxLength b size bg paletteName =
    png_signature ++
    png_chunk "IHDR" (u32be side ++ u32be side ++ [8; 6; 0; 0; 0]) ++
    png_chunk "IDAT" compressed ++
    png_chunk "IEND" [].
Proof.
  intros Hb Hw Hpal side n Hmax H32.
  set (w := Z.of_nat (PixelBuffer.width b)) in *.
  assert (Hw' : 1 <= w) by (unfold w; lia).
  assert (Hps : 1 <= Z.max 1 (size / w)) by lia.
  assert (Hside : w <= side) by (unfold side; nia).
  assert (Hcount : 0 <= (n + 65534) / 65535).
  { apply Z.div_pos; [unfold n; nia | lia]. }
  assert (Hn : side * side * 4 <= n) by (unfold n; nia).
  pose proof (Z.div_mod size w ltac:(lia)) as Hdm.
  pose proof (Z.mod_pos_bound size w ltac:(lia)) as Hmb.
  split; [|split].
  - intros Hsz. assert (1 <= size / w) by (apply Z.div_le_lower_bound; lia).
    unfold side. rewrite Z.max_r by lia. nia.
  - intros Hsz. assert (size / w <= 0).
    { apply Z.lt_succ_r, Z.div_lt_upper_bound; lia. }
    unfold side. rewrite Z.max_l by lia. lia.
  - exact (toPNG_chunks b size bg paletteName pal Hb Hw Hpal Hmax H32).
Qed.

End Deflate.

Lemma generatePNG_chunks_witness :
  exists pos imageData compressed,
    Exporters.scanlines [1; 2; 3; 4] 1 1 (replicate 5 0) =
      Some (pos, imageData) /\
    Z.of_nat (length imageData) = (1 * 4 + 1) * 1 /\
    inflate_stored (length compressed) compressed = Some imageData /\
    Exporters.generatePNG 4294967295 [1; 2; 3; 4] 1 1 =
    Exporters.png_signature ++
    png_chunk "IHDR"
      (Exporters.u32be 1 ++ Exporters.u32be 1 ++ [8; 6; 0; 0; 0]) ++
    png_chunk "IDAT" compressed ++
    png_chunk "IEND" [].
Proof.
  apply (generatePNG_chunks 4294967295 [1; 2; 3; 4] 1 1);
    vm_compute; intuition discriminate.
Defined.

Lemma toPNG_dimensions_witness :
  (16 <= 100 -> 96 <= 100 < 96 + 16) /\
  (100 < 16 -> 96 = 16) /\
  exists compressed,
    Exporters.toPNG 4294967295 (PixelBuffer.make 16 16) 100 "pattern" "pastel" =
    Exporters.png_signature ++
    png_chunk "IHDR"
      (Exporters.u32be 96 ++ Exporters.u32be 96 ++ [8; 6; 0; 0; 0]) ++
    png_chunk "IDAT" compressed ++
    png_chunk "IEND" [].
Proof.
  apply (toPNG_dimensions 4294967295 (PixelBuffer.make 16 16) 100 "pattern"
           "pastel" Palettes.pastel);
    [apply make_wf | cbn; lia | reflexivity
    | vm_compute; discriminate | vm_compute; discriminate].
Defined.

Lemma deflate_round_trip_witness :
  exists out,
    Exporters.deflate 4294967295 [7; 0; 255] = Some out /\
    Z.of_nat (length out) = 3 + 5 * ((3 + 65534) / 65535) /\
    (([7; 0; 255] : Exporters.Bytes) = [] -> out = []) /\
    (([7; 0; 255] : Exporters.Bytes) <> [] ->
     inflate_stored (length out) out = Some [7; 0; 255]).
Proof.
  apply (deflate_round_trip 4294967295 [7; 0; 255]).
  vm_compute. discriminate.
Defined.


(** ** The PNG encoder: the pixels of the bitmap *)

Section Bitmap.

Import Exporters.

Lemma load_store bm i v j :
  0 <= i < Z.of_nat (length bm) -> 0 <= j ->
  load_or_0 (store bm i v) j =
  if j =? i then v mod 256 else load_or_0 bm j.
Proof.
  intros Hi Hj. unfold load_or_0, store, Bytes in *.
  destruct (Z.ltb_spec i 0); [lia|].
  rewrite !js_index_lookup by lia.
  destruct (Z.eqb_spec j i) as [-> | Hne].
  - rewrite list_lookup_insert_eq by lia. reflexivity.
  - rewrite list_lookup_insert_ne by lia. reflexivity.
Qed.

Lemma load_store_rgba bm p0 c p k :
  0 <= p0 -> p0 * 4 + 3 < Z.of_nat (length bm) -> 0 <= p -> 0 <= k <= 3 ->
  load_or_0 (store_rgba bm (p0 * 4) c) (p * 4 + k) =
  if p =? p0
  then let '(r, g, b, a) := as_bytes c in
       if k =? 0 then r else if k =? 1 then g else if k =? 2 then b else a
  else load_or_0 bm (p * 4 + k).
Proof.
  intros Hp0 Hlen Hp Hk. destruct c as [[[r g] b] a].
  unfold store_rgba, as_bytes.
  rewrite !load_store by (rewrite ?store_length; lia).
  destruct (Z.eqb_spec p p0) as [-> | Hne].
  - destruct (Z.eqb_spec k 0) as [-> | H0].
    { repeat match goal with
             | |- context [?a =? ?b] => destruct (Z.eqb_spec a b); try lia
             end; try reflexivity. }
    destruct (Z.eqb_spec k 1) as [-> | H1].
    { repeat match goal with
             | |- context [?a =? ?b] => destruct (Z.eqb_spec a b); try lia
             end; try reflexivity. }
    destruct (Z.eqb_spec k 2) as [-> | H2].
    { repeat match goal with
             | |- context [?a =? ?b] => destruct (Z.eqb_spec a b); try lia
             end; try reflexivity. }
    assert (k = 3) by lia. subst k.
    repeat match goal with
           | |- context [?a =? ?b] => destruct (Z.eqb_spec a b); try lia
           end; try reflexivity.
  - repeat match goal with
           | |- context [?a =? ?b] => destruct (Z.eqb_spec a b); try lia
           end; try reflexivity.
Qed.

Lemma pixel_index_inj side X Y X0 Y0 :
  0 <= X < side -> 0 <= X0 < side ->
  Y * side + X = Y0 * side + X0 -> X = X0 /\ Y = Y0.
Proof.
  intros HX HX0 E.
  assert (E' : (Y - Y0) * side = X0 - X) by lia.
  assert (Y = Y0); [|subst; lia].
  destruct (Z.lt_trichotomy Y Y0) as [Hlt | [-> | Hgt]]; [|reflexivity|].
  - assert (Y - Y0 <= -1) by lia. nia.
  - assert (1 <= Y - Y0) by lia. nia.
Qed.

(** Writing one pixel. *)
Lemma repaints_pixel side X0 Y0 c :
  0 <= X0 < side -> 0 <= Y0 < side ->
  repaints side (fun bm => Some (store_rgba bm ((Y0 * side + X0) * 4) c))
    (fun X Y => if (X =? X0) && (Y =? Y0) then Some c else None).
Proof.
  intros HX0 HY0 bm Hlen. eexists. split; [reflexivity|].
  split; [apply store_rgba_length|].
  intros X Y HX HY. unfold bitmap_pixel.
  set (p0 := Y0 * side + X0). set (p := Y * side + X).
  assert (Hp0 : 0 <= p0 < side * side) by (unfold p0; nia).
  assert (Hp : 0 <= p) by (unfold p; nia).
  replace (p * 4) with (p * 4 + 0) at 1 by lia.
  rewrite !load_store_rgba by lia.
  replace (p * 4 + 0) with (p * 4) by lia.
  destruct (Z.eqb_spec p p0) as [E | Hne].
  - destruct (pixel_index_inj side X Y X0 Y0 HX HX0 E) as [-> ->].
    rewrite !Z.eqb_refl. cbn [andb].
    destruct c as [[[r g] b] a]. reflexivity.
  - destruct (Z.eqb_spec X X0) as [-> | HneX]; [|reflexivity].
    destruct (Z.eqb_spec Y Y0) as [-> | HneY]; [|reflexivity].
    now contradiction Hne.
Qed.

Lemma repaints_none side : repaints side (fun bm => Some bm) (fun _ _ => None).
Proof.
  intros bm Hlen. exists bm. split; [reflexivity|]. split; [reflexivity|].
  reflexivity.
Qed.

Lemma repaints_ext side op f g :
  (forall X Y, 0 <= X < side -> 0 <= Y < side -> f X Y = g X Y) ->
  repaints side op f -> repaints side op g.
Proof.
  intros Hfg H bm Hlen. destruct (H bm Hlen) as [bm' [E [Hl Hc]]].
  exists bm'. split; [exact E|]. split; [exact Hl|].
  intros X Y HX HY. rewrite <- Hfg by assumption. now apply Hc.
Qed.

(** A counted loop of such operations: a later turn overrides an earlier
    one. *)
Lemma repaints_for_loop side n i (body : Z -> Bytes -> option Bytes)
    (f : Z -> Z -> Z -> option (Z * Z * Z * Z))
    (U : nat -> Z -> Z -> option (Z * Z * Z * Z)) :
  (forall k, (k < n)%nat -> repaints side (body (i + Z.of_nat k))
                              (f (i + Z.of_nat k))) ->
  (forall X Y, 0 <= X < side -> 0 <= Y < side -> U O X Y = None) ->
  (forall k X Y, (k < n)%nat -> 0 <= X < side -> 0 <= Y < side ->
     U (S k) X Y =
     match f (i + Z.of_nat k) X Y with Some c => Some c | None => U k X Y end) ->
  repaints side (for_loop n i body) (U n).
Proof.
  intros Hbody U0 US bm Hlen.
  destruct (for_loop_invariant
              (fun k bm' =>
                 (k <= n)%nat /\ length bm' = length bm /\
                 forall X Y, 0 <= X < side -> 0 <= Y < side ->
                   bitmap_pixel bm' side X Y =
                   match U k X Y with
                   | Some c => as_bytes c
                   | None => bitmap_pixel bm side X Y
                   end) n i body bm) as [bm' [E [_ [Hl Hc]]]].
  - split; [lia|]. split; [reflexivity|]. intros X Y HX HY.
    now rewrite U0.
  - intros k cur Hk [_ [Hl Hc]].
    destruct (Hbody k Hk cur ltac:(rewrite Hl; exact Hlen))
      as [cur' [E [Hl' Hc']]].
    exists cur'. split; [exact E|]. split; [lia|]. split; [congruence|].
    intros X Y HX HY. rewrite Hc', US by assumption.
    destruct (f (i + Z.of_nat k) X Y); [reflexivity|]. now apply Hc.
  - exists bm'. split; [exact E|]. split; [exact Hl|]. exact Hc.
Qed.

Ltac split_cases :=
  repeat match goal with
         | |- context [?a <=? ?b] => destruct (Z.leb_spec a b)
         | |- context [?a <? ?b] => destruct (Z.ltb_spec a b)
         | |- context [?a =? ?b] => destruct (Z.eqb_spec a b)
         end;
  cbn [andb orb negb]; try reflexivity; try lia.

(** One cell of the buffer, scaled to a block of pixels. *)
Lemma blit_cell_repaints pal (b : PixelBuffer.t) ps y x :
  PixelBuffer.wf b -> 1 <= ps ->
  0 <= y < Z.of_nat (PixelBuffer.height b) ->
  0 <= x < Z.of_nat (PixelBuffer.width b) ->
  repaints (ps * Z.of_nat (PixelBuffer.width b))
    (blit_cell pal (PixelBuffer.getData b) ps
       (ps * Z.of_nat (PixelBuffer.width b)) y x)
    (fun X Y =>
       if (x * ps <=? X) && (X <? x * ps + ps) &&
          (y * ps <=? Y) && (Y <? y * ps + ps)
       then drawn_color pal b x y else None).
Proof.
  intros Hb Hps Hy Hx.
  set (A := ps * Z.of_nat (PixelBuffer.width b)).
  unfold blit_cell, drawn_color.
  destruct (read_cell _ _ (PixelBuffer.buffer b) y x Hb Hy Hx) as [ci Eci].
  unfold PixelBuffer.getData. rewrite Eci. unfold cell_color.
  destruct (_ || _).
  { eapply repaints_ext; [|apply repaints_none].
    intros X Y _ _. now destruct (_ && _). }
  destruct (js_index (colors pal) ci) as [hex|].
  2:{ eapply repaints_ext; [|apply repaints_none].
      intros X Y _ _. now destruct (_ && _). }
  destruct (String.eqb hex "").
  { eapply repaints_ext; [|apply repaints_none].
    intros X Y _ _. now destruct (_ && _). }
  set (color := hexToRgba hex).
  apply (repaints_ext A _
           (fun X Y =>
              if (y * ps <=? Y) && (Y <? y * ps + Z.of_nat (Z.to_nat ps)) &&
                 (x * ps <=? X) && (X <? x * ps + ps)
              then Some color else None)).
  { intros X Y _ _. rewrite Z2Nat.id by lia. split_cases. }
  apply (repaints_for_loop A _ _ _
           (fun dy X Y =>
              if (Y =? y * ps + dy) && (x * ps <=? X) && (X <? x * ps + ps)
              then Some color else None)
           (fun k X Y =>
              if (y * ps <=? Y) && (Y <? y * ps + Z.of_nat k) &&
                 (x * ps <=? X) && (X <? x * ps + ps)
              then Some color else None)).
  - intros k Hk.
    apply (repaints_ext A _
             (fun X Y =>
                if (Y =? y * ps + (0 + Z.of_nat k)) && (x * ps <=? X) &&
                   (X <? x * ps + Z.of_nat (Z.to_nat ps))
                then Some color else None)).
    { intros X Y _ _. rewrite Z2Nat.id by lia. reflexivity. }
    apply (repaints_for_loop A _ _ _
             (fun dx X Y =>
                if (X =? x * ps + dx) && (Y =? y * ps + (0 + Z.of_nat k))
                then Some color else None)
             (fun j X Y =>
                if (Y =? y * ps + (0 + Z.of_nat k)) && (x * ps <=? X) &&
                   (X <? x * ps + Z.of_nat j)
                then Some color else None)).
    + intros j Hj.
      set (fx := x * ps + (0 + Z.of_nat j)).
      set (fy := y * ps + (0 + Z.of_nat k)).
      assert (Hfx : 0 <= fx < A) by (unfold fx, A; nia).
      assert (Hfy : 0 <= fy) by (unfold fy; nia).
      destruct (Z.ltb_spec fy A) as [Hin | Hout].
      * replace ((0 <=? fx) && (fx <? A) && (0 <=? fy) && true) with true
          by (symmetry; split_cases).
        apply repaints_pixel; lia.
      * replace ((0 <=? fx) && (fx <? A) && (0 <=? fy) && false) with false
          by (symmetry; split_cases).
        eapply repaints_ext; [|apply repaints_none].
        intros X Y HX HY. split_cases.
    + intros X Y HX HY. split_cases.
    + intros j X Y Hj HX HY. split_cases.
  - intros X Y HX HY. split_cases.
  - intros k X Y Hk HX HY. split_cases.
Qed.

Lemma div_block k ps X : 1 <= ps -> k * ps <= X < k * ps + ps -> X / ps = k.
Proof.
  intros Hps HX. symmetry. apply (Z.div_unique X ps k (X - k * ps)); lia.
Qed.

Lemma div_block_bounds ps X :
  1 <= ps -> X / ps * ps <= X < X / ps * ps + ps.
Proof.
  intros Hps. pose proof (Z.div_mod X ps ltac:(lia)).
  pose proof (Z.mod_pos_bound X ps ltac:(lia)). lia.
Qed.

(** All the cells: the pixel [(X, Y)] shows the cell
    [(X / ps, Y / ps)]. *)
Lemma blit_all_repaints pal (b : PixelBuffer.t) ps :
  PixelBuffer.wf b -> 1 <= ps ->
  repaints (ps * Z.of_nat (PixelBuffer.width b))
    (for_loop (PixelBuffer.height b) 0 (fun y =>
       for_loop (PixelBuffer.width b) 0 (fun x =>
         blit_cell pal (PixelBuffer.getData b) ps
           (ps * Z.of_nat (PixelBuffer.width b)) y x)))
    (fun X Y =>
       if Y / ps <? Z.of_nat (PixelBuffer.height b)
       then drawn_color pal b (X / ps) (Y / ps) else None).
Proof.
  intros Hb Hps.
  set (w := PixelBuffer.width b). set (h := PixelBuffer.height b).
  set (A := ps * Z.of_nat w).
  apply (repaints_ext A _
           (fun X Y =>
              if Y <? Z.of_nat h * ps
              then drawn_color pal b (X / ps) (Y / ps) else None)).
  { intros X Y HX HY. pose proof (div_block_bounds ps Y Hps).
    destruct (Z.ltb_spec Y (Z.of_nat h * ps));
      destruct (Z.ltb_spec (Y / ps) (Z.of_nat h)); try reflexivity; nia. }
  apply (repaints_for_loop A _ _ _
           (fun y X Y =>
              if (y * ps <=? Y) && (Y <? y * ps + ps)
              then drawn_color pal b (X / ps) y else None)
           (fun k X Y =>
              if Y <? Z.of_nat k * ps
              then drawn_color pal b (X / ps) (Y / ps) else None)).
  - intros k Hk.
    apply (repaints_ext A _
             (fun X Y =>
                if ((0 + Z.of_nat k) * ps <=? Y) &&
                   (Y <? (0 + Z.of_nat k) * ps + ps) &&
                   (X <? Z.of_nat w * ps)
                then drawn_color pal b (X / ps) (0 + Z.of_nat k) else None)).
    { intros X Y HX HY. unfold A in HX.
      destruct (Z.ltb_spec X (Z.of_nat w * ps)); [|lia].
      now rewrite andb_true_r. }
    apply (repaints_for_loop A _ _ _
             (fun x X Y =>
                if (x * ps <=? X) && (X <? x * ps + ps) &&
                   ((0 + Z.of_nat k) * ps <=? Y) &&
                   (Y <? (0 + Z.of_nat k) * ps + ps)
                then drawn_color pal b x (0 + Z.of_nat k) else None)
             (fun j X Y =>
                if ((0 + Z.of_nat k) * ps <=? Y) &&
                   (Y <? (0 + Z.of_nat k) * ps + ps) &&
                   (X <? Z.of_nat j * ps)
                then drawn_color pal b (X / ps) (0 + Z.of_nat k) else None)).
    + intros j Hj. apply blit_cell_repaints; [exact Hb | exact Hps | |];
        fold h; fold w; lia.
    + intros X Y HX HY. split_cases.
    + intros j X Y Hj HX HY.
      destruct (Z.leb_spec ((0 + Z.of_nat j) * ps) X);
        destruct (Z.ltb_spec X ((0 + Z.of_nat j) * ps + ps));
        cbn [andb].
      * rewrite (div_block (0 + Z.of_nat j) ps X Hps) by lia.
        destruct (Z.ltb_spec X (Z.of_nat (S j) * ps)); [|lia].
        destruct (Z.ltb_spec X (Z.of_nat j * ps)); [lia|].
        rewrite !andb_true_r, !andb_false_r.
        destruct (_ && _); [|reflexivity].
        now destruct (drawn_color pal b (0 + Z.of_nat j) (0 + Z.of_nat k)).
      * destruct (Z.ltb_spec X (Z.of_nat (S j) * ps)); [lia|].
        destruct (Z.ltb_spec X (Z.of_nat j * ps)); [lia|]. reflexivity.
      * destruct (Z.ltb_spec X (Z.of_nat (S j) * ps)); [|lia].
        destruct (Z.ltb_spec X (Z.of_nat j * ps)); [|lia]. reflexivity.
      * lia.
  - intros X Y HX HY. split_cases.
  - intros k X Y Hk HX HY.
    destruct (Z.leb_spec ((0 + Z.of_nat k) * ps) Y);
      destruct (Z.ltb_spec Y ((0 + Z.of_nat k) * ps + ps));
      cbn [andb].
    + rewrite (div_block (0 + Z.of_nat k) ps Y Hps) by lia.
      destruct (Z.ltb_spec Y (Z.of_nat (S k) * ps)); [|lia].
      destruct (Z.ltb_spec Y (Z.of_nat k * ps)); [lia|].
      now destruct (drawn_color pal b (X / ps) (0 + Z.of_nat k)).
    + destruct (Z.ltb_spec Y (Z.of_nat (S k) * ps)); [lia|].
      destruct (Z.ltb_spec Y (Z.of_nat k * ps)); [lia|]. reflexivity.
    + destruct (Z.ltb_spec Y (Z.of_nat (S k) * ps)); [|lia].
      destruct (Z.ltb_spec Y (Z.of_nat k * ps)); [|lia]. reflexivity.
    + lia.
Qed.

(** The checkerboard. *)
Lemma fill_pattern_repaints side ps :
  0 <= side ->
  repaints side (fill_pattern side ps)
    (fun X Y =>
       Some (if (X / ps + Y / ps) mod 2 =? 0 then 240 else 220,
             if (X / ps + Y / ps) mod 2 =? 0 then 240 else 220,
             if (X / ps + Y / ps) mod 2 =? 0 then 240 else 220, 255)).
Proof.
  intros Hside. unfold fill_pattern.
  set (g := fun X Y : Z =>
              (if (X / ps + Y / ps) mod 2 =? 0 then 240 else 220,
               if (X / ps + Y / ps) mod 2 =? 0 then 240 else 220,
               if (X / ps + Y / ps) mod 2 =? 0 then 240 else 220, 255)).
  apply (repaints_ext side _
           (fun X Y => if Y <? Z.of_nat (Z.to_nat side)
                       then Some (g X Y) else None)).
  { intros X Y HX HY. rewrite Z2Nat.id by lia.
    destruct (Z.ltb_spec Y side); [reflexivity | lia]. }
  apply (repaints_for_loop side _ _ _
           (fun y X Y => if Y =? y then Some (g X Y) else None)
           (fun k X Y => if Y <? Z.of_nat k then Some (g X Y) else None)).
  - intros k Hk.
    apply (repaints_ext side _
             (fun X Y => if (Y =? 0 + Z.of_nat k) &&
                            (X <? Z.of_nat (Z.to_nat side))
                         then Some (g X Y) else None)).
    { intros X Y HX HY. rewrite Z2Nat.id by lia.
      destruct (Z.ltb_spec X side); [|lia]. now rewrite andb_true_r. }
    apply (repaints_for_loop side _ _ _
             (fun x X Y => if (X =? x) && (Y =? 0 + Z.of_nat k)
                           then Some (g x (0 + Z.of_nat k)) else None)
             (fun j X Y => if (Y =? 0 + Z.of_nat k) && (X <? Z.of_nat j)
                           then Some (g X Y) else None)).
    + intros j Hj. apply repaints_pixel; lia.
    + intros X Y HX HY. split_cases.
    + intros j X Y Hj HX HY.
      destruct (Z.eqb_spec X (0 + Z.of_nat j)) as [-> | HneX];
        destruct (Z.eqb_spec Y (0 + Z.of_nat k)) as [-> | HneY];
        cbn [andb]; split_cases.
  - intros X Y HX HY. split_cases.
  - intros k X Y Hk HX HY. split_cases.
Qed.

(** Writing the pixel of rank [p0], counted row by row. *)
Lemma repaints_rank side p0 c :
  0 <= p0 < side * side ->
  repaints side (fun bm => Some (store_rgba bm (4 * p0) c))
    (fun X Y => if Y * side + X =? p0 then Some c else None).
Proof.
  intros Hp0 bm Hlen. eexists. split; [reflexivity|].
  split; [apply store_rgba_length|].
  intros X Y HX HY. unfold bitmap_pixel.
  set (p := Y * side + X).
  assert (Hp : 0 <= p) by (unfold p; nia).
  replace (4 * p0) with (p0 * 4) by lia.
  replace (p * 4) with (p * 4 + 0) at 1 by lia.
  rewrite !load_store_rgba by lia.
  replace (p * 4 + 0) with (p * 4) by lia.
  destruct (Z.eqb_spec p p0); [|reflexivity].
  destruct c as [[[r g] b] a]. reflexivity.
Qed.

(** The plain background. *)
Lemma fill_color_repaints side c :
  0 <= side ->
  repaints side (fill_color c) (fun _ _ => Some c).
Proof.
  intros Hside bm Hlen. unfold fill_color.
  assert (En : Nat.div (length bm + 3) 4 = Z.to_nat (side * side)).
  { assert (length bm = (Z.to_nat (side * side) * 4)%nat) as -> by nia.
    replace (Z.to_nat (side * side) * 4 + 3)%nat
      with (3 + Z.to_nat (side * side) * 4)%nat by lia.
    rewrite Nat.div_add by lia. reflexivity. }
  rewrite En.
  assert (H : repaints side
            (for_loop (Z.to_nat (side * side)) 0
               (fun k bm => Some (store_rgba bm (4 * k) c)))
            (fun X Y => if Y * side + X <? Z.of_nat (Z.to_nat (side * side))
                        then Some c else None)).
  { apply (repaints_for_loop side _ _ _
             (fun k X Y => if Y * side + X =? k then Some c else None)
             (fun j X Y => if Y * side + X <? Z.of_nat j
                           then Some c else None)).
    - intros k Hk. apply repaints_rank. nia.
    - intros X Y HX HY. destruct (Z.ltb_spec (Y * side + X) (Z.of_nat 0));
        [nia | reflexivity].
    - intros j X Y Hj HX HY. split_cases. }
  destruct (H bm Hlen) as [bm' [E [Hl Hc]]].
  exists bm'. split; [exact E|]. split; [exact Hl|].
  intros X Y HX HY. rewrite Hc by assumption.
  destruct (Z.ltb_spec (Y * side + X) (Z.of_nat (Z.to_nat (side * side))));
    [reflexivity | nia].
Qed.

Lemma zeros_pixel n side X Y :
  bitmap_pixel (replicate n 0) side X Y = (0, 0, 0, 0).
Proof.
  assert (G : forall i, load_or_0 (replicate n 0) i = 0).
  { intros i. unfold load_or_0, js_index.
    destruct (i <? 0); [reflexivity|].
    destruct (replicate n 0 !! Z.to_nat i) as [v|] eqn:E; [|reflexivity].
    apply lookup_replicate in E as [-> _]. reflexivity. }
  unfold bitmap_pixel. now rewrite !G.
Qed.

Lemma as_bytes_idempotent c : as_bytes (as_bytes c) = as_bytes c.
Proof.
  destruct c as [[[r g] b] a]. unfold as_bytes.
  now rewrite !Z.mod_mod by lia.
Qed.

Lemma background_pixel_bytes bg ps X Y :
  as_bytes (background_pixel bg ps X Y) = background_pixel bg ps X Y.
Proof.
  unfold background_pixel.
  destruct (String.eqb bg "transparent"); [reflexivity|].
  destruct (String.eqb bg "pattern"); [|apply as_bytes_idempotent].
  cbv zeta. now destruct (_ =? 0).
Qed.

End Bitmap.

Section BitmapOfBuffer.

Import Exporters.

Variable kMaxLength : Z.

(** The bitmap [toPNG] builds: the pixel [(X, Y)] shows the cell
    [(X / pixelSize, Y / pixelSize)] of the buffer when that cell is
    drawn, and the background otherwise. *)
Lemma toPNG_bitmap_pixels (b : PixelBuffer.t) size bg paletteName pal :
  PixelBuffer.wf b -> (0 < PixelBuffer.width b)%nat ->
  Palettes.getPalette paletteName = Some pal ->
  let ps := Z.max 1 (size / Z.of_nat (PixelBuffer.width b)) in
  let side := ps * Z.of_nat (PixelBuffer.width b) in
  side * side * 4 <= kMaxLength ->
  exists bitmapData,
    toPNG_bitmap kMaxLength b size bg paletteName =
      Some (bitmapData, side) /\
    Z.of_nat (length bitmapData) = side * side * 4 /\
    forall X Y, 0 <= X < side -> 0 <= Y < side ->
      bitmap_pixel bitmapData side X Y =
      match (if Y / ps <? Z.of_nat (PixelBuffer.height b)
             then drawn_color pal b (X / ps) (Y / ps) else None) with
      | Some c => as_bytes c
      | None => background_pixel bg ps X Y
      end.
Proof.
  intros Hb Hw Hpal ps side Hmax.
  assert (Hps : 1 <= ps) by (unfold ps; lia).
  assert (Hside : 0 <= side) by (unfold side; nia).
  set (bm0 := replicate (Z.to_nat (side * side * 4)) 0).
  assert (H0 : Z.of_nat (length bm0) = side * side * 4).
  { unfold bm0. rewrite length_replicate. nia. }
  assert (Hbg : exists bm1,
            (if String.eqb bg "transparent" then Some bm0
             else if String.eqb bg "pattern"
                  then fill_pattern side ps bm0
                  else fill_color (hexToRgba bg) bm0) = Some bm1 /\
            length bm1 = length bm0 /\
            forall X Y, 0 <= X < side -> 0 <= Y < side ->
              bitmap_pixel bm1 side X Y = background_pixel bg ps X Y).
  { unfold background_pixel.
    destruct (String.eqb bg "transparent").
    { exists bm0. split; [reflexivity|]. split; [reflexivity|].
      intros X Y _ _. apply zeros_pixel. }
    destruct (String.eqb bg "pattern").
    - destruct (fill_pattern_repaints side ps Hside bm0 H0)
        as [bm1 [E [Hl Hc]]].
      exists bm1. split; [exact E|]. split; [exact Hl|].
      intros X Y HX HY. rewrite Hc by assumption. cbv zeta.
      unfold as_bytes. now destruct (_ =? 0).
    - destruct (fill_color_repaints side (hexToRgba bg) Hside bm0 H0)
        as [bm1 [E [Hl Hc]]].
      exists bm1. split; [exact E|]. split; [exact Hl|].
      intros X Y HX HY. now rewrite Hc by assumption. }
  destruct Hbg as [bm1 [E1 [H1 Hc1]]].
  destruct (blit_all_repaints pal b ps Hb Hps bm1) as [bm2 [E2 [H2 Hc2]]].
  { fold side. lia. }
  fold side in E2, Hc2.
  exists bm2. split; [|split].
  - unfold toPNG_bitmap. rewrite Hpal, bind_some. cbv zeta.
    fold ps. fold side.
    rewrite (alloc_Some kMaxLength (side * side * 4)) by nia.
    rewrite bind_some. fold bm0.
    destruct (String.eqb bg "transparent").
    { rewrite bind_some. injection E1 as <-. now rewrite E2. }
    destruct (String.eqb bg "pattern"); now rewrite E1, bind_some, E2.
  - lia.
  - intros X Y HX HY. rewrite Hc2 by assumption.
    destruct (if Y / ps <? _ then _ else _); [reflexivity|].
    now apply Hc1.
Qed.

(** *** The scanlines *)

Section Scanlines.

Variables (data : Bytes) (width height : Z).
Hypothesis Hwidth : 0 <= width.
Hypothesis Hheight : 0 <= height.

Lemma filled_store pos img Y0 o0 v :
  scan_filled data width height pos img ->
  0 <= Y0 -> 0 <= o0 < width * 4 + 1 ->
  pos = Y0 * (width * 4 + 1) + o0 ->
  pos < (width * 4 + 1) * height ->
  v mod 256 = scanline_byte data width Y0 o0 ->
  scan_filled data width height (pos + 1) (store img pos v).
Proof.
  intros [Hlen [Hz Hs]] HY0 Ho0 Hpos Hlt Hv.
  assert (Hp : 0 <= pos) by nia.
  split; [now rewrite store_length|]. split.
  - intros j Hj. rewrite load_store by lia.
    destruct (Z.eqb_spec j pos); [lia|]. apply Hz. lia.
  - intros Y o HY Ho Hbelow. rewrite load_store by nia.
    destruct (Z.eqb_spec (Y * (width * 4 + 1) + o) pos) as [E | Hne].
    + rewrite Hpos in E.
      destruct (pixel_index_inj (width * 4 + 1) o Y o0 Y0 Ho Ho0 E)
        as [-> ->].
      exact Hv.
    + apply Hs; [assumption | assumption | lia].
Qed.

Lemma scanlines_filled :
  exists img,
    scanlines data width height
      (replicate (Z.to_nat ((width * 4 + 1) * height)) 0) =
      Some ((width * 4 + 1) * height, img) /\
    scan_filled data width height ((width * 4 + 1) * height) img.
Proof.
  unfold scanlines.
  set (S := width * 4 + 1).
  destruct (for_loop_invariant
              (fun y st =>
                 fst st = Z.of_nat y * S /\
                 scan_filled data width height (fst st) (snd st))
              (Z.to_nat height) 0
              (fun y st =>
                 let '(pos, imageData) := st in
                 let imageData := store imageData pos 0 in
                 for_loop (Z.to_nat width) 0 (scanline_pixel data width y)
                   (pos + 1, imageData))
              (0, replicate (Z.to_nat (S * height)) 0))
    as [[pos img] [E [Hpos Hf]]].
  - cbn [fst snd]. split; [lia|]. split; [|split].
    + rewrite length_replicate. unfold S. nia.
    + intros j _. unfold load_or_0, js_index.
      destruct (j <? 0); [reflexivity|].
      destruct (replicate _ 0 !! Z.to_nat j) as [v|] eqn:El; [|reflexivity].
      now apply lookup_replicate in El as [-> _].
    + intros Y o HY Ho Hlt. unfold S in *. nia.
  - intros y [pos img] Hy [Hpos Hf]. cbn [fst snd] in Hpos, Hf.
    cbv zeta. rewrite Z.add_0_l.
    assert (Hrow : Z.of_nat y * S + S <= S * height) by (unfold S; nia).
    assert (Hf0 : scan_filled data width height (pos + 1) (store img pos 0)).
    { apply (filled_store pos img (Z.of_nat y) 0 0 Hf); unfold S in *;
        try lia. reflexivity. }
    destruct (for_loop_invariant
                (fun x st =>
                   fst st = Z.of_nat y * S + 1 + Z.of_nat x * 4 /\
                   scan_filled data width height (fst st) (snd st))
                (Z.to_nat width) 0 (scanline_pixel data width (Z.of_nat y))
                (pos + 1, store img pos 0))
      as [[pos' img'] [E' [Hpos' Hf']]].
    + cbn [fst snd]. split; [lia | exact Hf0].
    + intros x [p im] Hx [Hp Him]. cbn [fst snd] in Hp, Him.
      rewrite Z.add_0_l. unfold scanline_pixel.
      eexists. split; [reflexivity|]. cbn [fst snd]. split; [lia|].
      set (src := (Z.of_nat y * width + Z.of_nat x) * 4).
      assert (Hexp : forall k, 0 <= k <= 3 ->
                load_or_0 data (src + k) mod 256 =
                scanline_byte data width (Z.of_nat y) (1 + Z.of_nat x * 4 + k)).
      { intros k Hk. unfold scanline_byte.
        destruct (Z.eqb_spec (1 + Z.of_nat x * 4 + k) 0); [lia|].
        f_equal. f_equal. unfold src. lia. }
      assert (Hexp0 : load_or_0 data src mod 256 =
                      scanline_byte data width (Z.of_nat y) (1 + Z.of_nat x * 4 + 0)).
      { rewrite <- (Hexp 0) by lia. now rewrite Z.add_0_r. }
      pose proof (filled_store p im (Z.of_nat y) (1 + Z.of_nat x * 4 + 0)
                    (load_or_0 data src) Him ltac:(lia)
                    ltac:(unfold S in *; lia) ltac:(unfold S in *; lia)
                    ltac:(unfold S in *; lia) Hexp0) as F0.
      pose proof (filled_store (p + 1) _ (Z.of_nat y)
                    (1 + Z.of_nat x * 4 + 1)
                    (load_or_0 data (src + 1)) F0 ltac:(lia)
                    ltac:(unfold S in *; lia) ltac:(unfold S in *; lia)
                    ltac:(unfold S in *; lia) (Hexp 1 ltac:(lia))) as F1.
      replace (p + 1 + 1) with (p + 2) in F1 by lia.
      pose proof (filled_store (p + 2) _ (Z.of_nat y)
                    (1 + Z.of_nat x * 4 + 2)
                    (load_or_0 data (src + 2)) F1 ltac:(lia)
                    ltac:(unfold S in *; lia) ltac:(unfold S in *; lia)
                    ltac:(unfold S in *; lia) (Hexp 2 ltac:(lia))) as F2.
      replace (p + 2 + 1) with (p + 3) in F2 by lia.
      pose proof (filled_store (p + 3) _ (Z.of_nat y)
                    (1 + Z.of_nat x * 4 + 3)
                    (load_or_0 data (src + 3)) F2 ltac:(lia)
                    ltac:(unfold S in *; lia) ltac:(unfold S in *; lia)
                    ltac:(unfold S in *; lia) (Hexp 3 ltac:(lia))) as F3.
      replace (p + 3 + 1) with (p + 4) in F3 by lia.
      exact F3.
    + exists (pos', img'). split; [exact E'|]. cbn [fst snd] in *.
      split; [unfold S; lia | exact Hf'].
  - cbn [fst snd] in Hpos.
    assert (Hp : pos = S * height) by (unfold S in *; nia).
    clear Hpos. subst pos.
    exists img. split; [exact E | exact Hf].
Qed.

(** The scanlines of a bitmap: a zero filter byte, then the bytes of the
    row. *)
Lemma scanlines_rows :
  exists img,
    scanlines data width height
      (replicate (Z.to_nat ((width * 4 + 1) * height)) 0) =
      Some ((width * 4 + 1) * height, img) /\
    Z.of_nat (length img) = (width * 4 + 1) * height /\
    forall Y, 0 <= Y < height ->
      filter_byte img width Y = 0 /\
      forall X, 0 <= X < width ->
        image_pixel img width X Y =
        as_bytes (load_or_0 data ((Y * width + X) * 4),
                  load_or_0 data ((Y * width + X) * 4 + 1),
                  load_or_0 data ((Y * width + X) * 4 + 2),
                  load_or_0 data ((Y * width + X) * 4 + 3)).
Proof.
  destruct scanlines_filled as [img [E [Hlen [_ Hs]]]].
  exists img. split; [exact E|]. split; [exact Hlen|].
  intros Y HY. split.
  - unfold filter_byte.
    rewrite <- (Z.add_0_r (Y * (width * 4 + 1))).
    rewrite Hs by nia. reflexivity.
  - intros X HX. unfold image_pixel, as_bytes. cbv zeta.
    assert (G : forall k, 0 <= k <= 3 ->
              load_or_0 img (Y * (width * 4 + 1) + 1 + X * 4 + k) =
              load_or_0 data ((Y * width + X) * 4 + k) mod 256).
    { intros k Hk.
      replace (Y * (width * 4 + 1) + 1 + X * 4 + k)
        with (Y * (width * 4 + 1) + (1 + X * 4 + k)) by lia.
      rewrite Hs by nia. unfold scanline_byte.
      destruct (Z.eqb_spec (1 + X * 4 + k) 0); [lia|].
      f_equal. f_equal. lia. }
    pose proof (G 0 ltac:(lia)) as G0. rewrite !Z.add_0_r in G0.
    now rewrite G0, !G by lia.
Qed.

End Scanlines.

(** X25. The PNG that [toPNG] returns for a palette holds the picture:
    its IDAT chunk is a stream of stored blocks that reads back as the
    scanlines, every scanline starts with the filter byte 0, and the
    pixel [(X, Y)] is the colour of the cell
    [(X / pixelSize, Y / pixelSize)] of the buffer when that cell is
    drawn and the background otherwise.  A cell is drawn when its index
    is not -1 and names a colour of the flat list. *)
Theorem toPNG_image (b : PixelBuffer.t) (size : Z) (bg paletteName : string)
    (pal : Palette) :
  PixelBuffer.wf b -> (0 < PixelBuffer.width b)%nat ->
  Palettes.getPalette paletteName = Some pal ->
  let ps := Z.max 1 (size / Z.of_nat (PixelBuffer.width b)) in
  let side := ps * Z.of_nat (PixelBuffer.width b) in
  let n := (side * 4 + 1) * side in
  n + 5 * ((n + 65534) / 65535) + 57 <= kMaxLength ->
  n + 5 * ((n + 65534) / 65535) + 57 <= 4294967295 ->
  exists imageData compressed,
    toPNG kMaxLength b size bg paletteName =
    png_signature ++
    png_chunk "IHDR" (u32be side ++ u32be side ++ [8; 6; 0; 0; 0]) ++
    png_chunk "IDAT" compressed ++
    png_chunk "IEND" [] /\
    inflate_stored (length compressed) compressed = Some imageData /\
    Z.of_nat (length imageData) = n /\
    forall X Y, 0 <= X < side -> 0 <= Y < side ->
      filter_byte imageData side Y = 0 /\
      image_pixel imageData side X Y =
      match (if Y / ps <? Z.of_nat (PixelBuffer.height b)
             then drawn_color pal b (X / ps) (Y / ps) else None) with
      | Some c => as_bytes c
      | None => background_pixel bg ps X Y
      end.
Proof.
  intros Hb Hw Hpal ps side n Hmax H32.
  assert (Hps : 1 <= ps) by (unfold ps; lia).
  assert (Hside : 1 <= side) by (unfold side; nia).
  assert (Hcount : 0 <= (n + 65534) / 65535).
  { apply Z.div_pos; [unfold n; nia | lia]. }
  assert (Hn : side * side * 4 <= n) by (unfold n; nia).
  destruct (toPNG_bitmap_pixels b size bg paletteName pal Hb Hw Hpal)
    as [bm [Ebm [Hlen Hpix]]]; [fold ps; fold side; lia|].
  fold ps in Ebm, Hpix. fold side in Ebm, Hlen, Hpix.
  destruct (generatePNG_layout kMaxLength bm side side ltac:(lia) ltac:(lia)
              Hmax H32) as [pos [img [compressed [Es [Hl [_ [Hr Eg]]]]]]].
  fold n in Es, Hl, Hr.
  destruct (scanlines_rows bm side side ltac:(lia) ltac:(lia))
    as [img' [Es' [Hl' Hrows]]].
  fold n in Es', Hl'. rewrite Es in Es'. injection Es' as _ <-.
  exists img, compressed. split; [|split; [|split]].
  - unfold toPNG. fold ps. fold side. rewrite Ebm.
    unfold generatePNG. rewrite Eg, png_iend_chunk. reflexivity.
  - apply Hr. unfold n. nia.
  - exact Hl'.
  - intros X Y HX HY. destruct (Hrows Y HY) as [Hf Himg].
    split; [exact Hf|]. rewrite (Himg X HX).
    change (as_bytes (bitmap_pixel bm side X Y) =
            match (if Y / ps <? Z.of_nat (PixelBuffer.height b)
                   then drawn_color pal b (X / ps) (Y / ps) else None) with
            | Some c => as_bytes c
            | None => background_pixel bg ps X Y
            end).
    rewrite (Hpix X Y HX HY).
    destruct (if Y / ps <? _ then _ else _);
      [apply as_bytes_idempotent | apply background_pixel_bytes].
Qed.

End BitmapOfBuffer.

Lemma toPNG_image_witness :
  exists imageData compressed,
    Exporters.toPNG 4294967295
      {| PixelBuffer.width := 3; PixelBuffer.height := 2;
         PixelBuffer.buffer := [[0; -1; 2]; [3; 1; -1]] |}
      7 "#336699" "gameboy" =
    Exporters.png_signature ++
    png_chunk "IHDR"
      (Exporters.u32be 6 ++ Exporters.u32be 6 ++ [8; 6; 0; 0; 0]) ++
    png_chunk "IDAT" compressed ++
    png_chunk "IEND" [] /\
    inflate_stored (length compressed) compressed = Some imageData /\
    Z.of_nat (length imageData) = (6 * 4 + 1) * 6 /\
    forall X Y, 0 <= X < 6 -> 0 <= Y < 6 ->
      filter_byte imageData 6 Y = 0 /\
      image_pixel imageData 6 X Y =
      match (if Y / 2 <? 2
             then drawn_color Palettes.gameboy
                    {| PixelBuffer.width := 3; PixelBuffer.height := 2;
                       PixelBuffer.buffer := [[0; -1; 2]; [3; 1; -1]] |}
                    (X / 2) (Y / 2)
             else None) with
      | Some c => as_bytes c
      | None => background_pixel "#336699" 2 X Y
      end.
Proof.
  apply (toPNG_image 4294967295
           {| PixelBuffer.width := 3; PixelBuffer.height := 2;
              PixelBuffer.buffer := [[0; -1; 2]; [3; 1; -1]] |}
           7 "#336699" "gameboy" Palettes.gameboy);
    [split; [reflexivity | repeat constructor] | cbn; lia | reflexivity
    | vm_compute; discriminate | vm_compute; discriminate].
Defined.


(** ** The engine: every cell of an avatar is an index of its palette *)

Section BufferCells.

Import PixelBuffer.

Lemma indexOf_range (array : list string) x :
  -1 <= indexOf array x < Z.of_nat (length array).
Proof.
  induction array as [|a rest IH]; cbn [indexOf length]; [lia|].
  destruct (String.eqb a x); [lia|].
  destruct (Z.ltb_spec (indexOf rest x) 0); lia.
Qed.

Lemma role_index_range (cs role : list string) i :
  -1 <= role_index cs role i < Z.of_nat (length cs) \/
  (cs = [] /\ role_index cs role i = -1).
Proof.
  unfold role_index. destruct (js_index role i) as [c|].
  - left. apply indexOf_range.
  - destruct cs; [now right | left; cbn [length]; lia].
Qed.

Lemma role_index_below (cs role : list string) i :
  (1 <= length cs)%nat ->
  -1 <= role_index cs role i < Z.of_nat (length cs).
Proof.
  intros H. destruct (role_index_range cs role i) as [Hr | [-> _]];
    [exact Hr | cbn in H; lia].
Qed.

Lemma paints_keeps n op c R :
  paints op c R -> -1 <= c < n -> keeps_cells n op.
Proof.
  intros Hp Hc b Hwf Hb.
  destruct (Hp b Hwf) as [b' [E [Hwf' [Hw [Hh Hcells]]]]].
  exists b'. split; [exact E|]. split; [exact Hwf'|].
  split; [exact Hw|]. split; [exact Hh|].
  intros px py v Hv. rewrite Hcells in Hv.
  destruct (_ && _); [injection Hv as <-; exact Hc | eapply Hb, Hv].
Qed.

Lemma drawLine_keeps n x0 y0 x1 y1 c :
  -1 <= c < n -> keeps_cells n (drawLine x0 y0 x1 y1 c).
Proof.
  intros Hc. destruct (drawLine_paints x0 y0 x1 y1 c) as [R [HR _]].
  exact (paints_keeps n _ c R HR Hc).
Qed.

Lemma clear_keeps n : 0 <= n -> keeps_cells n clear.
Proof.
  intros Hn b Hwf _. unfold clear.
  rewrite (fill_grid _ _ transparent (buffer b) Hwf).
  eexists. split; [reflexivity|]. split; [apply (make_wf (width b) (height b))|].
  split; [reflexivity|]. split; [reflexivity|].
  intros px py c Hc.
  change (with_buffer b (replicate (height b) (replicate (width b) transparent)))
    with (make (width b) (height b)) in Hc.
  rewrite make_cells in Hc. injection Hc as <-. unfold transparent. lia.
Qed.

Lemma mirrorVertically_keeps n : 0 <= n -> keeps_cells n mirrorVertically.
Proof.
  intros Hn b Hwf Hb.
  destruct (mirrorVertically_cells b Hwf) as [b' [E [Hwf' [Hw [Hh Hc]]]]].
  exists b'. split; [exact E|]. split; [exact Hwf'|].
  split; [exact Hw|]. split; [exact Hh|].
  intros px py c Hget. unfold getPixel in Hget.
  destruct (in_bounds b' px py) eqn:Ein;
    [|injection Hget as <-; unfold transparent; lia].
  apply in_bounds_true in Ein as [Hx Hy]. rewrite Hw in Hx. rewrite Hh in Hy.
  rewrite Hc in Hget by lia.
  destruct (decide _).
  - apply (Hb (Z.of_nat (width b) - 1 - px) py).
    rewrite getPixel_read by lia. exact Hget.
  - apply (Hb px py). rewrite getPixel_read by lia. exact Hget.
Qed.

End BufferCells.

Section EngineCells.

Import PixelBuffer AvatarEngine.

Section Methods.

Variable pal : Palette.
Hypothesis Hcolors : (2 <= length (colors pal))%nat.

Lemma andThen_keeps m1 m2 :
  keeps_inv pal m1 -> keeps_inv pal m2 -> keeps_inv pal (m1 >=> m2).
Proof.
  intros H1 H2 e He. unfold andThen.
  destruct (H1 e He) as [e1 [-> He1]]. exact (H2 e1 He1).
Qed.

Lemma skip_keeps : keeps_inv pal skip.
Proof. intros e He. exists e. split; [reflexivity | exact He]. Qed.

Lemma assign_keeps upd : keeps_inv pal (assign upd).
Proof. intros e He. eexists. split; [reflexivity | exact He]. Qed.

Lemma rand_keeps {A} (d : XorShift32.t -> A * XorShift32.t)
    (k : A -> method) :
  (forall a, keeps_inv pal (k a)) -> keeps_inv pal (rand d k).
Proof.
  intros Hk e He. unfold rand. destruct (d (prng e)) as [a g].
  apply Hk. exact He.
Qed.

Lemma draw_keeps op :
  keeps_cells (Z.of_nat (length (colors pal))) op -> keeps_inv pal (draw op).
Proof.
  intros Hop e [Hpal [Hwf [Hw [Hh Hc]]]]. unfold draw.
  destruct (Hop (buffer e) Hwf Hc) as [b [-> [Hb [Hw' [Hh' Hc']]]]].
  eexists. split; [reflexivity|]. unfold engine_inv.
  cbn [palette buffer set_buffer].
  split; [exact Hpal|]. split; [exact Hb|].
  split; [congruence|]. split; [congruence | exact Hc'].
Qed.

Lemma for_loop_keeps k i (body : Z -> method) :
  (forall j, keeps_inv pal (body j)) -> keeps_inv pal (for_loop k i body).
Proof.
  intros Hbody e He.
  apply (for_loop_invariant (fun _ e' => engine_inv pal e')).
  - exact He.
  - intros j e' _ He'. exact (Hbody _ e' He').
Qed.

Lemma keeps_apply (m : method) e :
  keeps_inv pal m -> engine_inv pal e ->
  exists e', m e = Some e' /\ engine_inv pal e'.
Proof. intros H He. exact (H e He). Qed.

Lemma some_keeps e :
  engine_inv pal e -> exists e', Some e = Some e' /\ engine_inv pal e'.
Proof. intros He. exists e. split; [reflexivity | exact He]. Qed.

(** The indices the engine looks up are indices of the flat list, or -1
    for a colour that is not in it. *)
Lemma skinIndex_range e : engine_inv pal e -> -1 <= skinIndex e < Z.of_nat (length (colors pal)).
Proof.
  intros [Hpal _]. unfold skinIndex. rewrite Hpal.
  apply role_index_below. lia.
Qed.

Lemma hairColorIndex_range e :
  engine_inv pal e -> -1 <= hairColorIndex e < Z.of_nat (length (colors pal)).
Proof.
  intros [Hpal _]. unfold hairColorIndex. rewrite Hpal.
  apply role_index_below. lia.
Qed.

Lemma clothesColorIndex_range e :
  engine_inv pal e -> -1 <= clothesColorIndex e < Z.of_nat (length (colors pal)).
Proof.
  intros [Hpal _]. unfold clothesColorIndex. rewrite Hpal.
  apply role_index_below. lia.
Qed.

Lemma accentColor_range e :
  engine_inv pal e -> -1 <= accentColor e < Z.of_nat (length (colors pal)).
Proof.
  intros [Hpal _]. unfold accentColor. rewrite Hpal.
  apply role_index_below. lia.
Qed.

Lemma eyeColor_range e i :
  engine_inv pal e ->
  -1 <= role_index (colors (palette e)) (eyes (palette e)) i <
  Z.of_nat (length (colors pal)).
Proof. intros [Hpal _]. rewrite Hpal. apply role_index_below. lia. Qed.

Ltac color_range :=
  first [ lia
        | match goal with
          | He : engine_inv _ _ |- _ =>
              first [ apply skinIndex_range; exact He
                    | apply hairColorIndex_range; exact He
                    | apply clothesColorIndex_range; exact He
                    | apply accentColor_range; exact He
                    | apply eyeColor_range; exact He ]
          end ].

Ltac keeps_op :=
  first [ eapply paints_keeps; [apply paints_setPixel | color_range]
        | eapply paints_keeps; [apply paints_fillRect | color_range]
        | eapply paints_keeps; [apply paints_fillCircle | color_range]
        | apply drawLine_keeps; color_range
        | apply clear_keeps; lia
        | apply mirrorVertically_keeps; lia ].

Ltac keeps_method :=
  repeat match goal with
    | |- keeps_inv _ (_ >=> _) => apply andThen_keeps
    | |- keeps_inv _ skip => apply skip_keeps
    | |- keeps_inv _ (assign _) => apply assign_keeps
    | |- keeps_inv _ (rand _ _) => apply rand_keeps; intros ?
    | |- keeps_inv _ (draw _) => apply draw_keeps; keeps_op
    | |- keeps_inv _ (for_loop _ _ _) => apply for_loop_keeps; intros ?
    | |- keeps_inv _ (match ?x with _ => _ end) => destruct x
    | |- keeps_inv _ (fun _ => _) =>
        let e := fresh "e" in
        let He := fresh "He" in
        intros e He; cbv beta zeta;
        repeat match goal with
               | |- context [match ?x with _ => _ end] => destruct x
               end;
        first [ apply some_keeps; exact He
              | apply keeps_apply; [|exact He] ]
    end.

Lemma applyMood_keeps mood : keeps_inv pal (applyMood mood).
Proof. destruct mood; cbn [applyMood]; keeps_method. Qed.

Lemma applyGender_keeps gender : keeps_inv pal (applyGender gender).
Proof. destruct gender; cbn [applyGender]; keeps_method. Qed.

Lemma drawHead_keeps : keeps_inv pal drawHead.
Proof. unfold drawHead. keeps_method. Qed.

Lemma drawNeck_keeps : keeps_inv pal drawNeck.
Proof. unfold drawNeck. keeps_method. Qed.

Lemma drawShoulders_keeps : keeps_inv pal drawShoulders.
Proof. unfold drawShoulders. keeps_method. Qed.

Lemma drawShirt_keeps : keeps_inv pal drawShirt.
Proof. unfold drawShirt. keeps_method. Qed.

Lemma drawEyes_keeps : keeps_inv pal drawEyes.
Proof. unfold drawEyes. keeps_method. Qed.

Lemma drawBrows_keeps : keeps_inv pal drawBrows.
Proof. unfold drawBrows. keeps_method. Qed.

Lemma drawNose_keeps : keeps_inv pal drawNose.
Proof. unfold drawNose. keeps_method. Qed.

Lemma drawMouth_keeps : keeps_inv pal drawMouth.
Proof. unfold drawMouth. keeps_method. Qed.

Lemma drawHair_keeps : keeps_inv pal drawHair.
Proof. unfold drawHair. keeps_method. Qed.

Lemma drawFacialHair_keeps : keeps_inv pal drawFacialHair.
Proof. unfold drawFacialHair. keeps_method. Qed.

Lemma drawAccessories_keeps : keeps_inv pal drawAccessories.
Proof. unfold drawAccessories. keeps_method. Qed.

Lemma addAsymmetry_keeps : keeps_inv pal addAsymmetry.
Proof. unfold addAsymmetry. keeps_method. Qed.

Lemma generate_keeps mood gender : keeps_inv pal (generate mood gender).
Proof.
  unfold generate.
  repeat match goal with
    | |- keeps_inv _ (_ >=> _) => apply andThen_keeps
    | |- keeps_inv _ (draw _) => apply draw_keeps; keeps_op
    end;
  first
    [ apply applyMood_keeps | apply applyGender_keeps
    | apply drawShoulders_keeps | apply drawShirt_keeps | apply drawNeck_keeps
    | apply drawHead_keeps | apply drawHair_keeps | apply drawBrows_keeps
    | apply drawEyes_keeps | apply drawNose_keeps | apply drawMouth_keeps
    | apply drawFacialHair_keeps | apply drawAccessories_keeps
    | apply addAsymmetry_keeps ].
Qed.

End Methods.

Lemma palette_colors_length name pal :
  Palettes.getPalette name = Some pal -> (2 <= length (colors pal))%nat.
Proof.
  intros H. apply getPalette_cases in H as [-> | [-> | ->]]; cbn; lia.
Qed.

Lemma make_inv seed paletteName pal :
  Palettes.getPalette paletteName = Some pal ->
  exists e, AvatarEngine.make seed paletteName = Some e /\ engine_inv pal e.
Proof.
  intros Hpal. unfold AvatarEngine.make. rewrite Hpal.
  destruct (generateFeatures pal (XorShift32.make seed)) as [f g].
  eexists. split; [reflexivity|]. unfold engine_inv.
  cbn [palette buffer].
  split; [reflexivity|]. split; [apply (make_wf 16 16)|].
  split; [reflexivity|]. split; [reflexivity|].
  intros px py c Hc. rewrite make_cells in Hc. injection Hc as <-.
  unfold transparent. lia.
Qed.

(** X26. Whatever the seed, the mood and the gender, the avatar drawn on
    a palette is a 16 by 16 buffer each of whose cells is transparent or
    an index of the flat colour list of that palette: the encoders find
    a colour for every drawn cell. *)
Theorem avatar_cells_in_palette (seed : Z) (paletteName : string)
    (mood : Mood) (gender : Gender) (pal : Palette) :
  Palettes.getPalette paletteName = Some pal ->
  exists b,
    avatar seed paletteName mood gender = Some b /\
    PixelBuffer.wf b /\
    PixelBuffer.width b = 16%nat /\ PixelBuffer.height b = 16%nat /\
    forall px py c,
      getPixel px py b = Some c ->
      c = transparent \/
      (0 <= c < Z.of_nat (length (colors pal)) /\
       is_Some (js_index (colors pal) c)).
Proof.
  intros Hpal. unfold avatar.
  destruct (make_inv seed paletteName pal Hpal) as [e [-> He]].
  destruct (generate_keeps pal (palette_colors_length _ _ Hpal) mood gender
              e He) as [e' [-> [_ [Hwf [Hw [Hh Hc]]]]]].
  exists (buffer e'). split; [reflexivity|]. split; [exact Hwf|].
  split; [exact Hw|]. split; [exact Hh|].
  intros px py c Hget. specialize (Hc px py c Hget).
  destruct (Z.eq_dec c (-1)) as [-> | Hne]; [now left | right].
  split; [lia|]. apply js_index_in_range. lia.
Qed.

Lemma avatar_cells_in_palette_witness :
  exists b,
    avatar 12345 "gameboy" Smile Fem = Some b /\
    PixelBuffer.wf b /\
    PixelBuffer.width b = 16%nat /\ PixelBuffer.height b = 16%nat /\
    forall px py c,
      getPixel px py b = Some c ->
      c = transparent \/
      (0 <= c < Z.of_nat (length (colors Palettes.gameboy)) /\
       is_Some (js_index (colors Palettes.gameboy) c)).
Proof.
  apply (avatar_cells_in_palette 12345 "gameboy" Smile Fem Palettes.gameboy).
  reflexivity.
Defined.

(** *** What [addAsymmetry] can change *)

Lemma frames_andThen R m1 m2 :
  frames R m1 -> frames R m2 -> frames R (m1 >=> m2).
Proof.
  intros H1 H2 e He. unfold andThen.
  destruct (H1 e He) as [e1 [-> [He1 [Hw1 [Hh1 Hc1]]]]].
  destruct (H2 e1 He1) as [e2 [E2 [He2 [Hw2 [Hh2 Hc2]]]]].
  exists e2. split; [exact E2|]. split; [exact He2|].
  split; [congruence|]. split; [congruence|].
  intros px py Hr. now rewrite Hc2, Hc1.
Qed.

Lemma frames_skip R : frames R skip.
Proof.
  intros e He. exists e. split; [reflexivity|]. split; [exact He|]. auto.
Qed.

Lemma frames_rand {A} R (d : XorShift32.t -> A * XorShift32.t)
    (k : A -> method) :
  (forall a, frames R (k a)) -> frames R (rand d k).
Proof.
  intros Hk e He. unfold rand. destruct (d (prng e)) as [a g].
  exact (Hk a (set_prng g e) He).
Qed.

Lemma frames_rand_int R max (k : Z -> method) :
  0 < max ->
  (forall i, 0 <= i < max -> frames R (k i)) ->
  frames R (rand (XorShift32.int max) k).
Proof.
  intros Hmax Hk e He. unfold rand.
  pose proof (int_range max (prng e) Hmax) as Hi.
  destruct (XorShift32.int max (prng e)) as [i g]. cbn [fst] in Hi.
  exact (Hk i Hi (set_prng g e) He).
Qed.

Lemma frames_setPixel (R : Z -> Z -> bool) x y c :
  R x y = true -> frames R (draw (setPixel x y c)).
Proof.
  intros Hr e He. unfold draw.
  destruct (setPixel_cells (buffer e) x y c He)
    as [b' [-> [Hwf' [Hw [Hh Hc]]]]].
  eexists. split; [reflexivity|]. cbn [buffer set_buffer].
  split; [exact Hwf'|]. split; [exact Hw|]. split; [exact Hh|].
  intros px py Hout. rewrite Hc.
  destruct (Z.eqb_spec px x) as [-> | Hx];
    [|now rewrite andb_false_r].
  destruct (Z.eqb_spec py y) as [-> | Hy];
    [congruence | now rewrite andb_false_r].
Qed.

Lemma frames_apply R (m : method) e :
  frames R m -> AvatarEngine.wf e ->
  exists e',
    m e = Some e' /\ AvatarEngine.wf e' /\
    width (buffer e') = width (buffer e) /\
    height (buffer e') = height (buffer e) /\
    forall px py, R px py = false ->
      getPixel px py (buffer e') = getPixel px py (buffer e).
Proof. intros H He. exact (H e He). Qed.

Lemma area_mark i j :
  0 <= i < 8 -> 0 <= j < 4 -> asymmetry_area (4 + i) (7 + j) = true.
Proof.
  intros Hi Hj. unfold asymmetry_area.
  apply orb_true_iff. left. apply orb_true_iff. right.
  rewrite !andb_true_iff, !Z.leb_le. lia.
Qed.

Lemma area_lock i j :
  0 <= i < 2 -> 0 <= j < 3 -> asymmetry_area (2 + i) (3 + j) = true.
Proof.
  intros Hi Hj. unfold asymmetry_area.
  apply orb_true_iff. right.
  rewrite !andb_true_iff, !Z.leb_le. lia.
Qed.

Lemma addAsymmetry_frames : frames asymmetry_area addAsymmetry.
Proof.
  unfold addAsymmetry.
  apply frames_andThen; [|apply frames_andThen].
  - intros e He. destruct (earrings (accessories (features e))).
    + apply frames_apply; [|exact He].
      apply frames_rand. intros []; [|apply frames_skip].
      apply frames_setPixel. reflexivity.
    + exact (frames_skip _ e He).
  - apply frames_rand. intros []; [|apply frames_skip].
    apply frames_rand_int; [lia|]. intros i Hi.
    apply frames_rand_int; [lia|]. intros j Hj.
    apply frames_setPixel. now apply area_mark.
  - intros e He.
    assert (G : frames asymmetry_area
              (rand (XorShift32.chance Prob.p0_2) (fun c =>
                 if c then
                   fun e =>
                     let hairColorIndex := hairColorIndex e in
                     rand (XorShift32.int 2) (fun i =>
                       let x := 2 + i in
                       rand (XorShift32.int 3) (fun j =>
                         let y := 3 + j in
                         draw (setPixel x y hairColorIndex))) e
                 else skip))).
    { apply frames_rand. intros []; [|apply frames_skip].
      intros e0 He0. cbv zeta. apply frames_apply; [|exact He0].
      apply frames_rand_int; [lia|]. intros i Hi.
      apply frames_rand_int; [lia|]. intros j Hj.
      apply frames_setPixel. now apply area_lock. }
    destruct (hairStyle (features e)); try exact (G e He).
    exact (frames_skip _ e He).
Qed.

Lemma andThen_run (m1 m2 : method) e e1 :
  m1 e = Some e1 -> (m1 >=> m2) e = m2 e1.
Proof. intros E. unfold andThen. now rewrite E. Qed.

(** [generate] up to the mirroring. *)
Lemma generate_mirrored pal mood gender e :
  (2 <= length (colors pal))%nat -> engine_inv pal e ->
  exists e1,
    engine_inv pal e1 /\
    generate mood gender e = (draw mirrorVertically >=> addAsymmetry) e1.
Proof.
  intros Hpal He. unfold generate.
  repeat match goal with
  | He : engine_inv pal ?e
    |- context [(draw mirrorVertically >=> addAsymmetry) ?e] =>
      fail 1
  | He : engine_inv pal ?e |- context [(?m1 >=> ?m2) ?e] =>
      let e1 := fresh "e" in
      let E1 := fresh "E" in
      let He1 := fresh "He" in
      assert (exists e1, m1 e = Some e1 /\ engine_inv pal e1)
        as [e1 [E1 He1]]
        by (first
              [ apply (applyMood_keeps pal)
              | apply (applyGender_keeps pal)
              | apply (drawShoulders_keeps pal Hpal)
              | apply (drawShirt_keeps pal Hpal)
              | apply (drawNeck_keeps pal Hpal)
              | apply (drawHead_keeps pal Hpal)
              | apply (drawHair_keeps pal Hpal)
              | apply (drawBrows_keeps pal Hpal)
              | apply (drawEyes_keeps pal Hpal)
              | apply (drawNose_keeps pal Hpal)
              | apply (drawMouth_keeps pal Hpal)
              | apply (drawFacialHair_keeps pal Hpal)
              | apply (drawAccessories_keeps pal Hpal)
              | apply (draw_keeps pal); [apply clear_keeps; lia|] ];
            exact He);
      rewrite (andThen_run m1 m2 e e1 E1); clear E1 He
  end.
  eexists. split; [eassumption | reflexivity].
Qed.

(** X27. The avatar is mirrored before [addAsymmetry] touches it, so it
    is symmetric about its vertical axis except where [addAsymmetry] can
    write: the cells at [(x, y)] and [(15 - x, y)] are equal whenever
    neither is the right earring, in the area of the beauty mark or in
    the area of the stray lock of hair. *)
Theorem avatar_symmetric_outside (seed : Z) (paletteName : string)
    (mood : Mood) (gender : Gender) (pal : Palette) :
  Palettes.getPalette paletteName = Some pal ->
  exists b,
    avatar seed paletteName mood gender = Some b /\
    forall px py,
      asymmetry_area px py = false ->
      asymmetry_area (15 - px) py = false ->
      getPixel (15 - px) py b = getPixel px py b.
Proof.
  intros Hpal. unfold avatar.
  destruct (make_inv seed paletteName pal Hpal) as [e [-> He]].
  destruct (generate_mirrored pal mood gender e
              (palette_colors_length _ _ Hpal) He) as [e1 [He1 ->]].
  destruct He1 as [_ [Hwf1 [Hw1 _]]].
  destruct (mirror_symmetric (buffer e1) Hwf1) as [bm [Em Hsym]].
  unfold andThen, draw. rewrite Em.
  destruct (mirrorVertically_cells (buffer e1) Hwf1)
    as [bm' [Em' [Hwfm _]]].
  rewrite Em in Em'. injection Em' as <-.
  destruct (addAsymmetry_frames (set_buffer bm e1) Hwfm)
    as [e2 [-> [_ [_ [_ Hc]]]]].
  exists (buffer e2). split; [reflexivity|].
  intros px py H1 H2. rewrite (Hc _ _ H1), (Hc _ _ H2).
  cbn [buffer set_buffer]. specialize (Hsym px py).
  rewrite Hw1 in Hsym. exact Hsym.
Qed.

Lemma avatar_symmetric_outside_witness :
  exists b,
    avatar 7 "pastel" Neutral Auto = Some b /\
    forall px py,
      asymmetry_area px py = false ->
      asymmetry_area (15 - px) py = false ->
      getPixel (15 - px) py b = getPixel px py b.
Proof.
  apply (avatar_symmetric_outside 7 "pastel" Neutral Auto Palettes.pastel).
  reflexivity.
Defined.

End EngineCells.


(** ** The engine: the colour indices of a fresh engine *)

Section RoleIndices.

Import AvatarEngine.

Local Opaque XorShift32.int XorShift32.pick XorShift32.chance.

(** The three indices [generateFeatures] draws are within the role lists
    they index. *)
Lemma generateFeatures_indices pal g :
  (1 <= length (skin pal))%nat -> (1 <= length (hair pal))%nat ->
  (1 <= length (clothes pal))%nat ->
  let f := fst (generateFeatures pal g) in
  0 <= skinTone f < Z.of_nat (length (skin pal)) /\
  0 <= hairColor f < Z.of_nat (length (hair pal)) /\
  0 <= clothesColor f < Z.of_nat (length (clothes pal)).
Proof.
  intros Hs Hh Hc. cbv zeta. unfold generateFeatures.
  repeat match goal with
         | |- context [XorShift32.int ?m ?s] =>
             let H := fresh "Hi" in
             pose proof (int_range m s ltac:(lia)) as H;
             destruct (XorShift32.int m s)
         | |- context [XorShift32.pick ?d ?l ?s] =>
             destruct (XorShift32.pick d l s)
         | |- context [XorShift32.chance ?p ?s] =>
             destruct (XorShift32.chance p s) as [[] ?]
         end.
  all: cbn [fst skinTone hairColor clothesColor] in *; lia.
Qed.

Local Transparent XorShift32.int XorShift32.pick XorShift32.chance.

Lemma role_listed (roles cs : list string) i :
  forallb (fun c => existsb (String.eqb c) cs) roles = true ->
  0 <= i < Z.of_nat (length roles) ->
  0 <= role_index cs roles i < Z.of_nat (length cs).
Proof.
  intros Hall Hi. unfold role_index.
  destruct (js_index_in_range roles i Hi) as [c Hc]. rewrite Hc.
  rewrite js_index_lookup in Hc by lia.
  rewrite forallb_forall in Hall.
  assert (Hin : In c roles).
  { apply list_elem_of_In. eapply list_elem_of_lookup_2, Hc. }
  specialize (Hall c Hin). apply existsb_exists in Hall as [c' [Hc' Ec]].
  apply String.eqb_eq in Ec. subst c'.
  pose proof (indexOf_range cs c) as Hr. split; [|lia].
  clear - Hc'. induction cs as [|a rest IH]; [destruct Hc'|].
  cbn [indexOf]. destruct (String.eqb_spec a c) as [_ | Hne]; [lia|].
  destruct Hc' as [-> | Hin]; [congruence|].
  specialize (IH Hin). destruct (Z.ltb_spec (indexOf rest c) 0); lia.
Qed.

(** X28. A fresh engine on a palette always finds its clothes colour and
    its accent colour in the flat list.  Its skin colour it finds on the
    Game Boy and Pastel palettes; on the NES palette, the default and the
    fallback, no skin tone is in the flat list, so the index of the skin
    is -1, the transparent index, for every seed. *)
Theorem fresh_engine_indices (seed : Z) (paletteName : string)
    (pal : Palette) :
  Palettes.getPalette paletteName = Some pal ->
  exists e,
    AvatarEngine.make seed paletteName = Some e /\
    palette e = pal /\
    0 <= clothesColorIndex e < Z.of_nat (length (colors pal)) /\
    0 <= accentColor e < Z.of_nat (length (colors pal)) /\
    (pal = Palettes.nes -> skinIndex e = PixelBuffer.transparent) /\
    (pal <> Palettes.nes ->
     0 <= skinIndex e < Z.of_nat (length (colors pal))).
Proof.
  intros Hpal. unfold AvatarEngine.make. rewrite Hpal.
  assert (Hlens : (1 <= length (skin pal))%nat /\
                  (1 <= length (hair pal))%nat /\
                  (1 <= length (clothes pal))%nat).
  { apply getPalette_cases in Hpal as [-> | [-> | ->]]; cbn; lia. }
  destruct Hlens as [Hs [Hh Hc]].
  pose proof (generateFeatures_indices pal (XorShift32.make seed) Hs Hh Hc)
    as Hf. cbv zeta in Hf.
  destruct (generateFeatures pal (XorShift32.make seed)) as [f g].
  cbn [fst] in Hf. destruct Hf as [Hskin [_ Hclothes]].
  eexists. split; [reflexivity|].
  unfold clothesColorIndex, accentColor, skinIndex.
  cbn [palette features].
  split; [reflexivity|].
  assert (Hcl : forallb (fun c => existsb (String.eqb c) (colors pal))
                  (clothes pal) = true).
  { apply getPalette_cases in Hpal as [-> | [-> | ->]]; reflexivity. }
  assert (Hac : forallb (fun c => existsb (String.eqb c) (colors pal))
                  (accent pal) = true).
  { apply getPalette_cases in Hpal as [-> | [-> | ->]]; reflexivity. }
  split; [apply role_listed; assumption|].
  split.
  { apply role_listed; [exact Hac|].
    apply getPalette_cases in Hpal as [-> | [-> | ->]]; cbn; lia. }
  split.
  - intros ->. apply nes_skin_index.
  - intros Hne. apply role_listed; [|exact Hskin].
    apply getPalette_cases in Hpal as [-> | [-> | ->]];
      [congruence | reflexivity | reflexivity].
Qed.

Lemma fresh_engine_indices_witness :
  exists e,
    AvatarEngine.make 2024 "NES" = Some e /\
    palette e = Palettes.nes /\
    0 <= clothesColorIndex e < Z.of_nat (length (colors Palettes.nes)) /\
    0 <= accentColor e < Z.of_nat (length (colors Palettes.nes)) /\
    (Palettes.nes = Palettes.nes -> skinIndex e = PixelBuffer.transparent) /\
    (Palettes.nes <> Palettes.nes ->
     0 <= skinIndex e < Z.of_nat (length (colors Palettes.nes))).
Proof.
  apply (fresh_engine_indices 2024 "NES" Palettes.nes). reflexivity.
Defined.

End RoleIndices.


(** ** From the request to the picture *)

Section Pipeline.

Import PixelBuffer AvatarEngine Exporters.

Lemma avatar_inv seed paletteName mood gender pal :
  Palettes.getPalette paletteName = Some pal ->
  exists b,
    avatar seed paletteName mood gender = Some b /\
    PixelBuffer.wf b /\ width b = 16%nat /\ height b = 16%nat /\
    cells_below (Z.of_nat (length (colors pal))) b.
Proof.
  intros Hpal. unfold avatar.
  destruct (make_inv seed paletteName pal Hpal) as [e [-> He]].
  destruct (generate_keeps pal (palette_colors_length _ _ Hpal) mood gender
              e He) as [e' [-> [_ H]]].
  exists (AvatarEngine.buffer e'). split; [reflexivity | exact H].
Qed.

Local Open Scope string_scope.

(** X29. The SVG of an avatar drawn on a palette gives every rectangle a
    colour of that palette: no cell of an avatar makes [toSVG] print
    [undefined] for a fill, and the rectangles tile the drawn cells. *)
Theorem avatar_svg_colors (seed : Z) (paletteName : string) (mood : Mood)
    (gender : Gender) (size : Z) (bg : string) (pal : Palette) :
  Palettes.getPalette paletteName = Some pal ->
  (0 <= size < 2147483648)%Z ->
  let pixelSize := (inject_Z size / inject_Z 16)%Q in
  exists b blocks,
    avatar seed paletteName mood gender = Some b /\
    toSVG b size bg paletteName =
    Some (svg_open size ++ svg_background size pixelSize bg ++
          concat_strings (map show_rect (map (block_rect pal pixelSize) blocks))
          ++ "</svg>") /\
    tiles b blocks /\
    forall k, In k blocks ->
      exists hex,
        rect_color (block_rect pal pixelSize k) = Some hex /\
        In hex (colors pal).
Proof.
  intros Hpal Hsize pixelSize.
  destruct (avatar_inv seed paletteName mood gender pal Hpal)
    as [b [Eb [Hb [Hw [Hh Hc]]]]].
  destruct (scan_tiles b pal
              (inject_Z size / inject_Z (Z.of_nat (width b)))%Q Hb)
    as [[processed rects] [E [blocks [Er Ht]]]].
  cbn [snd] in Er. exists b, blocks.
  split; [exact Eb|]. split; [|split; [exact Ht|]].
  - unfold toSVG. rewrite Hpal, E, Er, Hw. unfold pixelSize.
    rewrite <- !append_assoc_string. reflexivity.
  - intros k Hk. destruct Ht as [Hu _].
    destruct (Hu k Hk) as [Hkw [Hkh [Hcol Hcells]]].
    destruct (Hcells (block_x k) (block_y k)) as [_ Hget].
    { unfold in_block.
      destruct (Z.leb_spec (block_x k) (block_x k)); [|lia].
      destruct (Z.ltb_spec (block_x k) (block_x k + block_width k)); [|lia].
      destruct (Z.leb_spec (block_y k) (block_y k)); [|lia].
      destruct (Z.ltb_spec (block_y k) (block_y k + block_height k)); [|lia].
      reflexivity. }
    specialize (Hc _ _ _ Hget). unfold transparent in Hcol.
    cbn [rect_color block_rect].
    destruct (js_index_in_range (colors pal) (block_color k) ltac:(lia))
      as [hex Hhex].
    exists hex. split; [exact Hhex|].
    rewrite js_index_lookup in Hhex by lia.
    apply list_elem_of_In. eapply list_elem_of_lookup_2, Hhex.
Qed.

Lemma avatar_svg_colors_witness :
  exists b blocks,
    avatar 99 "pastel" Wink Masc = Some b /\
    toSVG b 256 "pattern" "pastel" =
    Some (svg_open 256 ++
          svg_background 256 (inject_Z 256 / inject_Z 16)%Q "pattern" ++
          concat_strings
            (map show_rect
               (map (block_rect Palettes.pastel
                       (inject_Z 256 / inject_Z 16)%Q) blocks))
          ++ "</svg>") /\
    tiles b blocks /\
    forall k, In k blocks ->
      exists hex,
        rect_color (block_rect Palettes.pastel
                      (inject_Z 256 / inject_Z 16)%Q k) = Some hex /\
        In hex (colors Palettes.pastel).
Proof.
  apply (avatar_svg_colors 99 "pastel" Wink Masc 256 "pattern"
           Palettes.pastel); [reflexivity | lia].
Defined.

Local Close Scope string_scope.

Variable kMaxLength : Z.

(** What [clampSize] returns: NaN on NaN, and otherwise an integer between
    64 and 1024, the bounds themselves on what lies beyond them. *)
Lemma clampSize_NaN : Validation.clampSize Validation.NaN = Validation.NaN.
Proof. reflexivity. Qed.

Lemma clampSize_integer (size : Validation.Number) :
  size <> Validation.NaN ->
  exists s : Z,
    Validation.clampSize size = Validation.Finite (inject_Z s) /\
    64 <= s <= 1024 /\
    (forall q, size = Validation.Finite q ->
       s = Z.max 64 (Z.min 1024 (Validation.floor q))).
Proof.
  intros Hnan. unfold Validation.clampSize.
  destruct size as [q| | |]; [| | |contradiction].
  - cbn [Validation.Math_floor Validation.Math_min].
    destruct (Qle_bool (inject_Z 1024) (inject_Z (Validation.floor q)))
      eqn:E1.
    + exists 1024. split; [reflexivity|]. split; [lia|].
      intros q' Hq. injection Hq as <-.
      apply Qle_bool_iff in E1. rewrite <- Zle_Qle in E1. lia.
    + assert (H1 : Validation.floor q < 1024).
      { destruct (Z.lt_ge_cases (Validation.floor q) 1024) as [H|H];
          [exact H|].
        rewrite Zle_Qle in H. apply Qle_bool_iff in H. congruence. }
      cbn [Validation.Math_max].
      destruct (Qle_bool (inject_Z 64) (inject_Z (Validation.floor q)))
        eqn:E2.
      * exists (Validation.floor q). split; [reflexivity|].
        apply Qle_bool_iff in E2. rewrite <- Zle_Qle in E2.
        split; [lia|]. intros q' Hq. injection Hq as <-. lia.
      * assert (H2 : Validation.floor q < 64).
        { destruct (Z.lt_ge_cases (Validation.floor q) 64) as [H|H];
            [exact H|].
          rewrite Zle_Qle in H. apply Qle_bool_iff in H. congruence. }
        exists 64. split; [reflexivity|]. split; [lia|].
        intros q' Hq. injection Hq as <-. lia.
  - exists 1024. split; [reflexivity|]. split; [lia|]. discriminate.
  - exists 64. split; [reflexivity|]. split; [lia|]. discriminate.
Qed.

(** X30. Whatever size is asked for, NaN apart, the clamped size is an
    integer between 64 and 1024, and the PNG of an avatar at that size is
    not the placeholder, on a host that allocates 2^32 - 1 bytes: it is a
    square image whose side is the clamped size rounded down to a
    multiple of 16. *)
Theorem clamped_avatar_png (size : Validation.Number) (seed : Z)
    (paletteName bg : string) (mood : Mood) (gender : Gender)
    (pal : Palette) :
  Palettes.getPalette paletteName = Some pal ->
  4294967295 <= kMaxLength ->
  size <> Validation.NaN ->
  exists s : Z,
    Validation.clampSize size = Validation.Finite (inject_Z s) /\
    (forall q, size = Validation.Finite q ->
       s = Z.max 64 (Z.min 1024 (Validation.floor q))) /\
    let side := 16 * (s / 16) in
    64 <= side <= s /\ s < side + 16 /\ s <= 1024 /\
    exists b compressed,
      avatar seed paletteName mood gender = Some b /\
      toPNG kMaxLength b s bg paletteName =
      png_signature ++
      png_chunk "IHDR" (u32be side ++ u32be side ++ [8; 6; 0; 0; 0]) ++
      png_chunk "IDAT" compressed ++
      png_chunk "IEND" [].
Proof.
  intros Hpal Hk Hnan.
  destruct (clampSize_integer size Hnan) as [s [Es [Hs Hq0]]].
  exists s. split; [exact Es|]. split; [exact Hq0|]. intros side.
  pose proof (Z.div_mod s 16 ltac:(lia)) as Hdm.
  pose proof (Z.mod_pos_bound s 16 ltac:(lia)) as Hmb.
  assert (Hq : 4 <= s / 16 <= 64).
  { split; [apply Z.div_le_lower_bound; lia|].
    apply Z.div_le_upper_bound; lia. }
  split; [unfold side; lia|]. split; [unfold side; lia|].
  split; [lia|].
  destruct (avatar_inv seed paletteName mood gender pal Hpal)
    as [b [Eb [Hb [Hw [Hh _]]]]].
  assert (Eside : Z.max 1 (s / Z.of_nat (width b)) * Z.of_nat (width b) =
                  side).
  { rewrite Hw. change (Z.of_nat 16) with 16. unfold side. lia. }
  assert (Hside : 64 <= side <= 1024) by (unfold side; lia).
  assert (Hn : (side * 4 + 1) * side <= 4195328) by nia.
  assert (Hn0 : 0 <= (side * 4 + 1) * side) by nia.
  assert (Hblocks : 0 <= ((side * 4 + 1) * side + 65534) / 65535 <= 66).
  { split; [apply Z.div_pos; lia|].
    apply Z.div_le_upper_bound; lia. }
  destruct (toPNG_chunks kMaxLength b s bg paletteName pal Hb
              ltac:(lia) Hpal) as [compressed E];
    [rewrite Eside; lia | rewrite Eside; lia|].
  rewrite Eside in E. exists b, compressed. split; [exact Eb | exact E].
Qed.

End Pipeline.

Lemma clamped_avatar_png_witness :
  exists s : Z,
    Validation.clampSize (Validation.Finite (2001 # 10)) =
      Validation.Finite (inject_Z s) /\
    (forall q, Validation.Finite (2001 # 10) = Validation.Finite q ->
       s = Z.max 64 (Z.min 1024 (Validation.floor q))) /\
    let side := 16 * (s / 16) in
    64 <= side <= s /\ s < side + 16 /\ s <= 1024 /\
    exists b compressed,
      AvatarEngine.avatar 1 "nes" Neutral Auto = Some b /\
      Exporters.toPNG 4294967295 b s "transparent" "nes" =
      Exporters.png_signature ++
      png_chunk "IHDR"
        (Exporters.u32be side ++ Exporters.u32be side ++ [8; 6; 0; 0; 0]) ++
      png_chunk "IDAT" compressed ++
      png_chunk "IEND" [].
Proof.
  apply (clamped_avatar_png 4294967295 (Validation.Finite (2001 # 10)) 1
           "nes" "transparent" Neutral Auto Palettes.nes);
    [reflexivity | lia | discriminate].
Defined.


(** ** Two runs of the pipeline in one process *)

Section ProcessRuns.

Import AvatarEngine.




End ProcessRuns.

